(** * Data-provider cost estimator: the formula evaluation engine

    A shallow embedding of the cost engine (the [CostCalculationEngine]
    class: the version with systems and support detection, and the
    aggregation of the earlier version without them) and of
    [combineSystemResults] from the application controller, followed by the
    properties of the specification that concern them.  The validation and
    the flattening of the configuration manager and the list of logs of the
    console logger, which the controller relies on, are embedded as well;
    the last part of the file has further properties of all of this code.

    Conventions of the embedding.
    - Numbers.  Configuration and context values are finite and are
      represented exactly, as canonical rationals ([Qc]); rounding of
      binary64 arithmetic and the sign of zero are not represented.  Where
      a statement on the tier loop would depend on it, the loop is taken
      with its arithmetic left open ([tierLoopWith]).
      Computed values live in [num], which adds NaN and the two infinities
      with the ECMAScript rules for them.
    - Strings are sequences of code units below 256.
    - A formula definition is a value of the type [formula]: the shapes
      the engine tells apart, with the fields it reads.
    - The keys of a context are matched literally when they are spliced
      into a regular expression, as identifiers are; a key that is itself
      regular expression syntax is not represented.
    - Objects iterated with [Object.keys], [Object.entries] or
      [Object.values] are association lists in insertion order; keys are
      not array indices.
    - What the engine obtains from the JavaScript runtime (number to string
      conversion, the [Function] constructor, [Math.pow]) is a parameter,
      the class [JSRuntime]; the general results hold for every runtime. *)

From Stdlib Require Import List String Ascii Bool Arith ZArith QArith Qcanon Lia.
From Stdlib Require Import DecimalString Lqa.
From Stdlib Require Import Permutation Sorted.
Import ListNotations.

Set Implicit Arguments.

(** ** Numbers *)

Module Num.

Inductive num : Type :=
| NaN
| PInf                      (* Infinity *)
| NInf                      (* -Infinity *)
| Fin (q : Qc).

Definition zero : num := Fin 0%Qc.
Definition one : num := Fin 1%Qc.

Definition Qcltb (x y : Qc) : bool :=
  match (x ?= y)%Qc with Lt => true | _ => false end.

Definition Qcleb (x y : Qc) : bool :=
  match (x ?= y)%Qc with Gt => false | _ => true end.

Definition Qceqb (x y : Qc) : bool :=
  match (x ?= y)%Qc with Eq => true | _ => false end.

(** [Math.min] on finite numbers. *)
Definition Qcmin (x y : Qc) : Qc := if Qcltb y x then y else x.

Definition isNaN (a : num) : bool :=
  match a with NaN => true | _ => false end.

Definition neg (a : num) : num :=
  match a with
  | NaN => NaN
  | PInf => NInf
  | NInf => PInf
  | Fin q => Fin (- q)%Qc
  end.

Definition add (a b : num) : num :=
  match a, b with
  | NaN, _ | _, NaN => NaN
  | PInf, NInf | NInf, PInf => NaN
  | PInf, _ | _, PInf => PInf
  | NInf, _ | _, NInf => NInf
  | Fin x, Fin y => Fin (x + y)%Qc
  end.

Definition sub (a b : num) : num := add a (neg b).

(** An infinity scaled by a finite number. *)
Definition scale_inf (i : num) (q : Qc) : num :=
  match (q ?= 0)%Qc with
  | Gt => i
  | Lt => neg i
  | Eq => NaN
  end.

Definition mul (a b : num) : num :=
  match a, b with
  | NaN, _ | _, NaN => NaN
  | Fin x, Fin y => Fin (x * y)%Qc
  | Fin x, i => scale_inf i x
  | i, Fin y => scale_inf i y
  | PInf, PInf | NInf, NInf => PInf
  | PInf, NInf | NInf, PInf => NInf
  end.

Definition div (a b : num) : num :=
  match a, b with
  | NaN, _ | _, NaN => NaN
  | Fin x, Fin y =>
      match (y ?= 0)%Qc with
      | Eq => scale_inf PInf x
      | _ => Fin (x / y)%Qc
      end
  | Fin _, _ => Fin 0%Qc
  | i, Fin y =>
      match (y ?= 0)%Qc with
      | Lt => neg i
      | _ => i
      end
  | _, _ => NaN
  end.

Definition ltb (a b : num) : bool :=
  match a, b with
  | NaN, _ | _, NaN => false
  | Fin x, Fin y => Qcltb x y
  | NInf, NInf | PInf, _ => false
  | NInf, _ => true
  | Fin _, PInf => true
  | Fin _, NInf => false
  end.

Definition gtb (a b : num) : bool := ltb b a.

(** Truthiness of a number: neither NaN nor zero. *)
Definition truthy (a : num) : bool :=
  match a with
  | NaN => false
  | Fin q => negb (Qceqb q 0)
  | _ => true
  end.

(** A decimal constant of the configuration. *)
Definition dec (q : Q) : Qc := Q2Qc q.

End Num.
Import Num.

(** ** Text *)

Definition text : Type := list ascii.

(** A string constant of the source. *)
Definition txt (s : string) : text := list_ascii_of_string s.

Module Text.

Definition code (c : ascii) : nat := nat_of_ascii c.

Definition between (lo hi : nat) (c : ascii) : bool :=
  (lo <=? code c) && (code c <=? hi).

Definition is_digit (c : ascii) : bool := between 48 57 c.

Definition is_letter (c : ascii) : bool := between 65 90 c || between 97 122 c.

Definition is_underscore (c : ascii) : bool := Ascii.eqb c "_".

(** The class [\w]. *)
Definition is_word (c : ascii) : bool := is_letter c || is_digit c || is_underscore c.

(** The class [[a-zA-Z_]]. *)
Definition is_ident_start (c : ascii) : bool := is_letter c || is_underscore c.

(** The class [\s], which is also what [trim] removes. *)
Definition is_space (c : ascii) : bool :=
  between 9 13 c || (code c =? 32) || (code c =? 160).

Definition is_operator (c : ascii) : bool :=
  existsb (Ascii.eqb c) (txt "+-*/().").

(** The complement of the class [[^0-9+\-*/().\s]]. *)
Definition is_math_char (c : ascii) : bool :=
  is_digit c || is_operator c || is_space c.

Fixpoint text_eqb (a b : text) : bool :=
  match a, b with
  | [], [] => true
  | x :: a', y :: b' => Ascii.eqb x y && text_eqb a' b'
  | _, _ => false
  end.

Fixpoint starts_with (p s : text) : bool :=
  match p, s with
  | [], _ => true
  | x :: p', y :: s' => Ascii.eqb x y && starts_with p' s'
  | _ :: _, [] => false
  end.

(** [includes s sub]: [String.prototype.includes]. *)
Fixpoint includes (s sub : text) : bool :=
  starts_with sub s ||
  match s with
  | [] => false
  | _ :: s' => includes s' sub
  end.

Fixpoint take_while (p : ascii -> bool) (s : text) : text :=
  match s with
  | c :: s' => if p c then c :: take_while p s' else []
  | [] => []
  end.

(** The assertion [\b] between the code unit [prev] and the text [rest]. *)
Definition word_boundary (prev : ascii) (rest : text) : bool :=
  xorb (is_word prev)
       (match rest with c :: _ => is_word c | [] => false end).

(** [s.replace(new RegExp(pat + "\\b", "g"), repl)] for a pattern [pat]
    that matches literally: the text is scanned from the left, a match is
    replaced and the scan resumes behind it.  [matches_here pat s] says
    that [pat] followed by a word boundary matches at the head of [s];
    [skip] counts the code units of the current match that are still to
    be dropped. *)
Definition matches_here (pat s : text) : bool :=
  starts_with pat s &&
  word_boundary (last pat "$"%char) (skipn (List.length pat) s).

Fixpoint replace_from (pat repl : text) (skip : nat) (s : text) : text :=
  match s with
  | [] => []
  | c :: s' =>
      match skip with
      | S k => replace_from pat repl k s'
      | O =>
          if matches_here pat s
          then repl ++ replace_from pat repl (List.length pat - 1) s'
          else c :: replace_from pat repl 0 s'
      end
  end.

(** [s.replace(new RegExp(`\\$${key}\\b`, 'g'), repl)].  The key is
    matched literally, as it is for the identifiers the configuration
    uses as variable names. *)
Definition replaceVariable (key repl s : text) : text :=
  replace_from ("$"%char :: key) repl 0 s.

(** The names captured by a global match of [\$] followed by a code unit
    of the class [start] and then the longest run of [\w]. *)
Fixpoint scan_from (start : ascii -> bool) (skip : nat) (s : text) : list text :=
  match s with
  | [] => []
  | c :: s' =>
      match skip with
      | S k => scan_from start k s'
      | O =>
          if Ascii.eqb c "$" &&
             match s' with c1 :: _ => start c1 | [] => false end
          then
            let name := take_while is_word s' in
            name :: scan_from start (List.length name) s'
          else scan_from start 0 s'
      end
  end.

(** [s.match(/\$\w+/g)], each match without its sigil. *)
Definition unreplacedVariables (s : text) : list text := scan_from is_word 0 s.

(** [s.matchAll] for a sigil, a letter or underscore and then letters,
    digits and underscores: the captured names. *)
Definition referencedVariables (s : text) : list text := scan_from is_ident_start 0 s.

(** [s.replace(/[^0-9+\-*/().\s]/g, '')]. *)
Definition sanitize (s : text) : text := filter is_math_char s.

(** [s.trim() === '']. *)
Definition blank (s : text) : bool := forallb is_space s.

End Text.
Import Text.

(** ** The JavaScript runtime *)

(** [Number_toString q] is the string the runtime gives for the number [q]
    when it is spliced into a string.  [Function_run code] is
    [Function(code)()]: [None] when building or calling the function
    throws, otherwise the value returned; a returned value that is not a
    number is reported as [NaN], which is how [isNaN] sees it.
    [Math_pow] is [Math.pow]. *)
Class JSRuntime : Type := {
  Number_toString : Qc -> text;
  Function_run : text -> option num;
  Math_pow : Qc -> Qc -> num
}.

(** ** Objects and sets *)

Section Objects.

Variable V : Type.

(** An object with string keys, in insertion order. *)
Definition obj : Type := list (text * V).

Fixpoint obj_get (o : obj) (k : text) : option V :=
  match o with
  | [] => None
  | (k', v) :: o' => if text_eqb k' k then Some v else obj_get o' k
  end.

(** [o[k] = v]: an existing key keeps its place, a new one goes last. *)
Fixpoint obj_set (o : obj) (k : text) (v : V) : obj :=
  match o with
  | [] => [(k, v)]
  | (k', v') :: o' =>
      if text_eqb k' k then (k', v) :: o' else (k', v') :: obj_set o' k v
  end.

Definition obj_keys (o : obj) : list text := map fst o.

(** [k in o]. *)
Definition obj_has (o : obj) (k : text) : bool :=
  match obj_get o k with Some _ => true | None => false end.

(** [{...target, ...source}]. *)
Definition obj_spread (target source : obj) : obj :=
  fold_left (fun o kv => obj_set o (fst kv) (snd kv)) source target.

End Objects.

(** A [Set] of strings, in insertion order. *)
Definition set_has (s : list text) (x : text) : bool := existsb (text_eqb x) s.

Definition set_add (s : list text) (x : text) : list text :=
  if set_has s x then s else s ++ [x].

(** ** Data model *)

(** A variable context.  A key may be bound to [null] or [undefined]
    ([None]). *)
Definition context : Type := obj (option Qc).

(** [context[k] || d]. *)
Definition ctx_or (ctx : context) (k : text) (d : Qc) : Qc :=
  match obj_get ctx k with
  | Some (Some q) => if Qceqb q 0 then d else q
  | _ => d
  end.

Inductive tierRate : Type :=
| RateNumber (q : Qc)
| RateExpression (s : text).

Record tier : Type := {
  limit : option Qc;          (* [None]: null or missing *)
  rate : tierRate
}.

Record multiplierEntry : Type := {
  variable : text;
  factor : Qc
}.

Record condition : Type := {
  cond_variable : text;
  operator : text;
  value : Qc
}.

(** A formula definition, as the engine probes it: a number, a string,
    null or undefined, a boolean, an object with one of the three [type]
    discriminators and the fields the engine reads from it, or any other
    object. *)
#[warnings="-register-all"]
Inductive formula : Type :=
| FNum (q : Qc)
| FStr (s : text)
| FNull
| FBool (b : bool)
| FTiered (volumeVar : text) (tiers : list tier)
| FMultiplier (base : formula) (multipliers : list multiplierEntry)
| FConditional (conditions : list (condition * formula)) (else_ : formula)
| FObject (members : list (text * formula)).

(** Truthiness of a formula value ([!formula], [formula.else || 0]). *)
Definition formula_truthy (f : formula) : bool :=
  match f with
  | FNum q => negb (Qceqb q 0)
  | FStr s => match s with [] => false | _ => true end
  | FNull => false
  | FBool b => b
  | _ => true
  end.

Record system : Type := {
  components : context
}.

Record engine : Type := {
  formulas : obj formula;
  systems : obj system;
  variables : obj (option Qc);
  currentSystemCosts : context
}.

Record breakdownEntry : Type := {
  service : text;
  cost : num;
  percentage : num
}.

Record totalResult : Type := {
  services : obj (option num);     (* [None]: null, unsupported *)
  total : num;
  breakdown : list breakdownEntry;
  supportedServices : list text;
  unsupportedServices : list text
}.

Record systemResult : Type := {
  systemId : text;
  result : totalResult
}.

Record combinedResult : Type := {
  combinedServices : obj num;
  combinedTotal : num;
  combinedBreakdown : list breakdownEntry;
  allSupportedServices : list text;
  globallyUnsupportedServices : list text;
  isMultiSystem : bool;
  systemCount : nat
}.

(** ** Exceptions *)

Inductive exn : Type :=
| NoFormulaFound (serviceType : text)
| TypeError.

Inductive outcome (A : Type) : Type :=
| Returns (a : A)
| Throws (e : exn).

Arguments Returns {A} a.
Arguments Throws {A} e.

Definition bind {A B : Type} (c : outcome A) (k : A -> outcome B) : outcome B :=
  match c with
  | Returns a => k a
  | Throws e => Throws e
  end.

(** [try { body } catch (error) { handler }]. *)
Definition try_catch {A : Type} (body : outcome A) (handler : exn -> outcome A) : outcome A :=
  match body with
  | Returns a => Returns a
  | Throws e => handler e
  end.

(** [for (const x of xs) { body }] over a loop state. *)
Fixpoint for_of {X S : Type} (xs : list X) (body : X -> S -> outcome S) (s : S) : outcome S :=
  match xs with
  | [] => Returns s
  | x :: xs' => bind (body x s) (for_of xs' body)
  end.

Declare Scope outcome_scope.
Delimit Scope outcome_scope with outcome.
Notation "x <- c ;; k" := (bind c (fun x => k))
  (at level 61, c at next level, right associativity) : outcome_scope.

(** ** The cost calculation engine *)

Section CostCalculationEngine.

Context {runtime : JSRuntime}.

Local Open Scope outcome_scope.

(** *** evaluateExpression *)

(** The loop over [Object.entries(context)]: every key bound to a value
    is spliced in wherever the sigil, the key and a word boundary occur. *)
Definition substituteContext (expression : text) (ctx : context) : text :=
  fold_left
    (fun processed kv =>
       match snd kv with
       | Some v => replaceVariable (fst kv) (Number_toString v) processed
       | None => processed
       end)
    ctx expression.

(** The variables still unreplaced are set to 0. *)
Definition zeroUnreplaced (processed : text) : text :=
  fold_left
    (fun p name => replaceVariable name (txt "0") p)
    (unreplacedVariables processed) processed.

Definition processedExpression (expression : text) (ctx : context) : text :=
  zeroUnreplaced (substituteContext expression ctx).

Definition safeExpression (expression : text) (ctx : context) : text :=
  sanitize (processedExpression expression ctx).

Definition double_quote : ascii := Eval cbv in ascii_of_nat 34.

(** The source text handed to [Function]. *)
Definition functionBody (safe : text) : text :=
  (double_quote :: txt "use strict") ++ (double_quote :: txt "; return (")
    ++ safe ++ txt ")".

Definition evaluateExpression (expression : text) (ctx : context) : num :=
  let safe := safeExpression expression ctx in
  if blank safe then zero
  else
    match Function_run (functionBody safe) with
    | Some result => if isNaN result then zero else result
    | None => zero              (* the catch clause *)
    end.

(** *** evaluateTieredFormula *)

Definition tierRateValue (r : tierRate) (ctx : context) : num :=
  match r with
  | RateExpression s => evaluateExpression s ctx
  | RateNumber q => Fin q
  end.

(** [tier.limit || remainingVolume]. *)
Definition limit_or (l : option Qc) (remainingVolume : Qc) : Qc :=
  match l with
  | Some q => if Qceqb q 0 then remainingVolume else q
  | None => remainingVolume
  end.

(** The loop over the tiers, on the state [(cost, remainingVolume)]. *)
Fixpoint tierLoop (ctx : context) (ts : list tier) (cost : num) (remainingVolume : Qc) : num :=
  match ts with
  | [] => cost
  | t :: ts' =>
      if Qcleb remainingVolume 0 then cost
      else
        let tierVolume := Qcmin remainingVolume (limit_or (limit t) remainingVolume) in
        let r := tierRateValue (rate t) ctx in
        tierLoop ctx ts' (add cost (mul (Fin tierVolume) r))
                 (remainingVolume - tierVolume)%Qc
  end.

Definition evaluateTieredFormula (volumeVar : text) (ts : list tier) (ctx : context) : num :=
  let volume := ctx_or ctx volumeVar 0 in
  tierLoop ctx ts zero volume.

(** The loop of [evaluateTieredFormula] with the arithmetic of the number
    type left open: [plus] and [times] stand for the addition and the
    multiplication of [cost += tierVolume * rate], [minus] for the
    subtraction of [remainingVolume -= tierVolume].  The comparison, the
    minimum and the choice of the limit do not compute a new number.
    [tierLoop] is this loop with the three operations exact; the runtime
    rounds each of them to the nearest binary64 number. *)
Fixpoint tierLoopWith (plus times : num -> num -> num)
         (minus : Qc -> Qc -> Qc) (ctx : context) (ts : list tier)
         (cost : num) (remainingVolume : Qc) : num :=
  match ts with
  | [] => cost
  | t :: ts' =>
      if Qcleb remainingVolume 0 then cost
      else
        let tierVolume := Qcmin remainingVolume (limit_or (limit t) remainingVolume) in
        let r := tierRateValue (rate t) ctx in
        tierLoopWith plus times minus ctx ts' (plus cost (times (Fin tierVolume) r))
                     (minus remainingVolume tierVolume)
  end.

Definition evaluateTieredFormulaWith (plus times : num -> num -> num)
           (minus : Qc -> Qc -> Qc) (volumeVar : text) (ts : list tier)
           (ctx : context) : num :=
  let volume := ctx_or ctx volumeVar 0 in
  tierLoopWith plus times minus ctx ts zero volume.

(** *** evaluateMultiplierFormula *)

Definition multiplierStep (ctx : context) (multiplier : num) (mult : multiplierEntry) : num :=
  let v := ctx_or ctx (variable mult) 1 in
  if Qcltb 1 v then mul multiplier (Math_pow (factor mult) (v - 1)%Qc)
  else multiplier.

(** [evaluateExpression] is handed [formula.base] as it is; a base that
    is not a string has neither [replace] nor [match]. *)
Definition evaluateMultiplierFormula (base : formula) (ms : list multiplierEntry)
           (ctx : context) : outcome num :=
  match base with
  | FStr s =>
      let baseValue := evaluateExpression s ctx in
      let multiplier := fold_left (multiplierStep ctx) ms one in
      let r := mul baseValue multiplier in
      Returns (if isNaN r then zero else r)
  | _ => Throws TypeError
  end.

(** *** evaluateCondition *)

Definition evaluateCondition (c : condition) (ctx : context) : bool :=
  let varValue := ctx_or ctx (cond_variable c) 0 in
  if text_eqb (operator c) (txt ">") then Qcltb (value c) varValue
  else if text_eqb (operator c) (txt ">=") then Qcleb (value c) varValue
  else if text_eqb (operator c) (txt "<") then Qcltb varValue (value c)
  else if text_eqb (operator c) (txt "<=") then Qcleb varValue (value c)
  else if text_eqb (operator c) (txt "==") then Qceqb varValue (value c)
  else if text_eqb (operator c) (txt "!=") then negb (Qceqb varValue (value c))
  else false.

(** *** evaluateFormula, evaluateComplexFormula, evaluateConditionalFormula

    The three functions call each other; they are one recursion on the
    formula.  [clause] is the treatment of a [then] or [else] clause: a
    string goes to [evaluateExpression], anything else back to
    [evaluateFormula]. *)
Fixpoint evaluateFormula (f : formula) (ctx : context) {struct f} : outcome num :=
  let clause c :=
    match c with
    | FStr s => Returns (evaluateExpression s ctx)
    | _ => evaluateFormula c ctx
    end in
  match f with
  | FNum q => Returns (Fin q)
  | FStr s =>
      if starts_with (txt "$") s
      then Returns (Fin (ctx_or ctx (skipn 1 s) 0))
      else Returns (evaluateExpression s ctx)
  | FNull | FBool _ => Returns zero
  | FTiered volumeVar ts => Returns (evaluateTieredFormula volumeVar ts ctx)
  | FMultiplier base ms => evaluateMultiplierFormula base ms ctx
  | FConditional conds els =>
      (fix conditionLoop (cs : list (condition * formula)) : outcome num :=
         match cs with
         | (c, thn) :: cs' =>
             if evaluateCondition c ctx then clause thn else conditionLoop cs'
         | [] =>
             (* [formula.else || 0] *)
             if formula_truthy els then clause els else Returns zero
         end) conds
  | FObject members =>
      (fix sumLoop (ms : list (text * formula)) (acc : num) : outcome num :=
         match ms with
         | [] => Returns acc
         | (_, FNum q) :: ms' => sumLoop ms' (add acc (Fin q))
         | (_, v) :: ms' =>
             x <- evaluateFormula v ctx ;; sumLoop ms' (add acc x)
         end) members zero
  end.

(** [condition.then] and [formula.else || 0] of evaluateConditionalFormula. *)
Definition evaluateClause (c : formula) (ctx : context) : outcome num :=
  match c with
  | FStr s => Returns (evaluateExpression s ctx)
  | _ => evaluateFormula c ctx
  end.

Fixpoint conditionLoop (ctx : context) (els : formula)
         (cs : list (condition * formula)) : outcome num :=
  match cs with
  | (c, thn) :: cs' =>
      if evaluateCondition c ctx then evaluateClause thn ctx
      else conditionLoop ctx els cs'
  | [] => if formula_truthy els then evaluateClause els ctx else Returns zero
  end.

Definition evaluateConditionalFormula (conds : list (condition * formula))
           (els : formula) (ctx : context) : outcome num :=
  conditionLoop ctx els conds.

(** *** calculateServiceCost *)

Definition serviceContext (eng : engine) (parameters : context) : context :=
  obj_spread (obj_spread (obj_spread [] (currentSystemCosts eng)) (variables eng))
             parameters.

Definition calculateServiceCost (eng : engine) (serviceType : text)
           (parameters : context) : outcome num :=
  match obj_get (formulas eng) serviceType with
  | Some f =>
      if formula_truthy f
      then evaluateFormula f (serviceContext eng parameters)
      else Throws (NoFormulaFound serviceType)
  | None => Throws (NoFormulaFound serviceType)
  end.

End CostCalculationEngine.

(** *** checkServiceSupport, getRequiredVariables *)

Definition is_cost_variable (varName : text) : bool :=
  includes varName (txt "_per_") || includes varName (txt "_cost") ||
  includes varName (txt "_price") || includes varName (txt "_base").

(** [extractVars]: the cost variables a string refers to. *)
Definition extractVars (str : text) : list text :=
  filter is_cost_variable (referencedVariables str).

(** The strings found in a formula, at any depth, in the order in which
    [traverse] visits them.  The discriminator of a typed formula is one of
    these strings. *)
Fixpoint formulaStrings (f : formula) : list text :=
  match f with
  | FStr s => [s]
  | FNum _ | FNull | FBool _ => []
  | FTiered volumeVar ts =>
      txt "tiered" :: volumeVar ::
      flat_map (fun t => match rate t with
                         | RateExpression s => [s]
                         | RateNumber _ => []
                         end) ts
  | FMultiplier base ms =>
      txt "multiplier" :: formulaStrings base ++ map variable ms
  | FConditional conds els =>
      txt "conditional" ::
      flat_map (fun ct => cond_variable (fst ct) :: operator (fst ct) ::
                          formulaStrings (snd ct)) conds ++
      formulaStrings els
  | FObject members => flat_map (fun kv => formulaStrings (snd kv)) members
  end.

(** [traverse]: every string of the formula is handed to [extractVars]. *)
Definition traverse (f : formula) : list text :=
  flat_map extractVars (formulaStrings f).

(** The names go through a [Set], which keeps the first occurrence of
    each. *)
Definition getRequiredVariables (eng : engine) (serviceType : text) : list text :=
  match obj_get (formulas eng) serviceType with
  | Some f => fold_left set_add (traverse f) []
  | None => []
  end.

Definition checkServiceSupport (eng : engine) (serviceType : text)
           (systemCosts : context) : bool :=
  forallb (obj_has systemCosts) (getRequiredVariables eng serviceType).

(** *** generateCostBreakdown *)

(** [Array.prototype.sort] with the comparator [(a, b) => b.cost - a.cost]:
    a stable insertion sort; an entry moves in front of the entries whose
    cost is smaller. *)
Fixpoint insertByCost (x : breakdownEntry) (l : list breakdownEntry) : list breakdownEntry :=
  match l with
  | [] => [x]
  | y :: l' =>
      if gtb (sub (cost x) (cost y)) zero then x :: y :: l'
      else y :: insertByCost x l'
  end.

Definition sortByCost (l : list breakdownEntry) : list breakdownEntry :=
  fold_left (fun sorted x => insertByCost x sorted) l [].

Definition hundred : num := Fin (dec 100).

Definition generateCostBreakdown (costs : obj (option num)) : list breakdownEntry :=
  let entries :=
    flat_map (fun kv => match snd kv with
                        | Some c => [ {| service := fst kv; cost := c; percentage := zero |} ]
                        | None => []         (* null: unsupported *)
                        end) costs in
  let sum := fold_left (fun s item => add s (cost item)) entries zero in
  let entries :=
    map (fun item =>
           {| service := service item; cost := cost item;
              percentage := if gtb sum zero
                            then mul (div (cost item) sum) hundred
                            else zero |}) entries in
  sortByCost entries.

(** *** calculateTotalCost *)

Record totals : Type := {
  costs : obj (option num);
  supported : list text;
  unsupported : list text;
  running : num
}.

Section Aggregation.

Context {runtime : JSRuntime}.

Local Open Scope outcome_scope.

(** [serviceParameters[serviceType] || {}]. *)
Definition parametersFor (serviceParameters : obj context) (serviceType : text) : context :=
  match obj_get serviceParameters serviceType with
  | Some p => p
  | None => []
  end.

(** The body of the loop over [Object.keys(this.formulas)]. *)
Definition serviceStep (eng : engine) (serviceParameters : obj context)
           (serviceType : text) (st : totals) : outcome totals :=
  if negb (checkServiceSupport eng serviceType (currentSystemCosts eng))
  then
    Returns {| costs := obj_set (costs st) serviceType None;
               supported := supported st;
               unsupported := unsupported st ++ [serviceType];
               running := running st |}
  else
    try_catch
      (serviceCost <- calculateServiceCost eng serviceType
                        (parametersFor serviceParameters serviceType) ;;
       Returns {| costs := obj_set (costs st) serviceType (Some serviceCost);
                  supported := supported st ++ [serviceType];
                  unsupported := unsupported st;
                  running := if negb (isNaN serviceCost)
                             then add (running st) serviceCost
                             else running st |})
      (fun _ =>
         Returns {| costs := obj_set (costs st) serviceType (Some zero);
                    supported := supported st;
                    unsupported := unsupported st;
                    running := running st |}).

Definition calculateTotalCost (eng : engine) (serviceParameters : obj context)
  : outcome totalResult :=
  st <- for_of (obj_keys (formulas eng)) (serviceStep eng serviceParameters)
               {| costs := []; supported := []; unsupported := []; running := zero |} ;;
  Returns {| services := costs st;
             total := running st;
             breakdown := generateCostBreakdown (costs st);
             supportedServices := supported st;
             unsupportedServices := unsupported st |}.

(** *** calculateMultiSystemCosts *)

Definition setSystemCosts (eng : engine) (id : text) (systemCosts : context) : engine :=
  {| formulas := formulas eng; systems := systems eng;
     variables := variables eng; currentSystemCosts := systemCosts |}.

(** [this.systems[systemId]?.components || {}]. *)
Definition componentsOf (eng : engine) (id : text) : context :=
  match obj_get (systems eng) id with
  | Some s => components s
  | None => []
  end.

(** The loop state is the engine, whose system costs each round
    replaces, and the results pushed so far. *)
Definition calculateMultiSystemCosts (eng : engine) (systemIds : list text)
           (serviceParameters : obj context) : outcome (engine * list systemResult) :=
  for_of systemIds
    (fun id st =>
       let eng' := setSystemCosts (fst st) id (componentsOf (fst st) id) in
       r <- calculateTotalCost eng' serviceParameters ;;
       Returns (eng', snd st ++ [ {| systemId := id; result := r |} ]))
    (eng, []).

End Aggregation.

(** *** setVariable, getVariable *)

(** [this.variables.set(name, value)]. *)
Definition setVariable (eng : engine) (name : text) (value : option Qc) : engine :=
  {| formulas := formulas eng; systems := systems eng;
     variables := obj_set (variables eng) name value;
     currentSystemCosts := currentSystemCosts eng |}.

(** [this.variables.get(name) || 0]. *)
Definition getVariable (eng : engine) (name : text) : Qc :=
  ctx_or (variables eng) name 0.

(** *** updateConfig *)

(** [this.formulas = { ...this.formulas, ...newConfig.formulas }]; the
    base costs and the multipliers, which no calculation reads, are not
    part of [engine].  [None] is a new configuration without formulas. *)
Definition updateConfig (eng : engine) (newFormulas : option (obj formula)) : engine :=
  {| formulas := obj_spread (obj_spread [] (formulas eng))
                            (match newFormulas with Some fs => fs | None => [] end);
     systems := systems eng; variables := variables eng;
     currentSystemCosts := currentSystemCosts eng |}.

(** ** The engine without systems

    The earlier version of the engine: no system costs and no support
    check; the services map holds numbers only. *)

Module Legacy.

Record totalResult : Type := {
  services : obj num;
  total : num;
  breakdown : list breakdownEntry
}.

Record totals : Type := {
  costs : obj num;
  running : num
}.

Section Engine.

Context {runtime : JSRuntime}.

Local Open Scope outcome_scope.

Definition calculateServiceCost (eng : engine) (serviceType : text)
           (parameters : context) : outcome num :=
  match obj_get (formulas eng) serviceType with
  | Some f =>
      if formula_truthy f
      then evaluateFormula f (obj_spread (obj_spread [] (variables eng)) parameters)
      else Throws (NoFormulaFound serviceType)
  | None => Throws (NoFormulaFound serviceType)
  end.

Definition generateCostBreakdown (costs : obj num) : list breakdownEntry :=
  let entries :=
    map (fun kv => {| service := fst kv; cost := snd kv; percentage := zero |}) costs in
  let sum := fold_left (fun s item => add s (cost item)) entries zero in
  let entries :=
    map (fun item =>
           {| service := service item; cost := cost item;
              percentage := if gtb sum zero
                            then mul (div (cost item) sum) hundred
                            else zero |}) entries in
  sortByCost entries.

Definition serviceStep (eng : engine) (serviceParameters : obj context)
           (serviceType : text) (st : totals) : outcome totals :=
  try_catch
    (serviceCost <- calculateServiceCost eng serviceType
                      (parametersFor serviceParameters serviceType) ;;
     Returns {| costs := obj_set (costs st) serviceType serviceCost;
                running := if negb (isNaN serviceCost)
                           then add (running st) serviceCost
                           else running st |})
    (fun _ =>
       Returns {| costs := obj_set (costs st) serviceType zero;
                  running := running st |}).

Definition calculateTotalCost (eng : engine) (serviceParameters : obj context)
  : outcome totalResult :=
  st <- for_of (obj_keys (formulas eng)) (serviceStep eng serviceParameters)
               {| costs := []; running := zero |} ;;
  Returns {| services := costs st;
             total := running st;
             breakdown := generateCostBreakdown (costs st) |}.

End Engine.

End Legacy.

(** ** The application controller: combineSystemResults *)

(** [combinedServices[service] || 0]. *)
Definition combined_or_zero (combined : obj num) (s : text) : num :=
  match obj_get combined s with
  | Some c => if truthy c then c else zero
  | None => zero
  end.

(** The body of the inner loop: a cost that is neither null nor NaN is
    added to the running sum of its service. *)
Definition sumEntry (combined : obj num) (kv : text * option num) : obj num :=
  match snd kv with
  | Some c =>
      if negb (isNaN c)
      then obj_set combined (fst kv) (add (combined_or_zero combined (fst kv)) c)
      else combined
  | None => combined
  end.

(** The inner loop over [Object.entries(result.services)]. *)
Definition sumServices (combined : obj num) (costs : obj (option num)) : obj num :=
  fold_left sumEntry costs combined.

Record combineState : Type := {
  acc_services : obj num;
  acc_total : num;
  acc_supported : list text;
  acc_unsupported : list text
}.

(** The body of [systemResults.forEach]. *)
Definition combineStep (st : combineState) (r : systemResult) : combineState :=
  {| acc_total := add (acc_total st) (total (result r));
     acc_supported := fold_left set_add (supportedServices (result r)) (acc_supported st);
     acc_unsupported := fold_left set_add (unsupportedServices (result r)) (acc_unsupported st);
     acc_services := sumServices (acc_services st) (services (result r)) |}.

Definition combineSystemResults (systemResults : list systemResult) : combinedResult :=
  let st :=
    fold_left combineStep systemResults
              {| acc_services := []; acc_total := zero;
                 acc_supported := []; acc_unsupported := [] |} in
  let entries :=
    map (fun kv => {| service := fst kv; cost := snd kv;
                      percentage := mul (div (snd kv) (acc_total st)) hundred |})
        (filter (fun kv => gtb (snd kv) zero) (acc_services st)) in
  {| combinedServices := acc_services st;
     combinedTotal := acc_total st;
     combinedBreakdown := sortByCost entries;
     allSupportedServices := acc_supported st;
     globallyUnsupportedServices :=
       filter (fun s => negb (set_has (acc_supported st) s)) (acc_unsupported st);
     isMultiSystem := true;
     systemCount := List.length systemResults |}.

(** ** The console logger *)

Module ConsoleLogger.

Section Logger.

(** The list of logs of the logger; what [addLog] displays of an entry
    is not represented.  What the logger obtains from the runtime is a
    parameter: the rendering of a console argument
    ([JSON.stringify(arg, null, 2)] for an object, [String(arg)] for
    anything else and for an object that cannot be serialized) and of a
    time of day ([toLocaleTimeString]). *)
Variable arg : Type.
Variable date : Type.
Variable render : arg -> text.
Variable toLocaleTimeString : date -> text.

Record logEntry : Type := {
  type : text;
  message : text;
  timestamp : date;
  time : text
}.

Record logger : Type := {
  logs : list logEntry;
  maxLogs : nat
}.





Definition getLogs (lg : logger) : list logEntry := logs lg.

End Logger.

End ConsoleLogger.

(** ** The configuration manager *)

Module ConfigManager.

(** A value of the configuration as [flattenObject] tells them apart: an
    object that is neither null nor an array is flattened, anything else
    is kept as it is. *)
#[warnings="-register-all"]
Inductive value : Type :=
| VNumber (q : Qc)
| VString (s : text)
| VBool (b : bool)
| VNull
| VArray (items : list value)
| VObject (members : list (text * value)).

Record config : Type := {
  baseCosts : option (list (text * value));     (* [None]: undefined or null *)
  formulas : option (obj formula);
  multipliers : option (list (text * value));
  flatBaseCosts : option (obj value)
}.

Inductive thrown : Type :=
| Error (message : text)
| TypeError.

Inductive completion (A : Type) : Type :=
| Normal (a : A)
| Abrupt (e : thrown).

Arguments Normal {A} a.
Arguments Abrupt {A} e.

(** [prefix ? `${prefix}_${key}` : key]. *)
Definition newKey (prefix key : text) : text :=
  match prefix with
  | [] => key
  | _ => prefix ++ "_"%char :: key
  end.

(** The body of the loop of [flattenObject] for the entry under [key]:
    an object is flattened under the new key, anything else is stored. *)
Fixpoint flattenEntry (key : text) (v : value) (flattened : obj value) {struct v}
  : obj value :=
  match v with
  | VObject members =>
      (fix flattenObject (ms : list (text * value)) (flattened : obj value) : obj value :=
         match ms with
         | [] => flattened
         | (k, v') :: ms' => flattenObject ms' (flattenEntry (newKey key k) v' flattened)
         end) members flattened
  | _ => obj_set flattened key v
  end.

(** [flattenObject(obj, prefix)], on the object [flattened] it fills. *)
Definition flattenObject (members : list (text * value)) (prefix : text)
           (flattened : obj value) : obj value :=
  fold_left (fun fl kv => flattenEntry (newKey prefix (fst kv)) (snd kv) fl)
            members flattened.

(** [Object.entries] of base costs that are missing throws. *)
Definition flattenBaseCosts (cfg : config) : completion config :=
  match baseCosts cfg with
  | Some members =>
      Normal {| baseCosts := baseCosts cfg; formulas := formulas cfg;
                multipliers := multipliers cfg;
                flatBaseCosts := Some (flattenObject members [] []) |}
  | None => Abrupt TypeError
  end.

(** [this.config.flatBaseCosts || {}]. *)
Definition getBaseCosts (cfg : config) : obj value :=
  match flatBaseCosts cfg with
  | Some o => o
  | None => []
  end.

Definition requiredServices : list text :=
  [txt "transport"; txt "storage"; txt "extraction"; txt "enrichment";
   txt "modeling"; txt "search"; txt "exploration"].

(** [errors.join(', ')]. *)
Fixpoint join (sep : text) (l : list text) : text :=
  match l with
  | [] => []
  | [x] => x
  | x :: l' => x ++ sep ++ join sep l'
  end.

(** The errors pushed for the three sections. *)
Definition sectionErrors (cfg : config) : list text :=
  (match baseCosts cfg with None => [txt "Missing baseCosts section"] | Some _ => [] end) ++
  (match formulas cfg with None => [txt "Missing formulas section"] | Some _ => [] end) ++
  (match multipliers cfg with None => [txt "Missing multipliers section"] | Some _ => [] end).

(** The error pushed for a required service without a formula. *)
Definition serviceErrors (fs : obj formula) (service : text) : list text :=
  match obj_get fs service with
  | Some f => if formula_truthy f then [] else [txt "Missing formula for service: " ++ service]
  | None => [txt "Missing formula for service: " ++ service]
  end.

(** Reading a service from formulas that are missing is a type error,
    which leaves the function before the errors are looked at. *)
Definition validateConfig (cfg : config) : completion bool :=
  let errors := sectionErrors cfg in
  match formulas cfg with
  | None => Abrupt TypeError
  | Some fs =>
      let errors := errors ++ flat_map (serviceErrors fs) requiredServices in
      match errors with
      | [] => Normal true
      | _ => Abrupt (Error (txt "Configuration validation failed: " ++ join (txt ", ") errors))
      end
  end.

End ConfigManager.

(** ** A reference runtime

    An executable runtime for running the engine on concrete inputs.
    - Number to string: exact for integers and for terminating decimals in
      plain notation; other values are cut after 17 decimals.
    - [Function]: the strict-mode body built by [functionBody], with
      decimal literals, unary and binary [+ - * /] and parentheses, in
      exact arithmetic.  What else the sanitized alphabet can spell
      (exponentiation, comments, regular expression literals) is outside
      this fragment and reported as a throw; literals with a leading zero
      and the operators [++] and [--] are syntax errors in strict code.
    - [Math.pow]: integer exponents, exactly; other exponents leave the
      rationals and are reported as NaN. *)

Module Reference.

Definition digits (z : Z) : text := txt (NilZero.string_of_uint (N.to_uint (Z.to_N z))).

Fixpoint pad (n : nat) (s : text) : text :=
  match n with
  | O => s
  | S n' => if List.length s <? n then pad n' ("0"%char :: s) else s
  end.

(** The least [k] up to the bound with [d] dividing [10 ^ k]. *)
Fixpoint decimals (bound : nat) (k : Z) (d : Z) : Z :=
  match bound with
  | O => k
  | S b => if (10 ^ k mod d =? 0)%Z then k else decimals b (k + 1)%Z d
  end.

Definition toString (q : Qc) : text :=
  let n := Qnum q in
  let d := Zpos (Qden q) in
  let sign := if (n <? 0)%Z then txt "-" else [] in
  if (d =? 1)%Z then sign ++ digits (Z.abs n)
  else
    let k := decimals 17 0%Z d in
    let m := (Z.abs n * 10 ^ k / d)%Z in
    sign ++ digits (m / 10 ^ k)%Z ++ txt "." ++
    pad (Z.to_nat k) (digits (m mod 10 ^ k)%Z).

Inductive token : Type :=
| TNum (q : Qc)
| TOp (c : ascii).

Definition digit_value (c : ascii) : Z := Z.of_nat (code c - 48).

Definition digits_value (ds : text) : Z :=
  fold_left (fun acc c => (10 * acc + digit_value c)%Z) ds 0%Z.

(** The value of the literal with integer part [ip] and fraction [fp]. *)
Definition literal (ip fp : text) : Qc :=
  let scale := (10 ^ Z.of_nat (List.length fp))%Z in
  Q2Qc (Qmake (digits_value ip * scale + digits_value fp) (Z.to_pos scale)).

Definition head_is (p : ascii -> bool) (s : text) : bool :=
  match s with c :: _ => p c | [] => false end.

Fixpoint lex (fuel : nat) (s : text) : option (list token) :=
  match fuel with
  | O => None
  | S fuel' =>
      match s with
      | [] => Some []
      | c :: s' =>
          if is_space c then lex fuel' s'
          else if is_digit c || (Ascii.eqb c "." && head_is is_digit s') then
            let ip := take_while is_digit s in
            let r1 := skipn (List.length ip) s in
            let fp := match r1 with
                      | dot :: r => if Ascii.eqb dot "." then take_while is_digit r else []
                      | [] => []
                      end in
            let r2 := if head_is (Ascii.eqb ".") r1
                      then skipn (S (List.length fp)) r1 else r1 in
            if head_is (Ascii.eqb "0") ip && (1 <? List.length ip) then None
            else option_map (cons (TNum (literal ip fp))) (lex fuel' r2)
          else if (Ascii.eqb c "+" || Ascii.eqb c "-" || Ascii.eqb c "*")
                  && head_is (Ascii.eqb c) s' then None
          else if Ascii.eqb c "/" && (head_is (Ascii.eqb "/") s' || head_is (Ascii.eqb "*") s')
          then None
          else if is_operator c && negb (Ascii.eqb c ".")
          then option_map (cons (TOp c)) (lex fuel' s')
          else None
      end
  end.

Definition is_op (t : token) (c : ascii) : bool :=
  match t with TOp c' => Ascii.eqb c' c | TNum _ => false end.

(** Recursive descent: sums of products of signed atoms.  The fuel bounds
    the depth of the calls; [run] supplies four units for each token. *)
Fixpoint parse_sum (fuel : nat) (ts : list token) : option (num * list token) :=
  match fuel with
  | O => None
  | S f =>
      match parse_product f ts with
      | Some (v, rest) => sum_rest f v rest
      | None => None
      end
  end
with sum_rest (fuel : nat) (acc : num) (ts : list token) : option (num * list token) :=
  match fuel with
  | O => None
  | S f =>
      match ts with
      | t :: r =>
          if is_op t "+" then
            match parse_product f r with
            | Some (v, rest) => sum_rest f (add acc v) rest
            | None => None
            end
          else if is_op t "-" then
            match parse_product f r with
            | Some (v, rest) => sum_rest f (sub acc v) rest
            | None => None
            end
          else Some (acc, ts)
      | [] => Some (acc, ts)
      end
  end
with parse_product (fuel : nat) (ts : list token) : option (num * list token) :=
  match fuel with
  | O => None
  | S f =>
      match parse_unary f ts with
      | Some (v, rest) => product_rest f v rest
      | None => None
      end
  end
with product_rest (fuel : nat) (acc : num) (ts : list token) : option (num * list token) :=
  match fuel with
  | O => None
  | S f =>
      match ts with
      | t :: r =>
          if is_op t "*" then
            match parse_unary f r with
            | Some (v, rest) => product_rest f (mul acc v) rest
            | None => None
            end
          else if is_op t "/" then
            match parse_unary f r with
            | Some (v, rest) => product_rest f (div acc v) rest
            | None => None
            end
          else Some (acc, ts)
      | [] => Some (acc, ts)
      end
  end
with parse_unary (fuel : nat) (ts : list token) : option (num * list token) :=
  match fuel with
  | O => None
  | S f =>
      match ts with
      | TNum q :: r => Some (Fin q, r)
      | TOp c :: r =>
          if Ascii.eqb c "+" then parse_unary f r
          else if Ascii.eqb c "-" then
            match parse_unary f r with
            | Some (v, rest) => Some (neg v, rest)
            | None => None
            end
          else if Ascii.eqb c "(" then
            match parse_sum f r with
            | Some (v, t :: rest) => if is_op t ")" then Some (v, rest) else None
            | _ => None
            end
          else None
      | [] => None
      end
  end.

Definition strict_return : text :=
  Eval cbv in (ascii_of_nat 34 :: txt "use strict") ++ (ascii_of_nat 34 :: txt "; return ").

Definition run (code : text) : option num :=
  if starts_with strict_return code then
    match lex (S (List.length code)) (skipn (List.length strict_return) code) with
    | Some ts =>
        match parse_sum (4 * S (List.length ts)) ts with
        | Some (v, []) => Some v
        | _ => None
        end
    | None => None
    end
  else None.

Definition pow (b e : Qc) : num :=
  if (Zpos (Qden e) =? 1)%Z then
    match Qnum e with
    | Z0 => one
    | Zpos p => Fin (b ^ Pos.to_nat p)%Qc
    | Zneg p => div one (Fin (b ^ Pos.to_nat p)%Qc)
    end
  else NaN.

Definition runtime : JSRuntime :=
  {| Number_toString := toString; Function_run := run; Math_pow := pow |}.

(** A runtime that agrees with [runtime] on strict bodies and returns
    [Infinity] for any other code. *)
Definition lenient : JSRuntime :=
  {| Number_toString := toString;
     Function_run := fun code =>
                       if starts_with strict_return code then run code else Some PInf;
     Math_pow := pow |}.

End Reference.

(** * Definitions for the statements *)

(** ** Deciding equality of results *)

(** Two results are the same number. *)
Definition same_num (a b : num) : bool :=
  match a, b with
  | NaN, NaN | PInf, PInf | NInf, NInf => true
  | Fin x, Fin y => Qceqb x y
  | _, _ => false
  end.

(** ** Expressions and names *)

(** The text has no sigil in it. *)
Definition no_sigil (s : text) : Prop := Forall (fun c => Ascii.eqb c "$" = false) s.

(** A variable name: code units of the class [\w], at least one. *)
Definition identifier (name : text) : Prop :=
  name <> [] /\ Forall (fun c => is_word c = true) name.

(** [key] is a proper prefix of [longer]. *)
Definition proper_prefix (key longer : text) : Prop :=
  exists more, more <> [] /\ longer = key ++ more.

(** A text that is empty or begins with a code unit that is neither a
    word character nor a sigil: what follows a reference that is
    delimited by an operator, a parenthesis or whitespace. *)
Definition guarded (s : text) : Prop :=
  match s with
  | [] => True
  | c :: _ => is_word c = false /\ Ascii.eqb c "$" = false
  end.

(** The value the substitution loop finds for a name: that of the first
    entry of the context with this key and a value. *)
Fixpoint boundValue (ctx : context) (name : text) : option Qc :=
  match ctx with
  | [] => None
  | (k, Some v) :: ctx' => if text_eqb k name then Some v else boundValue ctx' name
  | (_, None) :: ctx' => boundValue ctx' name
  end.

(** What a reference to [name] is after the substitution loop: the value
    of [name] as a string, or the reference itself when the context has
    no value for it. *)
Definition referenceValue {R : JSRuntime} (ctx : context) (name : text) : text :=
  match boundValue ctx name with
  | Some v => Number_toString v
  | None => "$"%char :: name
  end.

(** The pattern of [key] matches at a reference to [longer]. *)
Definition substitutes_inside (key longer : text) : Prop :=
  exists rest, matches_here ("$"%char :: key) ("$"%char :: longer ++ rest) = true.

(** ** Multiplier formulas, as the specification words them *)

(** The value the specification gives to a multiplier variable: the context
    value, 1 when it is absent. *)
Definition multiplierValue_spec (ctx : context) (m : multiplierEntry) : Qc :=
  match obj_get ctx (variable m) with
  | Some (Some q) => q
  | _ => 1%Qc
  end.

(** What an entry contributes according to the specification:
    [factor ^ (v - 1)] when [v > 1], and 1 otherwise. *)
Definition contribution_spec {R : JSRuntime} (ctx : context) (m : multiplierEntry) : num :=
  let v := multiplierValue_spec ctx m in
  if Qcltb 1 v then Math_pow (factor m) (v - 1)%Qc else one.

(** The product of the contributions, taken in the order of the entries. *)
Definition multiplierProduct_spec {R : JSRuntime} (ctx : context) (ms : list multiplierEntry) : num :=
  fold_left mul (map (contribution_spec ctx) ms) one.

(** [isNaN(result) ? 0 : result]. *)
Definition clampNaN (r : num) : num := if isNaN r then zero else r.

(** The entry [{variable: name, factor: f}]. *)
Definition scale_by (name : string) (f : Q) : multiplierEntry :=
  {| variable := txt name; factor := dec f |}.

(** ** Tiered formulas *)

(** The limit of a tier, for the tiers that have one. *)
Definition limitValue (t : tier) : Qc :=
  match limit t with Some l => l | None => 0%Qc end.

(** The sum of the limits of a list of tiers. *)
Fixpoint limitsSum (ts : list tier) : Qc :=
  match ts with
  | [] => 0%Qc
  | t :: ts' => (limitValue t + limitsSum ts')%Qc
  end.

(** The sum, over a list of tiers, of each tier's limit times its rate. *)
Definition fullTiersCost {R : JSRuntime} (ctx : context) (ts : list tier) : num :=
  fold_left (fun c t => add c (mul (Fin (limitValue t)) (tierRateValue (rate t) ctx)))
            ts zero.

(** The tier has a limit, and it is positive. *)
Definition positive_limit (t : tier) : Prop :=
  exists l, limit t = Some l /\ (0 < l)%Qc.

(** The limit of the tier is absent or not negative. *)
Definition nonnegative_limit (t : tier) : Prop :=
  match limit t with Some l => (0 <= l)%Qc | None => True end.

(** The rate of the tier has the same finite, non-negative value in both
    contexts. *)
Definition steady_rate {R : JSRuntime} (ctx1 ctx2 : context) (t : tier) : Prop :=
  exists r, tierRateValue (rate t) ctx1 = Fin r /\
            tierRateValue (rate t) ctx2 = Fin r /\ (0 <= r)%Qc.

(** The tier [{limit: l, rate: r}] with a numeric rate. *)
Definition flat (l : option Qc) (r : Q) : tier :=
  {| limit := l; rate := RateNumber (dec r) |}.

(** The whole number [z] as a number of the engine. *)
Definition whole (z : Z) : Qc := Q2Qc (inject_Z z).

(** The largest whole number up to which every whole number is a binary64
    number: 2^53. *)
Definition maxWhole : Z := 9007199254740992.

(** The subtraction is exact on whole numbers from 0 to 2^53, as the
    binary64 subtraction is: the difference of two of them is one of them
    and needs no rounding. *)
Definition exactOnWholes (minus : Qc -> Qc -> Qc) : Prop :=
  forall a b : Z, (0 <= b <= a)%Z -> (a <= maxWhole)%Z ->
                  minus (whole a) (whole b) = whole (a - b).

(** The subtraction does not decrease when its first argument grows, as a
    correctly rounded subtraction does not. *)
Definition monotoneMinus (minus : Qc -> Qc -> Qc) : Prop :=
  forall a a' b : Qc, (a <= a')%Qc -> (minus a b <= minus a' b)%Qc.

(** The tier has a limit that is a positive whole number. *)
Definition wholeLimit (t : tier) : Prop :=
  exists z : Z, (0 < z)%Z /\ limit t = Some (whole z).

(** The sum, taken in the order of the tiers, of each tier's limit times
    its rate, with the addition and multiplication of the runtime. *)
Definition fullTiersCostWith {R : JSRuntime} (plus times : num -> num -> num)
           (ctx : context) (ts : list tier) : num :=
  fold_left (fun c t => plus c (times (Fin (limitValue t)) (tierRateValue (rate t) ctx)))
            ts zero.

(** ** Conditional formulas *)

(** The condition [{variable: name, operator: op, value: v}]. *)
Definition when (name op : string) (v : Q) : condition :=
  {| cond_variable := txt name; operator := txt op; value := dec v |}.

(** The condition of the entry does not hold in the context. *)
Definition fails {R : JSRuntime} (ctx : context) (ct : condition * formula) : Prop :=
  evaluateCondition (fst ct) ctx = false.

(** ** Service support *)

(** The text [sub] occurs in the text [s]. *)
Definition occursIn (sub s : text) : Prop :=
  exists pre post, s = pre ++ sub ++ post.

(** A name as the pattern of [getRequiredVariables] captures it: a letter
    or an underscore, then letters, digits and underscores. *)
Definition variableName (name : text) : Prop :=
  match name with
  | c :: rest => is_ident_start c = true /\ Forall (fun d => is_word d = true) rest
  | [] => False
  end.

(** The string refers to the variable [name]: it holds the sigil and the
    name, and the name ends there. *)
Definition refersTo (s name : text) : Prop :=
  variableName name /\
  exists pre post,
    s = pre ++ "$"%char :: name ++ post /\
    match post with
    | c :: _ => is_word c = false
    | [] => True
    end.

(** The strings a formula holds, at any depth: the formula itself when it
    is a string; the discriminator, the volume variable and the rates of a
    tiered formula; the discriminator, the strings of the base and the
    variables of a multiplier formula; the discriminator, the variables and
    operators of the conditions and the strings of the clauses of a
    conditional formula; the strings of the members of any other object. *)
Inductive holdsString : formula -> text -> Prop :=
| holds_itself (s : text) : holdsString (FStr s) s
| holds_tiered (v : text) (ts : list tier) : holdsString (FTiered v ts) (txt "tiered")
| holds_volumeVar (v : text) (ts : list tier) : holdsString (FTiered v ts) v
| holds_rate (v : text) (ts : list tier) (t : tier) (s : text) :
    In t ts -> rate t = RateExpression s -> holdsString (FTiered v ts) s
| holds_multiplier (base : formula) (ms : list multiplierEntry) :
    holdsString (FMultiplier base ms) (txt "multiplier")
| holds_base (base : formula) (ms : list multiplierEntry) (s : text) :
    holdsString base s -> holdsString (FMultiplier base ms) s
| holds_variable (base : formula) (ms : list multiplierEntry) (m : multiplierEntry) :
    In m ms -> holdsString (FMultiplier base ms) (variable m)
| holds_conditional (conds : list (condition * formula)) (els : formula) :
    holdsString (FConditional conds els) (txt "conditional")
| holds_condition_variable (conds : list (condition * formula)) (els : formula)
                           (c : condition) (thn : formula) :
    In (c, thn) conds -> holdsString (FConditional conds els) (cond_variable c)
| holds_operator (conds : list (condition * formula)) (els : formula)
                 (c : condition) (thn : formula) :
    In (c, thn) conds -> holdsString (FConditional conds els) (operator c)
| holds_then (conds : list (condition * formula)) (els : formula)
             (c : condition) (thn : formula) (s : text) :
    In (c, thn) conds -> holdsString thn s -> holdsString (FConditional conds els) s
| holds_else (conds : list (condition * formula)) (els : formula) (s : text) :
    holdsString els s -> holdsString (FConditional conds els) s
| holds_member (members : list (text * formula)) (k : text) (v : formula) (s : text) :
    In (k, v) members -> holdsString v s -> holdsString (FObject members) s.

(** The name is that of a cost variable: [_per_], [_cost], [_price] or
    [_base] occurs in it. *)
Definition costRelated (name : text) : Prop :=
  occursIn (txt "_per_") name \/ occursIn (txt "_cost") name \/
  occursIn (txt "_price") name \/ occursIn (txt "_base") name.

(** The formula requires the cost variable [name]: one of its strings
    refers to it. *)
Definition requires (f : formula) (name : text) : Prop :=
  costRelated name /\ exists s, holdsString f s /\ refersTo s name.

(** ** The loop over the services *)

(** The cost of a service that passes the support check and evaluates
    without throwing. *)
Definition evaluatedCost {R : JSRuntime} (eng : engine) (serviceParameters : obj context)
           (serviceType : text) : option num :=
  if checkServiceSupport eng serviceType (currentSystemCosts eng) then
    match calculateServiceCost eng serviceType (parametersFor serviceParameters serviceType) with
    | Returns c => Some c
    | Throws _ => None
    end
  else None.

(** What the services map records for a service: null when it is
    unsupported, its cost when it evaluates, 0 when evaluating throws. *)
Definition serviceEntry {R : JSRuntime} (eng : engine) (serviceParameters : obj context)
           (serviceType : text) : option num :=
  if checkServiceSupport eng serviceType (currentSystemCosts eng) then
    match calculateServiceCost eng serviceType (parametersFor serviceParameters serviceType) with
    | Returns c => Some c
    | Throws _ => Some zero
    end
  else None.

(** The loop state of [calculateTotalCost] after the round for one
    service. *)
Definition afterService {R : JSRuntime} (eng : engine) (serviceParameters : obj context)
           (serviceType : text) (st : totals) : totals :=
  {| costs := obj_set (costs st) serviceType (serviceEntry eng serviceParameters serviceType);
     supported := supported st ++
                  match evaluatedCost eng serviceParameters serviceType with
                  | Some _ => [serviceType]
                  | None => []
                  end;
     unsupported := unsupported st ++
                    if checkServiceSupport eng serviceType (currentSystemCosts eng)
                    then [] else [serviceType];
     running := match evaluatedCost eng serviceParameters serviceType with
                | Some c => if isNaN c then running st else add (running st) c
                | None => running st
                end |}.

(** The sum of the costs that are not NaN, over the services that
    evaluate. *)
Definition totalOfEvaluated {R : JSRuntime} (eng : engine) (serviceParameters : obj context)
           (keys : list text) : num :=
  fold_left (fun t s => match evaluatedCost eng serviceParameters s with
                        | Some c => if isNaN c then t else add t c
                        | None => t
                        end) keys zero.

(** The loop state before the first service. *)
Definition emptyTotals : totals :=
  {| costs := []; supported := []; unsupported := []; running := zero |}.

(** The loop state after the rounds for a list of services. *)
Definition loopFrom {R : JSRuntime} (eng : engine) (serviceParameters : obj context)
           (keys : list text) (st : totals) : totals :=
  fold_left (fun st s => afterService eng serviceParameters s st) keys st.

(** What the earlier engine records for a service: its cost, or 0 when
    evaluating throws. *)
Definition legacyEntry {R : JSRuntime} (eng : engine) (serviceParameters : obj context)
           (serviceType : text) : num :=
  match Legacy.calculateServiceCost eng serviceType
          (parametersFor serviceParameters serviceType) with
  | Returns c => c
  | Throws _ => zero
  end.

(** The loop state of the earlier engine after the round for one
    service. *)
Definition legacyAfter {R : JSRuntime} (eng : engine) (serviceParameters : obj context)
           (serviceType : text) (st : Legacy.totals) : Legacy.totals :=
  {| Legacy.costs := obj_set (Legacy.costs st) serviceType
                             (legacyEntry eng serviceParameters serviceType);
     Legacy.running :=
       match Legacy.calculateServiceCost eng serviceType
               (parametersFor serviceParameters serviceType) with
       | Returns c => if isNaN c then Legacy.running st else add (Legacy.running st) c
       | Throws _ => Legacy.running st
       end |}.

(** ** Combined results *)



(** The sum of a list of numbers, from the left. *)
Definition sum (l : list num) : num := fold_left add l zero.

(** The number is neither NaN nor infinite. *)
Definition finite (c : num) : Prop := exists q, c = Fin q.


(** The result of a system that supports one service, at cost [c], and
    has the total [t]. *)
Definition priced (id name : string) (c : num) (t : num) : systemResult :=
  {| systemId := txt id;
     result := {| services := [(txt name, Some c)]; total := t; breakdown := [];
                  supportedServices := [txt name]; unsupportedServices := [] |} |}.

(** ** Notions for the further properties *)

(** The discriminators of the typed formulas. *)
Definition formulaTypes : list text :=
  [txt "tiered"; txt "multiplier"; txt "conditional"].

(** The members are those of an object that [evaluateComplexFormula]
    sums: its [type], if it has one, is none of the discriminators. *)
Definition untyped (members : list (text * formula)) : bool :=
  match obj_get members (txt "type") with
  | Some (FStr t) => negb (set_has formulaTypes t)
  | _ => true
  end.

(** Every multiplier formula in the formula has a string as its base, and
    every object that is summed is untyped. *)
Fixpoint wellFormed (f : formula) : bool :=
  match f with
  | FMultiplier (FStr _) _ => true
  | FMultiplier _ _ => false
  | FConditional conds els =>
      forallb (fun ct => wellFormed (snd ct)) conds && wellFormed els
  | FObject members =>
      untyped members && forallb (fun kv => wellFormed (snd kv)) members
  | _ => true
  end.

(** The loop of [evaluateComplexFormula] over the values of an object
    without a known type, from the running total [acc]. *)
Fixpoint sumMembers {R : JSRuntime} (ctx : context) (members : list (text * formula))
         (acc : num) : outcome num :=
  match members with
  | [] => Returns acc
  | (_, v) :: members' =>
      bind (evaluateFormula v ctx) (fun x => sumMembers ctx members' (add acc x))
  end.

(** The condition with another operator. *)
Definition withOperator (c : condition) (op : string) : condition :=
  {| cond_variable := cond_variable c; operator := txt op; value := value c |}.

(** The six operators [evaluateCondition] knows. *)
Definition operators : list text :=
  [txt ">"; txt ">="; txt "<"; txt "<="; txt "=="; txt "!="].

(** ** Breakdowns *)

(** The services of a services map that have a cost, with their costs:
    the entries that are not null. *)
Definition pricedEntries (costs : obj (option num)) : list (text * num) :=
  flat_map (fun kv => match snd kv with
                      | Some c => [(fst kv, c)]
                      | None => []
                      end) costs.

(** Both numbers are finite and the first is not smaller than the
    second. *)
Definition at_least (a b : num) : Prop :=
  exists x y, a = Fin x /\ b = Fin y /\ (y <= x)%Qc.

(** A breakdown in the order of descending finite costs. *)
Definition descending (l : list breakdownEntry) : Prop :=
  StronglySorted (fun a b => at_least (cost a) (cost b)) l.

(** The sum of a list of rationals. *)
Fixpoint Qcsum (l : list Qc) : Qc :=
  match l with
  | [] => 0%Qc
  | q :: l' => (q + Qcsum l')%Qc
  end.

(** The entry of a breakdown for a service with the cost [c], when the
    costs sum up to [total]. *)
Definition shareOf (total : num) (sc : text * num) : breakdownEntry :=
  {| service := fst sc; cost := snd sc;
     percentage := if gtb total zero then mul (div (snd sc) total) hundred else zero |}.

(** ** The lists of a result *)

(** The service passes the support check and evaluates without
    throwing. *)
Definition evaluates {R : JSRuntime} (eng : engine) (serviceParameters : obj context)
           (serviceType : text) : bool :=
  match evaluatedCost eng serviceParameters serviceType with
  | Some _ => true
  | None => false
  end.

(** The service fails the support check of the engine's current
    system. *)
Definition lacksSupport (eng : engine) (serviceType : text) : bool :=
  negb (checkServiceSupport eng serviceType (currentSystemCosts eng)).

(** The engine as [calculateMultiSystemCosts] sets it up for a system. *)
Definition engineFor (eng : engine) (id : text) : engine :=
  setSystemCosts eng id (componentsOf eng id).

(** The number is finite and not negative. *)
Definition nonnegative (c : num) : Prop := exists q, c = Fin q /\ (0 <= q)%Qc.

(** The total of the result is the sum of the costs in its services map,
    and these are finite and not negative. *)
Definition consistent (r : systemResult) : Prop :=
  Forall (fun sc => nonnegative (snd sc)) (pricedEntries (services (result r))) /\
  total (result r) = sum (map snd (pricedEntries (services (result r)))).

(** The rational a finite number stands for. *)
Definition Qcvalue (c : num) : Qc :=
  match c with Fin q => q | _ => 0%Qc end.

(** The entries [flattenObject] stores, in the order in which it stores
    them: every value that is not an object to flatten, under the names
    on its path joined by underscores. *)
Fixpoint leavesOf (key : text) (v : ConfigManager.value) {struct v}
  : list (text * ConfigManager.value) :=
  match v with
  | ConfigManager.VObject members =>
      (fix leaves (ms : list (text * ConfigManager.value)) : list (text * ConfigManager.value) :=
         match ms with
         | [] => []
         | (k, v') :: ms' => leavesOf (ConfigManager.newKey key k) v' ++ leaves ms'
         end) members
  | _ => [(key, v)]
  end.

Definition leaves (members : list (text * ConfigManager.value)) (prefix : text)
  : list (text * ConfigManager.value) :=
  flat_map (fun kv => leavesOf (ConfigManager.newKey prefix (fst kv)) (snd kv)) members.

(** The value is not an object to flatten. *)
Definition kept (v : ConfigManager.value) : bool :=
  match v with ConfigManager.VObject _ => false | _ => true end.

(** A configuration of base costs without nesting and with distinct keys. *)
Definition flatCosts (members : list (text * ConfigManager.value)) : Prop :=
  NoDup (obj_keys members) /\ Forall (fun kv => kept (snd kv) = true) members.


(** The sum of the values of an object of finite numbers. *)
(** The service has a formula that is not falsy. *)
Definition hasFormula (fs : obj formula) (service : text) : bool :=
  match obj_get fs service with
  | Some f => formula_truthy f
  | None => false
  end.

Definition objSum (o : obj num) : Qc := Qcsum (map (fun kv => Qcvalue (snd kv)) o).

(** An expression as a text without a sigil followed by references, each
    with the text that follows it up to the next reference. *)
Definition expressionOf (w : text) (refs : list (text * text)) : text :=
  w ++ flat_map (fun np => "$"%char :: fst np ++ snd np) refs.

(** What a reference to [name] reads in a context: the value bound to the
    name, as a string, and 0 when there is none. *)
Definition readValue {R : JSRuntime} (ctx : context) (name : text) : text :=
  match boundValue ctx name with
  | Some v => Number_toString v
  | None => txt "0"
  end.

(** The expression with every reference replaced by what it reads. *)
Definition substituted {R : JSRuntime} (ctx : context) (w : text)
           (refs : list (text * text)) : text :=
  w ++ flat_map (fun np => readValue ctx (fst np) ++ snd np) refs.

(** The references are identifiers and each is delimited: the text behind
    it has no sigil and begins with a code unit that is not of the class
    [\w]; only behind the last reference the text may be empty. *)
Fixpoint delimited (refs : list (text * text)) : Prop :=
  match refs with
  | [] => True
  | (name, post) :: rest =>
      identifier name /\ no_sigil post /\ guarded post /\
      (post = [] -> rest = []) /\ delimited rest
  end.

(** The references after the substitution loop and after the names in
    [done] have been set to 0. *)
Definition partly {R : JSRuntime} (done : list text) (ctx : context)
           (refs : list (text * text)) : text :=
  flat_map (fun np => match boundValue ctx (fst np) with
                      | Some v => Number_toString v
                      | None => if set_has done (fst np) then txt "0"
                                else "$"%char :: fst np
                      end ++ snd np) refs.

(** The names of the references without a value, in their order. *)
Definition unbound (ctx : context) (refs : list (text * text)) : list text :=
  map fst (filter (fun np => match boundValue ctx (fst np) with
                             | Some _ => false
                             | None => true
                             end) refs).

(** * Properties *)

(** ** Numbers and text: basic facts *)

Lemma Qcltb_lt (x y : Qc) : Qcltb x y = true <-> (x < y)%Qc.
Proof.
  unfold Qcltb. rewrite Qclt_alt.
  destruct (x ?= y)%Qc; split; congruence.
Qed.

Lemma Qcleb_le (x y : Qc) : Qcleb x y = true <-> (x <= y)%Qc.
Proof.
  unfold Qcleb. rewrite Qcle_alt.
  destruct (x ?= y)%Qc; split; congruence.
Qed.

Lemma Qceqb_eq (x y : Qc) : Qceqb x y = true <-> x = y.
Proof.
  unfold Qceqb. rewrite Qceq_alt.
  destruct (x ?= y)%Qc; split; congruence.
Qed.

Lemma Qcltb_ge (x y : Qc) : Qcltb x y = false <-> (y <= x)%Qc.
Proof.
  split; intro H.
  - apply Qcnot_lt_le. intro L. apply Qcltb_lt in L. congruence.
  - destruct (Qcltb x y) eqn:E; [|reflexivity].
    apply Qcltb_lt in E. exfalso. exact (Qcle_not_lt _ _ H E).
Qed.

Lemma Qcleb_gt (x y : Qc) : Qcleb x y = false <-> (y < x)%Qc.
Proof.
  split; intro H.
  - apply Qcnot_le_lt. intro L. apply Qcleb_le in L. congruence.
  - destruct (Qcleb x y) eqn:E; [|reflexivity].
    apply Qcleb_le in E. exfalso. exact (Qclt_not_le _ _ H E).
Qed.

Lemma same_num_eq (a b : num) : same_num a b = true -> a = b.
Proof.
  destruct a, b; simpl; try congruence.
  intro H. apply Qceqb_eq in H. now subst.
Qed.

Ltac by_computation := apply same_num_eq; vm_compute; reflexivity.

Lemma text_eqb_eq (a b : text) : text_eqb a b = true <-> a = b.
Proof.
  revert b. induction a as [|x a IH]; intros [|y b]; simpl; split; try congruence.
  - intro H. apply andb_true_iff in H. destruct H as [H1 H2].
    apply Ascii.eqb_eq in H1. apply IH in H2. now subst.
  - intro H. injection H as -> ->. rewrite Ascii.eqb_refl. simpl. now apply IH.
Qed.

Lemma text_eqb_refl (a : text) : text_eqb a a = true.
Proof. now apply text_eqb_eq. Qed.

Lemma text_eqb_neq (a b : text) : text_eqb a b = false <-> a <> b.
Proof.
  split.
  - intros H E. apply text_eqb_eq in E. congruence.
  - intro H. destruct (text_eqb a b) eqn:E; [|reflexivity].
    apply text_eqb_eq in E. contradiction.
Qed.

Lemma mul_one_r (a : num) : mul a one = a.
Proof.
  destruct a; try reflexivity.
  simpl. now rewrite Qcmult_1_r.
Qed.

(** ** Substitution leaves text without a sigil alone *)

Lemma replace_from_no_sigil (key repl s : text) :
  no_sigil s -> replace_from ("$"%char :: key) repl 0 s = s.
Proof.
  induction 1 as [|c s Hc Hs IH]; [reflexivity|].
  cbn [replace_from]. unfold matches_here. cbn [starts_with].
  rewrite (Ascii.eqb_sym "$" c), Hc. cbn [andb]. now rewrite IH.
Qed.

Lemma scan_from_no_sigil (start : ascii -> bool) (s : text) :
  no_sigil s -> scan_from start 0 s = [].
Proof.
  induction 1 as [|c s Hc Hs IH]; [reflexivity|].
  cbn [scan_from]. rewrite Hc. cbn [andb]. exact IH.
Qed.

Section ExpressionFacts.

Context {runtime : JSRuntime}.

Lemma substituteContext_no_sigil (e : text) (ctx : context) :
  no_sigil e -> substituteContext e ctx = e.
Proof.
  intro H. unfold substituteContext. induction ctx as [|[k [v|]] ctx IH]; simpl.
  - reflexivity.
  - unfold replaceVariable. now rewrite replace_from_no_sigil.
  - exact IH.
Qed.

Lemma processedExpression_no_sigil (e : text) (ctx : context) :
  no_sigil e -> processedExpression e ctx = e.
Proof.
  intro H. unfold processedExpression. rewrite substituteContext_no_sigil by assumption.
  unfold zeroUnreplaced, unreplacedVariables.
  now rewrite scan_from_no_sigil.
Qed.

Lemma safeExpression_math (e : text) (ctx : context) :
  Forall (fun c => is_math_char c = true) (safeExpression e ctx).
Proof.
  apply Forall_forall. intros c Hc.
  unfold safeExpression, sanitize in Hc. now apply filter_In in Hc.
Qed.

End ExpressionFacts.

Lemma substituteContext_runtime (R1 R2 : JSRuntime) (e : text) (ctx : context) :
  (forall q, @Number_toString R1 q = @Number_toString R2 q) ->
  @substituteContext R1 e ctx = @substituteContext R2 e ctx.
Proof.
  intro H. unfold substituteContext. revert e.
  induction ctx as [|[k [v|]] ctx IH]; intro e; simpl.
  - reflexivity.
  - rewrite H. apply IH.
  - apply IH.
Qed.

(** C1. The text handed to the runtime is the processed expression with
    every code unit outside digits, [+ - * / ( ) .] and whitespace removed;
    the result depends on nothing but that text, and on the runtime only
    through what it evaluates for sanitized text.  For
    ["ignore(); return 1+1"] and any context the sanitized text is
    ["()  1+1"]; the result is 0 or what the runtime returns for it, and 0
    with the reference runtime. *)
Theorem evaluateExpression_sanitized :
  (forall c : ascii,
      is_math_char c = true <->
      is_digit c = true \/ In c (txt "+-*/().") \/ is_space c = true) /\
  (forall (R : JSRuntime) (e : text) (ctx : context),
      safeExpression e ctx = filter is_math_char (processedExpression e ctx) /\
      Forall (fun c => is_math_char c = true) (safeExpression e ctx)) /\
  (forall (R : JSRuntime) (e1 e2 : text) (ctx1 ctx2 : context),
      safeExpression e1 ctx1 = safeExpression e2 ctx2 ->
      evaluateExpression e1 ctx1 = evaluateExpression e2 ctx2) /\
  (forall (R1 R2 : JSRuntime) (e : text) (ctx : context),
      (forall q, @Number_toString R1 q = @Number_toString R2 q) ->
      (forall s, Forall (fun c => is_math_char c = true) s ->
                 @Function_run R1 (functionBody s) = @Function_run R2 (functionBody s)) ->
      @evaluateExpression R1 e ctx = @evaluateExpression R2 e ctx) /\
  (forall (R : JSRuntime) (ctx : context),
      safeExpression (txt "ignore(); return 1+1") ctx = txt "()  1+1" /\
      (evaluateExpression (txt "ignore(); return 1+1") ctx = zero \/
       Function_run (functionBody (txt "()  1+1"))
       = Some (evaluateExpression (txt "ignore(); return 1+1") ctx))) /\
  @evaluateExpression Reference.runtime (txt "ignore(); return 1+1") [] = zero.
Proof.
  split; [|split; [|split; [|split; [|split]]]].
  - intro c. unfold is_math_char, is_operator.
    rewrite !orb_true_iff, existsb_exists. split.
    + intros [[H|(x & Hx & E)]|H]; auto.
      apply Ascii.eqb_eq in E. subst. auto.
    + intros [H|[H|H]]; auto.
      left. right. exists c. split; [assumption|apply Ascii.eqb_refl].
  - intros R e ctx. split; [reflexivity|apply safeExpression_math].
  - intros R e1 e2 ctx1 ctx2 H. unfold evaluateExpression. now rewrite H.
  - intros R1 R2 e ctx Hs Hf. unfold evaluateExpression.
    assert (E : @safeExpression R1 e ctx = @safeExpression R2 e ctx).
    { unfold safeExpression, processedExpression.
      now rewrite (substituteContext_runtime R1 R2 e ctx Hs). }
    rewrite E. destruct (blank _); [reflexivity|].
    rewrite Hf by apply safeExpression_math. reflexivity.
  - intros R ctx.
    assert (E : safeExpression (txt "ignore(); return 1+1") ctx = txt "()  1+1").
    { unfold safeExpression. rewrite processedExpression_no_sigil; [reflexivity|].
      unfold no_sigil. repeat constructor. }
    split; [exact E|].
    unfold evaluateExpression. rewrite E.
    change (blank (txt "()  1+1")) with false. cbv iota.
    destruct (Function_run _) as [r|]; [|now left].
    destruct r; simpl; auto.
  - by_computation.
Qed.

Lemma functionBody_strict (s : text) :
  starts_with Reference.strict_return (functionBody s) = true.
Proof. reflexivity. Qed.

(** A witness for C1: ["2*3"] has the same value with the reference
    runtime and with one that differs from it on code that is not a strict
    body, and the same value as ["x2y*z3"], whose sanitized text is the
    same. *)
Lemma evaluateExpression_sanitized_witness :
  @evaluateExpression Reference.runtime (txt "2*3") []
  = @evaluateExpression Reference.lenient (txt "2*3") [] /\
  @evaluateExpression Reference.runtime (txt "2*3") []
  = @evaluateExpression Reference.runtime (txt "x2y*z3") [].
Proof.
  destruct evaluateExpression_sanitized as (_ & _ & H2 & H3 & _).
  split.
  - apply (H3 Reference.runtime Reference.lenient (txt "2*3") []).
    + intro q. reflexivity.
    + intros s _.
      change (Reference.run (functionBody s)
              = if starts_with Reference.strict_return (functionBody s)
                then Reference.run (functionBody s) else Some PInf).
      now rewrite functionBody_strict.
  - apply (H2 Reference.runtime). vm_compute. reflexivity.
Defined.

(** ** The value of an expression *)

(** C4, as stated, fails: the sanitized text ["1/0"] evaluates to
    [Infinity], which is not NaN, and [Infinity] is what
    evaluateExpression returns. *)
Lemma evaluateExpression_keeps_infinity :
  @Function_run Reference.runtime
     (functionBody (@safeExpression Reference.runtime (txt "1/0") [])) = Some PInf /\
  @evaluateExpression Reference.runtime (txt "1/0") [] = PInf /\
  PInf <> zero.
Proof.
  split; [reflexivity|]. split; [by_computation|discriminate].
Qed.

(** C4, amended.  evaluateExpression returns 0 when the sanitized text is
    empty or whitespace only, when evaluating it throws, and when the
    evaluation yields NaN; in every other case it returns the value of the
    sanitized text as it is, the two infinities included. *)
Theorem evaluateExpression_result :
  forall (R : JSRuntime) (e : text) (ctx : context),
    let safe := safeExpression e ctx in
    (blank safe = true <-> Forall (fun c => is_space c = true) safe) /\
    (blank safe = true -> evaluateExpression e ctx = zero) /\
    (blank safe = false -> Function_run (functionBody safe) = None ->
     evaluateExpression e ctx = zero) /\
    (blank safe = false -> Function_run (functionBody safe) = Some NaN ->
     evaluateExpression e ctx = zero) /\
    (forall v, blank safe = false -> Function_run (functionBody safe) = Some v ->
               v <> NaN -> evaluateExpression e ctx = v).
Proof.
  intros R e ctx safe. unfold evaluateExpression. fold safe.
  split; [|split; [|split; [|split]]].
  - unfold blank. rewrite forallb_forall, Forall_forall. reflexivity.
  - intros ->. reflexivity.
  - intros -> ->. reflexivity.
  - intros -> ->. reflexivity.
  - intros v -> -> Hv. destruct v; try reflexivity. congruence.
Qed.

(** A witness for C4: blank text, text that throws, text with the value
    NaN, and text with the value [Infinity]. *)
Lemma evaluateExpression_result_witness :
  @evaluateExpression Reference.runtime (txt " abc ") [] = zero /\
  @evaluateExpression Reference.runtime (txt "1+") [] = zero /\
  @evaluateExpression Reference.runtime (txt "0/0") [] = zero /\
  @evaluateExpression Reference.runtime (txt "1/0") [] = PInf.
Proof.
  split; [|split; [|split]].
  - destruct (evaluateExpression_result Reference.runtime (txt " abc ") [])
      as (_ & H & _).
    apply H. reflexivity.
  - destruct (evaluateExpression_result Reference.runtime (txt "1+") [])
      as (_ & _ & H & _).
    apply H; reflexivity.
  - destruct (evaluateExpression_result Reference.runtime (txt "0/0") [])
      as (_ & _ & _ & H & _).
    apply H; reflexivity.
  - destruct (evaluateExpression_result Reference.runtime (txt "1/0") [])
      as (_ & _ & _ & _ & H).
    apply H; [reflexivity|reflexivity|discriminate].
Defined.

(** ** Multiplier formulas *)

Lemma multiplierStep_contribution {R : JSRuntime} (ctx : context) (acc : num) (m : multiplierEntry) :
  multiplierStep ctx acc m = mul acc (contribution_spec ctx m).
Proof.
  unfold multiplierStep, contribution_spec, multiplierValue_spec, ctx_or.
  destruct (obj_get ctx (variable m)) as [[q|]|].
  - destruct (Qceqb q 0) eqn:E.
    + apply Qceqb_eq in E. subst q.
      change (Qcltb 1 1) with false. change (Qcltb 1 0) with false.
      now rewrite mul_one_r.
    + destruct (Qcltb 1 q); [reflexivity|now rewrite mul_one_r].
  - change (Qcltb 1 1) with false. cbv iota. now rewrite mul_one_r.
  - change (Qcltb 1 1) with false. cbv iota. now rewrite mul_one_r.
Qed.

Lemma multiplierLoop_product {R : JSRuntime} (ctx : context) (ms : list multiplierEntry) (acc : num) :
  fold_left (multiplierStep ctx) ms acc
  = fold_left mul (map (contribution_spec ctx) ms) acc.
Proof.
  revert acc. induction ms as [|m ms IH]; intro acc; simpl; [reflexivity|].
  now rewrite multiplierStep_contribution, IH.
Qed.

Lemma evaluateMultiplierFormula_spec {R : JSRuntime} (base : text)
      (ms : list multiplierEntry) (ctx : context) :
  evaluateFormula (FMultiplier (FStr base) ms) ctx
  = Returns (clampNaN (mul (evaluateExpression base ctx) (multiplierProduct_spec ctx ms))).
Proof.
  cbn [evaluateFormula]. unfold evaluateMultiplierFormula, multiplierProduct_spec, clampNaN.
  now rewrite multiplierLoop_product.
Qed.

(** C2, as stated, fails: with base ["1/0"], factor 0 and context value 2
    the base times the product of the contributions is NaN, and the
    formula returns 0. *)
Lemma multiplier_product_NaN_returns_zero :
  let ctx := [(txt "n", Some (dec 2))] in
  let ms := [scale_by "n" 0] in
  mul (@evaluateExpression Reference.runtime (txt "1/0") ctx)
      (@multiplierProduct_spec Reference.runtime ctx ms) = NaN /\
  @evaluateFormula Reference.runtime (FMultiplier (FStr (txt "1/0")) ms) ctx
  = Returns zero /\
  Returns zero <> Returns NaN.
Proof.
  intros ctx ms. split; [|split].
  - reflexivity.
  - rewrite evaluateMultiplierFormula_spec. apply f_equal. by_computation.
  - discriminate.
Qed.

(** C2, amended.  A multiplier formula returns the evaluated base times the
    product, over the entries, of [factor ^ (v - 1)] for [v] the context
    value of the entry's variable (1 when absent) whenever [v > 1] and of 1
    otherwise, and returns 0 in place of that product when it is NaN.  So a
    value of 1 contributes 1, a value of 2 the factor once, a value of 3
    the factor squared; base 100 with one factor 1.5 at value 3 gives
    225. *)
Theorem evaluateMultiplierFormula_product :
  (forall (R : JSRuntime) (base : text) (ms : list multiplierEntry) (ctx : context),
      let r := mul (evaluateExpression base ctx) (multiplierProduct_spec ctx ms) in
      evaluateFormula (FMultiplier (FStr base) ms) ctx
      = Returns (if isNaN r then zero else r)) /\
  (forall (R : JSRuntime) (ctx : context) (m : multiplierEntry) (v : Qc),
      obj_get ctx (variable m) = Some (Some v) ->
      (v <= 1 -> contribution_spec ctx m = one) /\
      (v = dec 2 -> contribution_spec ctx m = Math_pow (factor m) 1) /\
      (v = dec 3 -> contribution_spec ctx m = Math_pow (factor m) (dec 2)))%Qc /\
  (forall (R : JSRuntime) (ctx : context) (m : multiplierEntry),
      obj_get ctx (variable m) = None -> contribution_spec ctx m = one) /\
  @evaluateFormula Reference.runtime
     (FMultiplier (FStr (txt "100")) [scale_by "level" 1.5])
     [(txt "level", Some (dec 3))]
  = Returns (Fin (dec 225)).
Proof.
  split; [|split; [|split]].
  - intros. apply evaluateMultiplierFormula_spec.
  - intros R ctx m v Hv. unfold contribution_spec, multiplierValue_spec. rewrite Hv.
    split; [|split].
    + intro Hle. apply Qcltb_ge in Hle. now rewrite Hle.
    + intros ->. reflexivity.
    + intros ->. reflexivity.
  - intros R ctx m Hv. unfold contribution_spec, multiplierValue_spec. now rewrite Hv.
  - rewrite evaluateMultiplierFormula_spec. apply f_equal. by_computation.
Qed.

(** A witness for C2: the factor 1.5 at the context values 1, 2 and 3 and
    without a context value. *)
Lemma evaluateMultiplierFormula_product_witness :
  @contribution_spec Reference.runtime [(txt "level", Some (dec 1))] (scale_by "level" 1.5)
  = one /\
  @contribution_spec Reference.runtime [(txt "level", Some (dec 2))] (scale_by "level" 1.5)
  = Fin (dec 1.5) /\
  @contribution_spec Reference.runtime [(txt "level", Some (dec 3))] (scale_by "level" 1.5)
  = Fin (dec 2.25) /\
  @contribution_spec Reference.runtime [] (scale_by "level" 1.5) = one.
Proof.
  destruct evaluateMultiplierFormula_product as (_ & H & Habsent & _).
  split; [|split; [|split]].
  - destruct (H Reference.runtime [(txt "level", Some (dec 1))] (scale_by "level" 1.5)
                (dec 1) eq_refl) as (H1 & _).
    apply H1. discriminate.
  - destruct (H Reference.runtime [(txt "level", Some (dec 2))] (scale_by "level" 1.5)
                (dec 2) eq_refl) as (_ & H2 & _).
    rewrite (H2 eq_refl). by_computation.
  - destruct (H Reference.runtime [(txt "level", Some (dec 3))] (scale_by "level" 1.5)
                (dec 3) eq_refl) as (_ & _ & H3).
    rewrite (H3 eq_refl). by_computation.
  - apply Habsent. reflexivity.
Defined.

(** ** Tiered formulas *)

Ltac qc_to_q :=
  unfold Qcle, Qclt, Qcminus, Qcplus, Qcopp, Qcmult in *;
  cbn [this Q2Qc] in *;
  rewrite ?Qred_correct in *.

Lemma Qcmin_le_mono (a b l : Qc) : (a <= b)%Qc -> (Qcmin a l <= Qcmin b l)%Qc.
Proof.
  intro H. unfold Qcmin.
  destruct (Qcltb l a) eqn:Ea; destruct (Qcltb l b) eqn:Eb;
    try apply Qcltb_lt in Ea; try apply Qcltb_lt in Eb;
    try apply Qcltb_ge in Ea; try apply Qcltb_ge in Eb;
    qc_to_q; lra.
Qed.

Lemma Qcmin_rest_mono (a b l : Qc) :
  (a <= b)%Qc -> (a - Qcmin a l <= b - Qcmin b l)%Qc.
Proof.
  intro H. unfold Qcmin.
  destruct (Qcltb l a) eqn:Ea; destruct (Qcltb l b) eqn:Eb;
    try apply Qcltb_lt in Ea; try apply Qcltb_lt in Eb;
    try apply Qcltb_ge in Ea; try apply Qcltb_ge in Eb;
    qc_to_q; lra.
Qed.

Lemma Qcmin_same (a : Qc) : Qcmin a a = a.
Proof. unfold Qcmin. now destruct (Qcltb a a). Qed.

Lemma Qcmin_pos (a l : Qc) : (0 < a)%Qc -> (0 < l)%Qc -> (0 < Qcmin a l)%Qc.
Proof. intros. unfold Qcmin. now destruct (Qcltb l a). Qed.

Lemma Qcmin_limit (a l : Qc) : (l <= a)%Qc -> Qcmin a l = l.
Proof.
  intro H. unfold Qcmin. destruct (Qcltb l a) eqn:E; [reflexivity|].
  apply Qcltb_ge in E. now apply Qcle_antisym.
Qed.

Lemma limit_or_cases (l : option Qc) (rem : Qc) :
  (limit_or l rem = rem /\ (l = None \/ l = Some 0%Qc)) \/
  (exists q, l = Some q /\ q <> 0%Qc /\ limit_or l rem = q).
Proof.
  destruct l as [q|]; simpl.
  - destruct (Qceqb q 0) eqn:E.
    + apply Qceqb_eq in E. subst. left. auto.
    + right. exists q. repeat split. intro H. apply Qceqb_eq in H. congruence.
  - left. auto.
Qed.

Lemma tierLoop_exhausted {R : JSRuntime} (ctx : context) (ts : list tier) (c : num) (rem : Qc) :
  (rem <= 0)%Qc -> tierLoop ctx ts c rem = c.
Proof.
  intro H. destruct ts; [reflexivity|]. simpl.
  apply Qcleb_le in H. now rewrite H.
Qed.

Lemma tierLoop_step {R : JSRuntime} (ctx : context) (t : tier) (ts : list tier)
      (c : num) (rem : Qc) :
  (0 < rem)%Qc ->
  tierLoop ctx (t :: ts) c rem
  = let tierVolume := Qcmin rem (limit_or (limit t) rem) in
    tierLoop ctx ts (add c (mul (Fin tierVolume) (tierRateValue (rate t) ctx)))
             (rem - tierVolume)%Qc.
Proof.
  intro H. simpl. apply Qcleb_gt in H. now rewrite H.
Qed.

(** A tier without a limit, or with the limit 0, takes all that remains. *)
Lemma tierLoop_unlimited {R : JSRuntime} (ctx : context) (t : tier) (ts : list tier)
      (c : num) (rem : Qc) :
  limit t = None \/ limit t = Some 0%Qc ->
  (0 < rem)%Qc ->
  tierLoop ctx (t :: ts) c rem
  = add c (mul (Fin rem) (tierRateValue (rate t) ctx)).
Proof.
  intros Hl Hrem. rewrite tierLoop_step by assumption. cbv zeta.
  assert (E : limit_or (limit t) rem = rem) by (destruct Hl as [-> | ->]; reflexivity).
  rewrite E, Qcmin_same.
  apply tierLoop_exhausted. qc_to_q. lra.
Qed.

Lemma tierLoop_after_unlimited {R : JSRuntime} (ctx : context) (pre : list tier)
      (t : tier) (post : list tier) (c : num) (rem : Qc) :
  limit t = None \/ limit t = Some 0%Qc ->
  tierLoop ctx (pre ++ t :: post) c rem = tierLoop ctx (pre ++ [t]) c rem.
Proof.
  intro Hl. revert c rem. induction pre as [|p pre IH]; intros c rem.
  - simpl app. destruct (Qclt_le_dec 0 rem) as [Hpos|Hle].
    + now rewrite !tierLoop_unlimited.
    + now rewrite !tierLoop_exhausted.
  - simpl. destruct (Qcleb rem 0); [reflexivity|]. apply IH.
Qed.

Lemma limitsSum_nonneg (ts : list tier) :
  Forall positive_limit ts -> (0 <= limitsSum ts)%Qc.
Proof.
  induction 1 as [|t ts (l & Hl & Hpos) _ IH]; simpl.
  - apply Qcle_refl.
  - unfold limitValue. rewrite Hl. qc_to_q. lra.
Qed.

Lemma tierLoopWith_exact {R : JSRuntime} (ctx : context) (ts : list tier)
      (c : num) (rem : Qc) :
  tierLoopWith add mul Qcminus ctx ts c rem = tierLoop ctx ts c rem.
Proof.
  revert c rem. induction ts as [|t ts IH]; intros c rem; [reflexivity|].
  cbn [tierLoopWith tierLoop]. destruct (Qcleb rem 0); [reflexivity|apply IH].
Qed.

Lemma whole_plus (a b : Z) : (whole a + whole b)%Qc = whole (a + b).
Proof.
  unfold whole. apply Qc_is_canon. unfold Qcplus. cbn [this Q2Qc].
  rewrite !Qred_correct. rewrite inject_Z_plus. reflexivity.
Qed.

Lemma whole_le (a b : Z) : (a <= b)%Z -> (whole a <= whole b)%Qc.
Proof.
  intro H. unfold whole, Qcle. cbn [this Q2Qc]. rewrite !Qred_correct.
  now rewrite <- Zle_Qle.
Qed.

Lemma whole_lt (a b : Z) : (a < b)%Z -> (whole a < whole b)%Qc.
Proof.
  intro H. unfold whole, Qclt. cbn [this Q2Qc]. rewrite !Qred_correct.
  now rewrite <- Zlt_Qlt.
Qed.

Lemma whole_minus (a b : Z) : (whole a - whole b)%Qc = whole (a - b).
Proof.
  unfold whole. apply Qc_is_canon. unfold Qcminus, Qcplus, Qcopp. cbn [this Q2Qc].
  rewrite !Qred_correct. unfold Z.sub. rewrite inject_Z_plus, inject_Z_opp. reflexivity.
Qed.

Lemma Qcminus_exactOnWholes : exactOnWholes Qcminus.
Proof. intros a b _ _. apply whole_minus. Qed.

Lemma Qcminus_monotone : monotoneMinus Qcminus.
Proof. intros a a' b H. qc_to_q. lra. Qed.

(** The limits of tiers with whole limits add up to a whole number. *)
Lemma wholeLimits_sum (ts : list tier) :
  Forall wholeLimit ts -> exists z : Z, (0 <= z)%Z /\ limitsSum ts = whole z.
Proof.
  induction 1 as [|t ts (z & Hz & Hl) _ (s & Hs & IH)].
  - exists 0%Z. split; [lia|reflexivity].
  - exists (z + s)%Z. split; [lia|].
    cbn [limitsSum]. unfold limitValue. now rewrite Hl, IH, whole_plus.
Qed.

Section OpenArithmetic.

Context {R : JSRuntime}.
Variables (plus times : num -> num -> num) (minus : Qc -> Qc -> Qc).
Variable ctx : context.

Lemma tierLoopWith_exhausted (ts : list tier) (c : num) (rem : Qc) :
  (rem <= 0)%Qc -> tierLoopWith plus times minus ctx ts c rem = c.
Proof.
  intro H. destruct ts; [reflexivity|]. cbn [tierLoopWith].
  apply Qcleb_le in H. now rewrite H.
Qed.

(** A tier with a positive limit that the remaining volume reaches is
    filled to its limit. *)
Lemma tierLoopWith_full (t : tier) (ts : list tier) (c : num) (rem l : Qc) :
  limit t = Some l -> (0 < l)%Qc -> (l <= rem)%Qc ->
  tierLoopWith plus times minus ctx (t :: ts) c rem
  = tierLoopWith plus times minus ctx ts
      (plus c (times (Fin l) (tierRateValue (rate t) ctx))) (minus rem l).
Proof.
  intros Hl Hpos Hrem. cbn [tierLoopWith].
  assert (P : (0 < rem)%Qc) by (apply Qclt_le_trans with l; assumption).
  apply Qcleb_gt in P. rewrite P.
  assert (El : limit_or (limit t) rem = l).
  { rewrite Hl. cbn [limit_or]. destruct (Qceqb l 0) eqn:E; [|reflexivity].
    apply Qceqb_eq in E. rewrite E in Hpos. exfalso. revert Hpos.
    apply Qcle_not_lt, Qcle_refl. }
  now rewrite El, Qcmin_limit.
Qed.

Hypothesis minus_exact : exactOnWholes minus.

Lemma tierLoopWith_boundary (pre post : list tier) (c : num) :
  Forall wholeLimit pre -> (limitsSum pre <= whole maxWhole)%Qc ->
  tierLoopWith plus times minus ctx (pre ++ post) c (limitsSum pre)
  = fold_left (fun c t => plus c (times (Fin (limitValue t)) (tierRateValue (rate t) ctx)))
              pre c.
Proof.
  intro H. revert c. induction H as [|t pre (z & Hz & Hl) Hpre IH]; intros c Hmax.
  - cbn [app limitsSum fold_left]. apply tierLoopWith_exhausted, Qcle_refl.
  - destruct (wholeLimits_sum Hpre) as (s & Hs & Es).
    assert (Ev : limitValue t = whole z) by (unfold limitValue; now rewrite Hl).
    cbn [app limitsSum fold_left] in Hmax |- *.
    rewrite Ev, Es, whole_plus in Hmax. rewrite Ev, Es, whole_plus.
    assert (Hb : (z + s <= maxWhole)%Z).
    { destruct (Z_le_gt_dec (z + s) maxWhole) as [L|G]; [exact L|].
      exfalso. apply (Qclt_not_le _ _ (whole_lt (proj1 (Z.gt_lt_iff _ _) G))). exact Hmax. }
    rewrite (@tierLoopWith_full t (pre ++ post) c (whole (z + s)) (whole z) Hl)
      by (try apply (whole_lt (a := 0)); try apply whole_le; lia).
    rewrite minus_exact by lia. replace (z + s - z)%Z with s by lia.
    rewrite <- Es. apply IH. rewrite Es. apply whole_le. lia.
Qed.

Hypothesis minus_monotone : monotoneMinus minus.

Lemma tierLoopWith_beyond (ts : list tier) (c : num) (rem : Qc) :
  Forall wholeLimit ts -> (limitsSum ts <= whole maxWhole)%Qc ->
  (limitsSum ts <= rem)%Qc ->
  tierLoopWith plus times minus ctx ts c rem
  = fold_left (fun c t => plus c (times (Fin (limitValue t)) (tierRateValue (rate t) ctx)))
              ts c.
Proof.
  intro H. revert c rem.
  induction H as [|t ts (z & Hz & Hl) Hts IH]; intros c rem Hmax Hrem; [reflexivity|].
  destruct (wholeLimits_sum Hts) as (s & Hs & Es).
  assert (Ev : limitValue t = whole z) by (unfold limitValue; now rewrite Hl).
  cbn [limitsSum fold_left] in Hmax, Hrem |- *.
  rewrite Ev, Es, whole_plus in Hmax, Hrem. rewrite Ev.
  assert (Hb : (z + s <= maxWhole)%Z).
  { destruct (Z_le_gt_dec (z + s) maxWhole) as [L|G]; [exact L|].
    exfalso. apply (Qclt_not_le _ _ (whole_lt (proj1 (Z.gt_lt_iff _ _) G))). exact Hmax. }
  assert (Hzr : (whole z <= rem)%Qc).
  { apply Qcle_trans with (whole (z + s)); [apply whole_le; lia|exact Hrem]. }
  rewrite (@tierLoopWith_full t ts c rem (whole z) Hl)
    by (try apply (whole_lt (a := 0)); try assumption; lia).
  apply IH.
  - rewrite Es. apply whole_le. lia.
  - rewrite Es. replace s with (z + s - z)%Z by lia.
    rewrite <- minus_exact by lia. now apply minus_monotone.
Qed.

End OpenArithmetic.

Lemma tierLoop_grows {R : JSRuntime} (ctx1 ctx2 : context) (ts : list tier) :
  Forall (fun t => nonnegative_limit t /\ steady_rate ctx1 ctx2 t) ts ->
  forall (c rem : Qc),
  exists d, tierLoop ctx2 ts (Fin c) rem = Fin d /\ (c <= d)%Qc.
Proof.
  induction 1 as [|t ts (Hlim & r & _ & Hr & Hr0) _ IH]; intros c rem.
  - exists c. split; [reflexivity|apply Qcle_refl].
  - destruct (Qclt_le_dec 0 rem) as [Hpos|Hle].
    + rewrite tierLoop_step by assumption. cbv zeta. rewrite Hr.
      set (tv := Qcmin rem (limit_or (limit t) rem)).
      assert (Htv : (0 <= tv)%Qc).
      { apply Qclt_le_weak. apply Qcmin_pos; [assumption|].
        destruct (limit_or_cases (limit t) rem) as [[-> _]|(q & Hq & Hq0 & ->)];
          [assumption|].
        unfold nonnegative_limit in Hlim. rewrite Hq in Hlim.
        destruct (Qcle_lt_or_eq _ _ Hlim) as [L|L]; [assumption|congruence]. }
      simpl add. destruct (IH (c + tv * r)%Qc (rem - tv)%Qc) as (d & Hd & Hcd).
      exists d. split; [exact Hd|].
      apply Qcle_trans with (c + tv * r)%Qc; [|assumption].
      pose proof (Qcmult_le_compat_r _ _ _ Htv Hr0) as M.
      rewrite Qcmult_0_l in M. qc_to_q. lra.
    + rewrite tierLoop_exhausted by assumption.
      exists c. split; [reflexivity|apply Qcle_refl].
Qed.

Lemma tierLoop_monotone {R : JSRuntime} (ctx1 ctx2 : context) (ts : list tier) :
  Forall (fun t => nonnegative_limit t /\ steady_rate ctx1 ctx2 t) ts ->
  forall (c1 c2 rem1 rem2 : Qc),
    (c1 <= c2)%Qc -> (rem1 <= rem2)%Qc ->
    exists d1 d2,
      tierLoop ctx1 ts (Fin c1) rem1 = Fin d1 /\
      tierLoop ctx2 ts (Fin c2) rem2 = Fin d2 /\ (d1 <= d2)%Qc.
Proof.
  induction 1 as [|t ts Ht Hts IH]; intros c1 c2 rem1 rem2 Hc Hrem.
  - exists c1, c2. auto.
  - destruct (Qclt_le_dec 0 rem1) as [Hpos1|Hle1].
    + assert (Hpos2 : (0 < rem2)%Qc) by (apply Qclt_le_trans with rem1; assumption).
      destruct Ht as (Hlim & r & Hr1 & Hr2 & Hr0).
      rewrite !tierLoop_step by assumption. cbv zeta. rewrite Hr1, Hr2.
      set (tv1 := Qcmin rem1 (limit_or (limit t) rem1)).
      set (tv2 := Qcmin rem2 (limit_or (limit t) rem2)).
      assert (Htv : (tv1 <= tv2)%Qc /\ (rem1 - tv1 <= rem2 - tv2)%Qc).
      { unfold tv1, tv2.
        destruct (limit_or_cases (limit t) rem1) as [[E1 Hl]|(q & Hq & Hq0 & E1)].
        - assert (E2 : limit_or (limit t) rem2 = rem2)
            by (destruct Hl as [-> | ->]; reflexivity).
          rewrite E1, E2, !Qcmin_same. split; [assumption|].
          qc_to_q. lra.
        - assert (E2 : limit_or (limit t) rem2 = q).
          { rewrite Hq. simpl. destruct (Qceqb q 0) eqn:E; [|reflexivity].
            apply Qceqb_eq in E. contradiction. }
          rewrite E1, E2. split; [now apply Qcmin_le_mono|now apply Qcmin_rest_mono]. }
      destruct Htv as [Htv Hrest]. simpl add.
      apply IH; [|assumption].
      pose proof (Qcmult_le_compat_r _ _ _ Htv Hr0) as M.
      qc_to_q. lra.
    + rewrite (tierLoop_exhausted ctx1) by assumption.
      destruct (tierLoop_grows (Forall_cons t Ht Hts) c2 rem2) as (d & Hd & Hcd).
      exists c1, d. repeat split; [assumption|].
      now apply Qcle_trans with c2.
Qed.

(** C3, as stated, fails in both parts: at a negative rate a larger volume
    costs less, and a first tier with limit 0 takes the whole volume, so
    the cost at the sum of the first two limits is not the sum of their
    full-tier costs. *)
Lemma tiered_cost_counterexamples :
  (let ts := [flat None (-1)] in
   @evaluateTieredFormula Reference.runtime (txt "v") ts [(txt "v", Some (dec 1))] = Fin (dec (-1)) /\
   @evaluateTieredFormula Reference.runtime (txt "v") ts [(txt "v", Some (dec 2))] = Fin (dec (-2)) /\
   (dec (-2) < dec (-1))%Qc) /\
  (let ts := [flat (Some (dec 0)) 1; flat (Some (dec 10)) 2] in
   let ctx := [(txt "v", Some (dec 10))] in
   ctx_or ctx (txt "v") 0 = limitsSum (firstn 2 ts) /\
   @evaluateTieredFormula Reference.runtime (txt "v") ts ctx = Fin (dec 10) /\
   @fullTiersCost Reference.runtime ctx (firstn 2 ts) = Fin (dec 20) /\
   Fin (dec 10) <> Fin (dec 20)).
Proof.
  split.
  - intro ts. split; [by_computation|]. split; [by_computation|reflexivity].
  - intros ts ctx. split; [now apply Qceqb_eq|].
    split; [by_computation|]. split; [by_computation|].
    intro H. injection H as H. discriminate H.
Qed.

(** C3, amended.  When every tier has a limit that is absent or not
    negative and a rate with the same finite, non-negative value in both
    contexts, the context with the larger volume does not get the smaller
    tiered cost.  When the first [k] tiers have limits that are positive
    whole numbers with a sum of at most 2^53 and the volume equals this
    sum, the cost is the sum, in the order of the tiers, of limit times
    rate: this holds however the runtime rounds its additions and
    multiplications, as long as it subtracts whole numbers up to 2^53
    exactly, as binary64 does.  Tiers [{1000, 0.025}, {null, 0.015}] at
    volume 1500 cost 32.5. *)
Theorem evaluateTieredFormula_monotone_boundary :
  (forall (R : JSRuntime) (volumeVar : text) (ts : list tier) (ctx1 ctx2 : context),
      Forall (fun t => nonnegative_limit t /\ steady_rate ctx1 ctx2 t) ts ->
      (ctx_or ctx1 volumeVar 0 <= ctx_or ctx2 volumeVar 0)%Qc ->
      exists c1 c2,
        evaluateTieredFormula volumeVar ts ctx1 = Fin c1 /\
        evaluateTieredFormula volumeVar ts ctx2 = Fin c2 /\ (c1 <= c2)%Qc) /\
  (forall (R : JSRuntime) (plus times : num -> num -> num) (minus : Qc -> Qc -> Qc)
          (volumeVar : text) (ts : list tier) (ctx : context) (k : nat),
      exactOnWholes minus ->
      Forall wholeLimit (firstn k ts) ->
      (limitsSum (firstn k ts) <= whole maxWhole)%Qc ->
      ctx_or ctx volumeVar 0 = limitsSum (firstn k ts) ->
      evaluateTieredFormulaWith plus times minus volumeVar ts ctx
      = fullTiersCostWith plus times ctx (firstn k ts)) /\
  (forall (R : JSRuntime) (ctx : context),
      ctx_or ctx (txt "volume") 0 = dec 1500 ->
      evaluateTieredFormula (txt "volume")
         [flat (Some (dec 1000)) 0.025; flat None 0.015] ctx = Fin (dec 32.5)).
Proof.
  split; [|split].
  - intros R v ts ctx1 ctx2 Hts Hv. unfold evaluateTieredFormula.
    apply tierLoop_monotone; [assumption|apply Qcle_refl|assumption].
  - intros R plus times minus v ts ctx k Hminus Hpos Hmax Hv.
    unfold evaluateTieredFormulaWith, fullTiersCostWith.
    rewrite Hv. rewrite <- (firstn_skipn k ts) at 1.
    now apply tierLoopWith_boundary.
  - intros R ctx Hv. unfold evaluateTieredFormula. rewrite Hv. by_computation.
Qed.

(** A witness for C3: flat rates 0.025 and 0.015, volumes 1000 and 1500;
    the volume 1000 is the boundary of the first tier, here in exact
    arithmetic. *)
Lemma evaluateTieredFormula_monotone_boundary_witness :
  let ts := [flat (Some (dec 1000)) 0.025; flat None 0.015] in
  let ctx1 := [(txt "volume", Some (dec 1000))] in
  let ctx2 := [(txt "volume", Some (dec 1500))] in
  (exists c1 c2,
      @evaluateTieredFormula Reference.runtime (txt "volume") ts ctx1 = Fin c1 /\
      @evaluateTieredFormula Reference.runtime (txt "volume") ts ctx2 = Fin c2 /\
      (c1 <= c2)%Qc) /\
  @evaluateTieredFormulaWith Reference.runtime add mul Qcminus (txt "volume") ts ctx1
  = @fullTiersCostWith Reference.runtime add mul ctx1 (firstn 1 ts) /\
  @evaluateTieredFormula Reference.runtime (txt "volume") ts ctx2 = Fin (dec 32.5).
Proof.
  intros ts ctx1 ctx2.
  destruct evaluateTieredFormula_monotone_boundary as (Hmono & Hbound & Hex).
  split; [|split].
  - apply Hmono.
    + repeat constructor; simpl.
      * discriminate.
      * exists (dec 0.025). repeat split. discriminate.
      * exists (dec 0.015). repeat split. discriminate.
    + discriminate.
  - apply Hbound.
    + exact Qcminus_exactOnWholes.
    + repeat constructor. exists 1000%Z. split; reflexivity.
    + discriminate.
    + now apply Qceqb_eq.
  - apply Hex. now apply Qceqb_eq.
Defined.

(** C10.  A tier whose limit is 0, null or missing takes all the volume
    that remains, at its rate; the tiers after it add nothing. *)
Theorem unlimited_tier_absorbs_remainder :
  forall (R : JSRuntime) (ctx : context) (t : tier),
    limit t = None \/ limit t = Some 0%Qc ->
    (forall (post : list tier) (c : num) (rem : Qc),
        (0 < rem)%Qc ->
        tierLoop ctx (t :: post) c rem
        = add c (mul (Fin rem) (tierRateValue (rate t) ctx))) /\
    (forall (volumeVar : text) (pre post : list tier),
        evaluateTieredFormula volumeVar (pre ++ t :: post) ctx
        = evaluateTieredFormula volumeVar (pre ++ [t]) ctx).
Proof.
  intros R ctx t Hl. split.
  - intros. now apply tierLoop_unlimited.
  - intros. unfold evaluateTieredFormula. now apply tierLoop_after_unlimited.
Qed.

(** A witness for C10: a tier with limit 0 at rate 1, followed by a tier
    with limit 10 at rate 2, at volume 25. *)
Lemma unlimited_tier_absorbs_remainder_witness :
  let ctx := [(txt "v", Some (dec 25))] in
  let ts := [flat (Some (dec 0)) 1; flat (Some (dec 10)) 2] in
  @tierLoop Reference.runtime ctx ts zero (dec 25) = Fin (dec 25) /\
  @evaluateTieredFormula Reference.runtime (txt "v") ts ctx = Fin (dec 25).
Proof.
  intros ctx ts.
  destruct (unlimited_tier_absorbs_remainder Reference.runtime ctx
              (flat (Some (dec 0)) 1)) as [H1 H2].
  - right. reflexivity.
  - split.
    + etransitivity; [apply (H1 [flat (Some (dec 10)) 2] zero (dec 25)); reflexivity|].
      by_computation.
    + etransitivity; [exact (H2 (txt "v") [] [flat (Some (dec 10)) 2])|].
      by_computation.
Defined.

(** ** Conditional formulas *)

Lemma evaluateFormula_conditional {R : JSRuntime} (conds : list (condition * formula))
      (els : formula) (ctx : context) :
  evaluateFormula (FConditional conds els) ctx
  = evaluateConditionalFormula conds els ctx.
Proof.
  unfold evaluateConditionalFormula. cbn [evaluateFormula].
  induction conds as [|[c thn] conds IH]; cbn [conditionLoop].
  - destruct (formula_truthy els); [|reflexivity]. now destruct els.
  - destruct (evaluateCondition c ctx); [|exact IH]. now destruct thn.
Qed.

Lemma conditionLoop_first {R : JSRuntime} (ctx : context) (els : formula)
      (pre : list (condition * formula)) (c : condition) (thn : formula)
      (post : list (condition * formula)) :
  Forall (fails ctx) pre ->
  evaluateCondition c ctx = true ->
  conditionLoop ctx els (pre ++ (c, thn) :: post) = evaluateClause thn ctx.
Proof.
  intros Hpre Hc. induction Hpre as [|[c' t'] pre Hc' _ IH]; simpl.
  - now rewrite Hc.
  - unfold fails in Hc'. simpl in Hc'. now rewrite Hc'.
Qed.

Lemma conditionLoop_none {R : JSRuntime} (ctx : context) (els : formula)
      (conds : list (condition * formula)) :
  Forall (fails ctx) conds ->
  conditionLoop ctx els conds
  = if formula_truthy els then evaluateClause els ctx else Returns zero.
Proof.
  induction 1 as [|[c' t'] conds Hc' _ IH]; simpl; [reflexivity|].
  unfold fails in Hc'. simpl in Hc'. now rewrite Hc'.
Qed.

Lemma ctx_or_absent (ctx : context) (k : text) (d : Qc) :
  obj_get ctx k = None -> ctx_or ctx k d = d.
Proof. unfold ctx_or. now intros ->. Qed.

(** C8.  The conditions are tried in list order and the first one that
    holds decides, whatever the later ones would do; a condition reads its
    variable from the context, 0 when it is absent; when no condition
    holds the result is the else clause, and 0 when there is none.  With
    [x > 10] then [A], [x > 5] then [B] and [x = 20] the result is that of
    [A]. *)
Theorem conditional_first_match_wins :
  (forall (R : JSRuntime) (ctx : context) (els : formula)
          (pre : list (condition * formula)) (c : condition) (thn : formula)
          (post : list (condition * formula)),
      Forall (fails ctx) pre ->
      evaluateCondition c ctx = true ->
      evaluateFormula (FConditional (pre ++ (c, thn) :: post) els) ctx
      = evaluateClause thn ctx) /\
  (forall (R : JSRuntime) (ctx : context) (c : condition),
      obj_get ctx (cond_variable c) = None ->
      evaluateCondition c ctx = evaluateCondition c [(cond_variable c, Some 0%Qc)]) /\
  (forall (R : JSRuntime) (ctx : context) (els : formula)
          (conds : list (condition * formula)),
      Forall (fails ctx) conds ->
      evaluateFormula (FConditional conds els) ctx
      = if formula_truthy els then evaluateClause els ctx else Returns zero) /\
  (forall (R : JSRuntime) (ctx : context) (conds : list (condition * formula)),
      Forall (fails ctx) conds ->
      evaluateFormula (FConditional conds FNull) ctx = Returns zero) /\
  (forall (R : JSRuntime) (ctx : context) (A B els : formula),
      ctx_or ctx (txt "x") 0 = dec 20 ->
      evaluateCondition (when "x" ">" 5) ctx = true /\
      evaluateFormula (FConditional [(when "x" ">" 10, A); (when "x" ">" 5, B)] els) ctx
      = evaluateClause A ctx).
Proof.
  split; [|split; [|split; [|split]]].
  - intros. rewrite evaluateFormula_conditional. now apply conditionLoop_first.
  - intros R ctx c H. unfold evaluateCondition.
    rewrite (ctx_or_absent ctx _ 0 H).
    unfold ctx_or. simpl. now rewrite text_eqb_refl.
  - intros. rewrite evaluateFormula_conditional. now apply conditionLoop_none.
  - intros. rewrite evaluateFormula_conditional.
    unfold evaluateConditionalFormula. now rewrite conditionLoop_none.
  - intros R ctx A B els Hx.
    assert (H5 : evaluateCondition (when "x" ">" 5) ctx = true).
    { unfold evaluateCondition, when. cbn [cond_variable operator value].
      rewrite Hx. reflexivity. }
    assert (H10 : evaluateCondition (when "x" ">" 10) ctx = true).
    { unfold evaluateCondition, when. cbn [cond_variable operator value].
      rewrite Hx. reflexivity. }
    split; [exact H5|].
    rewrite evaluateFormula_conditional.
    exact (@conditionLoop_first R ctx els [] (when "x" ">" 10) A
             [(when "x" ">" 5, B)] (Forall_nil _) H10).
Qed.

(** A witness for C8: the second of three conditions is the first that
    holds and the third holds as well; a variable that is absent reads as
    0; without a condition that holds the else clause decides, and 0 when
    there is none. *)
Lemma conditional_first_match_wins_witness :
  let ctx := [(txt "x", Some (dec 7))] in
  let conds := [(when "x" ">" 10, FNum (dec 1)); (when "x" ">" 5, FNum (dec 2));
                (when "x" ">" 0, FNum (dec 3))] in
  @evaluateFormula Reference.runtime (FConditional conds (FNum (dec 4))) ctx
  = Returns (Fin (dec 2)) /\
  @evaluateCondition (when "y" "<=" 0) ctx = true /\
  @evaluateFormula Reference.runtime
     (FConditional [(when "x" ">" 10, FNum (dec 1))] (FNum (dec 4))) ctx
  = Returns (Fin (dec 4)) /\
  @evaluateFormula Reference.runtime
     (FConditional [(when "x" ">" 10, FNum (dec 1))] FNull) ctx
  = Returns zero /\
  @evaluateFormula Reference.runtime
     (FConditional [(when "x" ">" 10, FStr (txt "1")); (when "x" ">" 5, FStr (txt "2"))]
                   FNull) [(txt "x", Some (dec 20))]
  = Returns (Fin (dec 1)).
Proof.
  intros ctx conds.
  destruct conditional_first_match_wins as (H1 & H2 & H3 & H4 & H5).
  split; [|split; [|split; [|split]]].
  - apply (H1 Reference.runtime ctx (FNum (dec 4)) [(when "x" ">" 10, FNum (dec 1))]
              (when "x" ">" 5) (FNum (dec 2)) [(when "x" ">" 0, FNum (dec 3))]).
    + repeat constructor.
    + reflexivity.
  - rewrite (H2 Reference.runtime ctx (when "y" "<=" 0) eq_refl). reflexivity.
  - rewrite (H3 Reference.runtime ctx (FNum (dec 4)) [(when "x" ">" 10, FNum (dec 1))]).
    + reflexivity.
    + repeat constructor.
  - apply (H4 Reference.runtime ctx). repeat constructor.
  - destruct (H5 Reference.runtime [(txt "x", Some (dec 20))]
                 (FStr (txt "1")) (FStr (txt "2")) FNull) as [_ H].
    + now apply Qceqb_eq.
    + rewrite H. cbn [evaluateClause]. apply f_equal. by_computation.
Defined.

(** ** Substitution and names that extend a key *)

Lemma is_word_sigil (c : ascii) : is_word c = true -> Ascii.eqb c "$" = false.
Proof.
  intro H. destruct (Ascii.eqb c "$") eqn:E; [|reflexivity].
  apply Ascii.eqb_eq in E. subst c. discriminate H.
Qed.

Lemma identifier_no_sigil (name : text) :
  Forall (fun c => is_word c = true) name -> no_sigil name.
Proof.
  unfold no_sigil. apply Forall_impl. exact is_word_sigil.
Qed.

Lemma starts_with_app (p rest : text) : starts_with p (p ++ rest) = true.
Proof.
  induction p as [|c p IH]; [reflexivity|]. simpl. now rewrite Ascii.eqb_refl.
Qed.

Lemma skipn_app_exact (p rest : text) : skipn (List.length p) (p ++ rest) = rest.
Proof. induction p as [|c p IH]; [reflexivity|exact IH]. Qed.

Lemma last_word (key : text) (d : ascii) :
  identifier key -> is_word (last key d) = true.
Proof.
  intros [Hne Hw]. destruct key as [|c key]; [congruence|clear Hne].
  revert c Hw. induction key as [|c' key IH]; intros c Hw.
  - now inversion Hw.
  - change (last (c :: c' :: key) d) with (last (c' :: key) d).
    apply IH. now inversion Hw.
Qed.

(** After the key a word character follows: no word boundary, no match. *)
Lemma no_match_before_word (key : text) (c : ascii) (rest : text) :
  identifier key -> is_word c = true ->
  matches_here ("$"%char :: key) ("$"%char :: key ++ c :: rest) = false.
Proof.
  intros Hk Hc. unfold matches_here.
  change ("$"%char :: key ++ c :: rest) with (("$"%char :: key) ++ c :: rest).
  rewrite starts_with_app, skipn_app_exact.
  assert (L : last ("$"%char :: key) "$"%char = last key "$"%char).
  { destruct Hk as [Hne _]. destruct key; [congruence|reflexivity]. }
  rewrite L. unfold word_boundary. rewrite (@last_word key "$"%char Hk), Hc. reflexivity.
Qed.

Lemma replace_from_skip (pat repl : text) (skip : nat) (s : text) :
  replace_from pat repl skip s = replace_from pat repl 0 (skipn skip s).
Proof.
  revert skip. induction s as [|c s IH]; intros [|k]; try reflexivity.
  cbn [replace_from skipn]. apply IH.
Qed.

Lemma replace_from_plain (key repl w s : text) :
  no_sigil w ->
  replace_from ("$"%char :: key) repl 0 (w ++ s)
  = w ++ replace_from ("$"%char :: key) repl 0 s.
Proof.
  induction 1 as [|c w Hc Hw IH]; [reflexivity|].
  cbn [app replace_from]. unfold matches_here. cbn [starts_with].
  rewrite (Ascii.eqb_sym "$" c), Hc. cbn [andb]. now rewrite IH.
Qed.

Lemma starts_with_short (p s rest : text) (d : ascii) :
  is_word d = false -> Forall (fun c => is_word c = true) p ->
  starts_with p (s ++ d :: rest) = true ->
  starts_with p s = true.
Proof.
  intros Hd Hp. revert s. induction Hp as [|x p Hx Hp IH]; intros s H; [reflexivity|].
  destruct s as [|y s].
  - simpl in H. apply andb_true_iff in H. destruct H as [H _].
    apply Ascii.eqb_eq in H. subst x. congruence.
  - simpl in H |- *. apply andb_true_iff in H. destruct H as [H1 H2].
    rewrite H1. simpl. now apply IH.
Qed.

Lemma starts_with_longer (p s rest : text) :
  starts_with p s = true -> starts_with p (s ++ rest) = true.
Proof.
  revert s. induction p as [|x p IH]; intros s H; [reflexivity|].
  destruct s as [|y s]; [discriminate|].
  simpl in H |- *. apply andb_true_iff in H. destruct H as [H1 H2].
  rewrite H1. simpl. now apply IH.
Qed.

Lemma starts_with_length (p s : text) :
  starts_with p s = true -> (List.length p <= List.length s)%nat.
Proof.
  revert s. induction p as [|x p IH]; intros s H; simpl; [lia|].
  destruct s as [|y s]; [discriminate|].
  simpl in H. apply andb_true_iff in H. destruct H as [_ H2].
  apply IH in H2. simpl. lia.
Qed.

(** A match in front of a sigil is the same match with nothing behind
    it. *)
Lemma matches_here_before_sigil (key pre rest : text) :
  Forall (fun c => is_word c = true) key ->
  matches_here ("$"%char :: key) (pre ++ "$"%char :: rest)
  = match pre with [] => matches_here ("$"%char :: key) ("$"%char :: rest)
               | _ => matches_here ("$"%char :: key) pre end.
Proof.
  intro Hk. destruct pre as [|c pre]; [reflexivity|].
  unfold matches_here.
  destruct (starts_with ("$"%char :: key) (c :: pre)) eqn:E.
  - rewrite (@starts_with_longer _ _ ("$"%char :: rest) E). cbn [andb].
    pose proof (@starts_with_length _ _ E) as L.
    rewrite skipn_app.
    replace (List.length ("$"%char :: key) - List.length (c :: pre))%nat with 0%nat by lia.
    cbn [skipn]. unfold word_boundary.
    destruct (skipn (List.length ("$"%char :: key)) (c :: pre)); reflexivity.
  - destruct (starts_with ("$"%char :: key) ((c :: pre) ++ "$"%char :: rest)) eqn:E'.
    + cbn [starts_with] in E, E'. cbn [app] in E'.
      apply andb_true_iff in E'. destruct E' as [E1 E2].
      rewrite E1 in E. cbn [andb] in E.
      rewrite (@starts_with_short key pre rest "$"%char eq_refl Hk E2) in E.
      discriminate.
    + reflexivity.
Qed.

Lemma replace_from_before_sigil (key repl pre rest : text) (skip : nat) :
  Forall (fun c => is_word c = true) key ->
  (skip <= List.length pre)%nat ->
  replace_from ("$"%char :: key) repl skip (pre ++ "$"%char :: rest)
  = replace_from ("$"%char :: key) repl skip pre
    ++ replace_from ("$"%char :: key) repl 0 ("$"%char :: rest).
Proof.
  intro Hk. revert skip. induction pre as [|c pre IH]; intros skip Hs.
  - simpl in Hs. replace skip with 0%nat by lia. reflexivity.
  - cbn [app]. destruct skip as [|k].
    + cbn [replace_from].
      change (c :: pre ++ "$"%char :: rest) with ((c :: pre) ++ "$"%char :: rest).
      rewrite (@matches_here_before_sigil key (c :: pre) rest Hk).
      destruct (matches_here ("$"%char :: key) (c :: pre)) eqn:E.
      * rewrite <- app_assoc. f_equal. apply IH.
        unfold matches_here in E. apply andb_true_iff in E. destruct E as [E _].
        apply starts_with_length in E. simpl in E |- *. lia.
      * cbn [app]. f_equal. apply IH. lia.
    + cbn [replace_from]. apply IH. simpl in Hs. lia.
Qed.

(** A reference to a name that extends the key by word characters passes
    through the substitution of the key untouched. *)
Lemma replaceVariable_longer_reference (key repl more pre post : text) :
  identifier key ->
  more <> [] -> Forall (fun c => is_word c = true) more ->
  replaceVariable key repl (pre ++ "$"%char :: (key ++ more) ++ post)
  = replaceVariable key repl pre ++ "$"%char :: (key ++ more)
    ++ replaceVariable key repl post.
Proof.
  intros Hk Hne Hm. unfold replaceVariable.
  rewrite replace_from_before_sigil; [|apply Hk|apply Nat.le_0_l].
  f_equal. destruct more as [|c more]; [congruence|].
  cbn [replace_from].
  rewrite <- (app_assoc key (c :: more) post). cbn [app].
  rewrite no_match_before_word by (assumption || now inversion Hm).
  f_equal.
  change (key ++ c :: more ++ post) with (key ++ (c :: more) ++ post).
  rewrite app_assoc.
  rewrite replace_from_plain; [reflexivity|].
  apply identifier_no_sigil. apply Forall_app. split; [apply Hk|assumption].
Qed.

Lemma starts_with_split (p s : text) :
  starts_with p s = true -> s = p ++ skipn (List.length p) s.
Proof.
  revert s. induction p as [|x p IH]; intros s H; [reflexivity|].
  destruct s as [|y s]; [discriminate|].
  simpl in H. apply andb_true_iff in H. destruct H as [H1 H2].
  apply Ascii.eqb_eq in H1. subst y. simpl. f_equal. now apply IH.
Qed.

Lemma guarded_delimits (s : text) :
  guarded s -> s = [] \/ exists d rest, s = d :: rest /\ is_word d = false.
Proof.
  destruct s as [|d rest]; [now left|]. intros [H _]. right. eauto.
Qed.

(** At a guarded reference the pattern of a key matches exactly when the
    key is the name referred to. *)
Lemma matches_here_reference (key name post : text) :
  identifier key -> identifier name -> guarded post ->
  matches_here ("$"%char :: key) ("$"%char :: name ++ post) = text_eqb key name.
Proof.
  intros Hk Hn Hp. destruct (text_eqb key name) eqn:E.
  - apply text_eqb_eq in E. subst name. unfold matches_here.
    change ("$"%char :: key ++ post) with (("$"%char :: key) ++ post).
    rewrite starts_with_app, skipn_app_exact. cbn [andb].
    assert (L : last ("$"%char :: key) "$"%char = last key "$"%char).
    { destruct Hk as [Hne _]. destruct key; [congruence|reflexivity]. }
    rewrite L. unfold word_boundary. rewrite (@last_word key "$"%char Hk).
    destruct post as [|d rest]; [reflexivity|]. destruct Hp as [Hd _]. now rewrite Hd.
  - apply text_eqb_neq in E.
    destruct (starts_with key (name ++ post)) eqn:S.
    + assert (S' : starts_with key name = true).
      { destruct (guarded_delimits post Hp) as [->|(d & rest & -> & Hd)].
        - now rewrite app_nil_r in S.
        - exact (@starts_with_short key name rest d Hd (proj2 Hk) S). }
      apply starts_with_split in S'.
      destruct (skipn (List.length key) name) as [|c more] eqn:Em.
      * rewrite app_nil_r in S'. congruence.
      * rewrite S'. rewrite <- app_assoc. cbn [app].
        apply no_match_before_word; [assumption|].
        destruct Hn as [_ Hn]. rewrite S' in Hn.
        apply Forall_app in Hn. destruct Hn as [_ Hn]. now inversion Hn.
    + unfold matches_here. cbn [starts_with]. rewrite Ascii.eqb_refl, S. reflexivity.
Qed.

(** One round of the substitution loop at a guarded reference. *)
Lemma replaceVariable_reference (key repl name post : text) :
  identifier key -> identifier name -> guarded post ->
  replaceVariable key repl ("$"%char :: name ++ post)
  = (if text_eqb key name then repl else "$"%char :: name)
    ++ replaceVariable key repl post.
Proof.
  intros Hk Hn Hp. unfold replaceVariable. cbn [replace_from].
  rewrite (@matches_here_reference key name post Hk Hn Hp).
  destruct (text_eqb key name) eqn:E.
  - apply text_eqb_eq in E. subst name. f_equal.
    cbn [List.length]. rewrite Nat.sub_1_r. cbn [Nat.pred].
    rewrite replace_from_skip. now rewrite skipn_app_exact.
  - cbn [app]. f_equal. apply replace_from_plain.
    apply identifier_no_sigil. apply Hn.
Qed.

Lemma replaceVariable_guarded (key repl s : text) :
  guarded s -> guarded (replaceVariable key repl s).
Proof.
  destruct s as [|c s]; [exact id|]. intros [Hw Hs].
  unfold replaceVariable. cbn [replace_from]. unfold matches_here. cbn [starts_with].
  rewrite (Ascii.eqb_sym "$" c), Hs. cbn [andb]. split; assumption.
Qed.

Lemma replaceVariable_plain (key repl w s : text) :
  no_sigil w ->
  replaceVariable key repl (w ++ s) = w ++ replaceVariable key repl s.
Proof. apply replace_from_plain. Qed.

Section SubstitutionPass.

Context {R : JSRuntime}.

Hypothesis plain_numbers : forall q, no_sigil (Number_toString q).

Lemma substituteContext_plain (w s : text) (ctx : context) :
  no_sigil w -> substituteContext (w ++ s) ctx = w ++ substituteContext s ctx.
Proof.
  intro Hw. unfold substituteContext. revert s.
  induction ctx as [|[k [v|]] ctx IH]; intro s; cbn [fold_left fst snd].
  - reflexivity.
  - rewrite replaceVariable_plain by assumption. apply IH.
  - apply IH.
Qed.

(** The substitution loop at a guarded reference: the reference becomes
    the value bound to its own name, whatever the other keys and their
    order. *)
Lemma substituteContext_reference (ctx : context) (name post : text) :
  Forall (fun kv => identifier (fst kv)) ctx ->
  identifier name -> guarded post ->
  substituteContext ("$"%char :: name ++ post) ctx
  = referenceValue ctx name ++ substituteContext post ctx.
Proof.
  intros Hctx Hn. revert post.
  induction Hctx as [|[k [v|]] ctx Hk Hctx IH]; intros post Hp.
  - reflexivity.
  - unfold substituteContext in *. cbn [fold_left fst snd].
    cbn [fst] in Hk.
    rewrite (@replaceVariable_reference k (Number_toString v) name post Hk Hn Hp).
    unfold referenceValue. cbn [boundValue].
    destruct (text_eqb k name).
    + apply (@substituteContext_plain (Number_toString v) _ ctx (plain_numbers v)).
    + apply IH. now apply replaceVariable_guarded.
  - unfold substituteContext in *. cbn [fold_left fst snd].
    unfold referenceValue. cbn [boundValue]. now apply IH.
Qed.

End SubstitutionPass.

(** The reference runtime renders numbers without a sigil. *)
Lemma uint_plain (d : Decimal.uint) : no_sigil (txt (NilEmpty.string_of_uint d)).
Proof.
  induction d; cbn [NilEmpty.string_of_uint txt list_ascii_of_string];
    try (constructor; [reflexivity|assumption]).
  constructor.
Qed.

Lemma digits_plain (z : Z) : no_sigil (Reference.digits z).
Proof.
  unfold Reference.digits, NilZero.string_of_uint.
  destruct (N.to_uint (Z.to_N z)) eqn:E; try (rewrite <- E; apply uint_plain).
  repeat constructor.
Qed.

Lemma pad_plain (n : nat) (s : text) : no_sigil s -> no_sigil (Reference.pad n s).
Proof.
  revert s. induction n as [|n IH]; intros s H; [assumption|].
  cbn [Reference.pad]. destruct (List.length s <? S n); [|assumption].
  apply IH. constructor; [reflexivity|assumption].
Qed.

Lemma toString_plain (q : Qc) : no_sigil (Reference.toString q).
Proof.
  unfold Reference.toString.
  assert (Hsign : no_sigil (if (Qnum q <? 0)%Z then txt "-" else [])).
  { destruct (Qnum q <? 0)%Z; repeat constructor. }
  destruct (Z.pos (Qden q) =? 1)%Z; unfold no_sigil in *.
  - apply Forall_app. split; [assumption|apply digits_plain].
  - repeat (apply Forall_app; split); try assumption; try apply digits_plain.
    + repeat constructor.
    + apply pad_plain, digits_plain.
Qed.

(** C9, as stated, fails: for identifiers the pattern of a key never
    matches at a reference to a longer name, and for the key [rate] and
    the reference [$rate_advanced] the longer variable is substituted
    whole although [rate] comes first in the context. *)
Lemma no_partial_substitution_of_identifiers :
  ~ (exists key longer : text,
        identifier key /\ identifier longer /\ proper_prefix key longer /\
        substitutes_inside key longer) /\
  @processedExpression Reference.runtime (txt "$rate_advanced * 10")
     [(txt "rate", Some (dec 3)); (txt "rate_advanced", Some (dec 5))]
  = txt "5 * 10".
Proof.
  split; [|vm_compute; reflexivity].
  intros (key & longer & Hk & [_ Hl] & (more & Hne & ->) & rest & H).
  destruct more as [|c more]; [congruence|].
  rewrite <- app_assoc in H. cbn [app] in H.
  rewrite no_match_before_word in H; [discriminate|assumption|].
  apply Forall_app in Hl. destruct Hl as [_ Hl]. now inversion Hl.
Qed.

(** C9, amended.  A reference to a variable whose name extends a context
    key by letters, digits or underscores passes through the substitution
    of the shorter key untouched: the pattern ends in a word boundary.
    When the keys are identifiers, a reference that is followed by an
    operator, a parenthesis, whitespace or the end of the text becomes the
    value bound to its own name, whatever the other keys and the order of
    the context.  The shorter key is substituted inside
    the longer reference only when the longer name continues with a code
    unit outside the word class: with the keys [rate] and [rate-adv], in
    this order, the reference [$rate-adv] becomes the value of [rate]
    followed by [-adv], while in the opposite order it becomes the value of
    [rate-adv]. *)
Theorem substitution_respects_word_boundary :
  (forall (key repl more pre post : text),
      identifier key ->
      more <> [] -> Forall (fun c => is_word c = true) more ->
      replaceVariable key repl (pre ++ "$"%char :: (key ++ more) ++ post)
      = replaceVariable key repl pre ++ "$"%char :: (key ++ more)
        ++ replaceVariable key repl post) /\
  (forall (R : JSRuntime) (ctx : context) (w name post : text),
      (forall q, no_sigil (Number_toString q)) ->
      Forall (fun kv => identifier (fst kv)) ctx ->
      identifier name -> no_sigil w -> guarded post ->
      substituteContext (w ++ "$"%char :: name ++ post) ctx
      = w ++ referenceValue ctx name ++ substituteContext post ctx) /\
  substitutes_inside (txt "rate") (txt "rate-adv") /\
  @processedExpression Reference.runtime (txt "$rate-adv")
     [(txt "rate", Some (dec 2)); (txt "rate-adv", Some (dec 7))] = txt "2-adv" /\
  @processedExpression Reference.runtime (txt "$rate-adv")
     [(txt "rate-adv", Some (dec 7)); (txt "rate", Some (dec 2))] = txt "7".
Proof.
  split; [|split; [|split; [|split]]].
  - intros. now apply replaceVariable_longer_reference.
  - intros R ctx w name post Hplain Hctx Hn Hw Hp.
    rewrite (@substituteContext_plain R w _ ctx Hw).
    now rewrite (@substituteContext_reference R Hplain ctx name post).
  - exists []. vm_compute. reflexivity.
  - vm_compute. reflexivity.
  - vm_compute. reflexivity.
Qed.

(** A witness for C9: the key [rate] in a text that refers to [rate] and
    to [rate_advanced], and the whole loop on a context that lists [rate]
    first. *)
Lemma substitution_respects_word_boundary_witness :
  replaceVariable (txt "rate") (txt "2") (txt "$rate + $rate_advanced * $rate")
  = txt "2 + $rate_advanced * 2" /\
  @substituteContext Reference.runtime (txt "10 * $rate_advanced + 1")
     [(txt "rate", Some (dec 2)); (txt "rate_advanced", Some (dec 7))]
  = txt "10 * 7 + 1".
Proof.
  destruct substitution_respects_word_boundary as (H1 & H2 & _).
  split.
  - etransitivity.
    + apply (H1 (txt "rate") (txt "2") (txt "_advanced") (txt "$rate + ") (txt " * $rate")).
      * split; [discriminate|repeat constructor].
      * discriminate.
      * repeat constructor.
    + vm_compute. reflexivity.
  - etransitivity.
    + apply (H2 Reference.runtime
                [(txt "rate", Some (dec 2)); (txt "rate_advanced", Some (dec 7))]
                (txt "10 * ") (txt "rate_advanced") (txt " + 1")).
      * exact toString_plain.
      * repeat constructor; discriminate.
      * split; [discriminate|repeat constructor].
      * repeat constructor.
      * split; reflexivity.
    + vm_compute. reflexivity.
Defined.

(** ** Service support *)

Lemma obj_has_keys (V : Type) (o : obj V) (k : text) :
  obj_has o k = true <-> In k (obj_keys o).
Proof.
  unfold obj_has, obj_keys. induction o as [|[k' v] o IH]; simpl.
  - split; [discriminate|tauto].
  - destruct (text_eqb k' k) eqn:E.
    + apply text_eqb_eq in E. split; auto.
    + apply text_eqb_neq in E. rewrite IH. split; [auto|intros [H|H]; [contradiction|assumption]].
Qed.

Lemma set_has_In (s : list text) (x : text) : set_has s x = true <-> In x s.
Proof.
  unfold set_has. rewrite existsb_exists. split.
  - intros (y & Hy & E). apply text_eqb_eq in E. now subst.
  - intro H. exists x. split; [assumption|apply text_eqb_refl].
Qed.

Lemma set_add_In (s : list text) (x y : text) :
  In y (set_add s x) <-> In y s \/ y = x.
Proof.
  unfold set_add. destruct (set_has s x) eqn:E.
  - apply set_has_In in E. split; [auto|intros [H|H]; [assumption|now subst]].
  - rewrite in_app_iff. simpl. split; intros [H|H]; auto.
    + destruct H as [H|[]]; auto.
Qed.

Lemma fold_set_add_In (l s : list text) (y : text) :
  In y (fold_left set_add l s) <-> In y s \/ In y l.
Proof.
  revert s. induction l as [|x l IH]; intro s; simpl.
  - tauto.
  - rewrite IH, set_add_In. split; intros H; intuition (subst; auto).
Qed.

Lemma forallb_pointwise (A : Type) (p q : A -> bool) (l : list A) :
  (forall x, p x = q x) -> forallb p l = forallb q l.
Proof.
  intro H. induction l as [|x l IH]; simpl; [reflexivity|]. now rewrite H, IH.
Qed.

Lemma take_while_word (s : text) : Forall (fun c => is_word c = true) (take_while is_word s).
Proof.
  induction s as [|c s IH]; cbn [take_while]; [constructor|].
  destruct (is_word c) eqn:E; [|constructor]. now constructor.
Qed.

Lemma formula_deep_induction (P : formula -> Prop) :
  (forall q, P (FNum q)) -> (forall s, P (FStr s)) -> P FNull -> (forall b, P (FBool b)) ->
  (forall v ts, P (FTiered v ts)) ->
  (forall base ms, P base -> P (FMultiplier base ms)) ->
  (forall conds els, Forall (fun ct => P (snd ct)) conds -> P els ->
                     P (FConditional conds els)) ->
  (forall ms, Forall (fun kv => P (snd kv)) ms -> P (FObject ms)) ->
  forall f, P f.
Proof.
  intros Hn Hs Hnull Hb Ht Hm Hc Ho. fix IH 1.
  intros [q|s| |b|v ts|base ms|conds els|ms].
  - apply Hn.
  - apply Hs.
  - apply Hnull.
  - apply Hb.
  - apply Ht.
  - apply Hm, IH.
  - apply Hc; [|apply IH].
    induction conds as [|ct conds IHc]; constructor; [apply IH|exact IHc].
  - apply Ho.
    induction ms as [|kv ms IHm]; constructor; [apply IH|exact IHm].
Qed.

Lemma starts_with_prefix (p s : text) :
  starts_with p s = true <-> exists post, s = p ++ post.
Proof.
  split.
  - intro H. exists (skipn (List.length p) s). now apply starts_with_split.
  - intros (post & ->). apply starts_with_app.
Qed.

Lemma includes_occursIn (s sub : text) : includes s sub = true <-> occursIn sub s.
Proof.
  unfold occursIn. induction s as [|c s IH]; cbn [includes].
  - rewrite orb_false_r, starts_with_prefix. split.
    + intros (post & H). exists [], post. exact H.
    + intros (pre & post & H). destruct pre as [|x pre]; [|discriminate H].
      eauto.
  - rewrite orb_true_iff, starts_with_prefix, IH. split.
    + intros [(post & H)|(pre & post & H)].
      * exists [], post. exact H.
      * exists (c :: pre), post. now rewrite H.
    + intros (pre & post & H). destruct pre as [|x pre].
      * left. eauto.
      * right. injection H as _ H. eauto.
Qed.

Lemma is_cost_variable_costRelated (name : text) :
  is_cost_variable name = true <-> costRelated name.
Proof.
  unfold is_cost_variable, costRelated.
  rewrite !orb_true_iff, !includes_occursIn. tauto.
Qed.

Lemma formulaStrings_holds (f : formula) (s : text) :
  In s (formulaStrings f) <-> holdsString f s.
Proof.
  revert s. induction f as [q|s0| |b|v ts|base ms IHb|conds els IHc IHe|ms IHm]
    using formula_deep_induction; intro s; cbn [formulaStrings].
  - split; [intros []|inversion 1].
  - split.
    + intros [<-|[]]. constructor.
    + inversion 1. now left.
  - split; [intros []|inversion 1].
  - split; [intros []|inversion 1].
  - split.
    + intros [<-|[<-|H]]; [constructor|constructor|].
      apply in_flat_map in H. destruct H as (t & Ht & H).
      destruct (rate t) eqn:E; [destruct H|].
      destruct H as [<-|[]]. now apply holds_rate with t.
    + inversion 1; subst.
      * now left.
      * right. now left.
      * right. right. apply in_flat_map. exists t. split; [assumption|].
        match goal with H : rate t = _ |- _ => rewrite H end. now left.
  - split.
    + intros [<-|H]; [constructor|]. apply in_app_iff in H. destruct H as [H|H].
      * apply holds_base. now apply IHb.
      * apply in_map_iff in H. destruct H as (m & <- & Hm). now apply holds_variable.
    + inversion 1; subst.
      * now left.
      * right. apply in_app_iff. left. now apply IHb.
      * right. apply in_app_iff. right. now apply in_map.
  - split.
    + intros [<-|H]; [constructor|]. apply in_app_iff in H. destruct H as [H|H].
      * apply in_flat_map in H. destruct H as ([c thn] & Hin & H). cbn [fst snd] in H.
        destruct H as [<-|[<-|H]].
        -- now apply holds_condition_variable with thn.
        -- now apply holds_operator with thn.
        -- apply holds_then with c thn; [assumption|].
           rewrite Forall_forall in IHc. now apply (IHc (c, thn) Hin).
      * apply holds_else. now apply IHe.
    + inversion 1; subst.
      * now left.
      * right. apply in_app_iff. left. apply in_flat_map.
        exists (c, thn). split; [assumption|]. now left.
      * right. apply in_app_iff. left. apply in_flat_map.
        exists (c, thn). split; [assumption|]. right. now left.
      * right. apply in_app_iff. left. apply in_flat_map.
        exists (c, thn). split; [assumption|]. right. right.
        rewrite Forall_forall in IHc. cbn [snd]. now apply (IHc (c, thn)).
      * right. apply in_app_iff. right. now apply IHe.
  - rewrite in_flat_map. split.
    + intros ([k v] & Hin & H). apply holds_member with k v; [assumption|].
      rewrite Forall_forall in IHm. now apply (IHm (k, v) Hin).
    + inversion 1; subst. exists (k, v). split; [assumption|].
      rewrite Forall_forall in IHm. now apply (IHm (k, v)).
Qed.

Lemma scan_from_skipn (start : ascii -> bool) (k : nat) (s : text) :
  scan_from start k s = scan_from start 0 (skipn k s).
Proof.
  revert k. induction s as [|c s IH]; intros [|k]; try reflexivity.
  cbn [scan_from skipn]. apply IH.
Qed.

Lemma take_while_rest (p : ascii -> bool) (s : text) :
  s = take_while p s ++ skipn (List.length (take_while p s)) s /\
  match skipn (List.length (take_while p s)) s with
  | c :: _ => p c = false
  | [] => True
  end.
Proof.
  induction s as [|c s [IH1 IH2]]; [now split|].
  cbn [take_while]. destruct (p c) eqn:E.
  - cbn [List.length skipn app]. split; [now rewrite <- IH1|exact IH2].
  - cbn [List.length skipn app]. now split.
Qed.

Lemma take_while_stop (p : ascii -> bool) (a b : text) (x : ascii) :
  p x = false -> take_while p (a ++ x :: b) = take_while p a.
Proof.
  intro H. induction a as [|c a IH]; cbn [app take_while]; [now rewrite H|].
  now rewrite IH.
Qed.

Lemma take_while_exact (p : ascii -> bool) (name post : text) :
  Forall (fun c => p c = true) name ->
  match post with c :: _ => p c = false | [] => True end ->
  take_while p (name ++ post) = name.
Proof.
  intros Hn Hp. induction Hn as [|c name Hc _ IH]; cbn [app take_while].
  - destruct post as [|d post]; [reflexivity|]. cbn [take_while]. now rewrite Hp.
  - now rewrite Hc, IH.
Qed.

Lemma take_while_length (p : ascii -> bool) (s : text) :
  (List.length (take_while p s) <= List.length s)%nat.
Proof.
  induction s as [|c s IH]; cbn [take_while]; [lia|].
  destruct (p c); cbn [List.length]; lia.
Qed.

Lemma is_ident_start_word (c : ascii) : is_ident_start c = true -> is_word c = true.
Proof.
  unfold is_word, is_ident_start. intro H. apply orb_true_iff in H.
  destruct H as [-> | ->]; [reflexivity|apply orb_true_r].
Qed.

Lemma variableName_word (name : text) :
  variableName name -> Forall (fun c => is_word c = true) name.
Proof.
  destruct name as [|c rest]; [intros []|]. intros [H1 H2].
  constructor; [now apply is_ident_start_word|exact H2].
Qed.

Lemma referencedVariables_sound (n : nat) (s name : text) :
  (List.length s <= n)%nat ->
  In name (referencedVariables s) -> refersTo s name.
Proof.
  unfold referencedVariables. revert s.
  induction n as [|n IH]; intros [|c s] Hlen Hin; try (now destruct Hin).
  - cbn [List.length] in Hlen. lia.
  - cbn [List.length] in Hlen. cbn [scan_from] in Hin.
    assert (Later : forall rest front, c :: s = front ++ rest ->
                      (List.length rest <= n)%nat ->
                      In name (scan_from is_ident_start 0 rest) -> refersTo (c :: s) name).
    { intros rest front E Hr H. destruct (IH rest Hr H) as (Hname & pre & post & E' & Hp).
      split; [exact Hname|]. exists (front ++ pre), post. split; [|exact Hp].
      now rewrite E, E', <- app_assoc. }
    destruct (Ascii.eqb c "$" && match s with c1 :: _ => is_ident_start c1 | [] => false end)
      eqn:E.
    + apply andb_true_iff in E. destruct E as [Ec Es]. apply Ascii.eqb_eq in Ec. subst c.
      destruct (take_while_rest is_word s) as [Split Stop].
      destruct Hin as [<-|Hin].
      * split.
        -- destruct s as [|c1 s]; [discriminate Es|]. cbn [take_while].
           rewrite (@is_ident_start_word c1 Es). split; [exact Es|apply take_while_word].
        -- exists [], (skipn (List.length (take_while is_word s)) s).
           split; [cbn [app]; now rewrite <- Split|exact Stop].
      * rewrite scan_from_skipn in Hin.
        apply (Later (skipn (List.length (take_while is_word s)) s)
                     ("$"%char :: take_while is_word s)).
        -- cbn [app]. now rewrite <- Split.
        -- rewrite length_skipn. lia.
        -- exact Hin.
    + apply (Later s [c]); [reflexivity|lia|exact Hin].
Qed.

Lemma referencedVariables_complete (n : nat) (s pre name post : text) :
  (List.length s <= n)%nat ->
  s = pre ++ "$"%char :: name ++ post ->
  variableName name ->
  match post with c :: _ => is_word c = false | [] => True end ->
  In name (referencedVariables s).
Proof.
  unfold referencedVariables. intros Hlen E Hname Hpost. revert s pre Hlen E.
  induction n as [|n IH]; intros s pre Hlen E.
  - destruct s; [destruct pre; discriminate E|cbn [List.length] in Hlen; lia].
  - destruct pre as [|c pre]; cbn [app] in E; subst s.
    + cbn [scan_from]. rewrite Ascii.eqb_refl. cbn [andb].
      pose proof (@variableName_word name Hname) as Hw.
      destruct name as [|c1 rest]; [destruct Hname|]. destruct Hname as [Hc1 _].
      cbn [app]. rewrite Hc1.
      change (c1 :: rest ++ post) with ((c1 :: rest) ++ post).
      rewrite (@take_while_exact is_word (c1 :: rest) post Hw Hpost). now left.
    + cbn [List.length] in Hlen. cbn [scan_from].
      destruct (Ascii.eqb c "$" &&
                match pre ++ "$"%char :: name ++ post with
                | c1 :: _ => is_ident_start c1
                | [] => false
                end).
      * right. rewrite scan_from_skipn.
        rewrite (@take_while_stop is_word pre (name ++ post) "$"%char eq_refl).
        destruct (take_while_rest is_word pre) as [Split _].
        set (k := List.length (take_while is_word pre)) in *.
        assert (Hk : (k <= List.length pre)%nat) by apply take_while_length.
        rewrite skipn_app. replace (k - List.length pre)%nat with 0%nat by lia.
        cbn [skipn]. apply (IH _ (skipn k pre)); [|reflexivity].
        rewrite length_app, length_skipn. rewrite length_app in Hlen. lia.
      * apply (IH _ pre); [lia|reflexivity].
Qed.

Lemma referencedVariables_refersTo (s name : text) :
  In name (referencedVariables s) <-> refersTo s name.
Proof.
  split.
  - now apply referencedVariables_sound with (List.length s).
  - intros (Hname & pre & post & E & Hpost).
    now apply referencedVariables_complete with (List.length s) pre post.
Qed.

Lemma traverse_requires (f : formula) (name : text) :
  In name (traverse f) <-> requires f name.
Proof.
  unfold traverse, requires, extractVars. rewrite in_flat_map. split.
  - intros (s & Hs & H). apply filter_In in H. destruct H as [H1 H2].
    split; [now apply is_cost_variable_costRelated|].
    exists s. split; [now apply formulaStrings_holds|now apply referencedVariables_refersTo].
  - intros (Hc & s & Hs & H). exists s.
    split; [now apply formulaStrings_holds|].
    apply filter_In. split; [now apply referencedVariables_refersTo|].
    now apply is_cost_variable_costRelated.
Qed.

Lemma getRequiredVariables_requires (eng : engine) (serviceType : text) (f : formula)
      (name : text) :
  obj_get (formulas eng) serviceType = Some f ->
  (In name (getRequiredVariables eng serviceType) <-> requires f name).
Proof.
  intro Hf. unfold getRequiredVariables. rewrite Hf.
  rewrite fold_set_add_In, traverse_requires. split; [intros [[]|H]; exact H|auto].
Qed.

Lemma checkServiceSupport_requires (eng : engine) (serviceType : text) (f : formula)
      (comps : context) :
  obj_get (formulas eng) serviceType = Some f ->
  (checkServiceSupport eng serviceType comps = true <->
   forall name, requires f name -> In name (obj_keys comps)).
Proof.
  intro Hf. unfold checkServiceSupport. rewrite forallb_forall. split.
  - intros H name Hn. apply obj_has_keys, H.
    now apply (getRequiredVariables_requires eng serviceType name Hf).
  - intros H name Hn. apply obj_has_keys, H.
    now apply (getRequiredVariables_requires eng serviceType name Hf).
Qed.

(** C6.  A service with a formula is supported by a system exactly when
    every variable name that a string of the formula refers to, at any
    depth, and that contains [_per_], [_cost], [_price] or [_base] is a key
    of the system's components.  The answer depends on the keys of the
    components only, and on the engine only through its formulas.  A
    service whose formula refers to [$foo_cost] in any of its strings is
    unsupported for components without the key [foo_cost]. *)
Theorem checkServiceSupport_iff_components_present :
  (forall (eng : engine) (serviceType : text) (f : formula) (comps : context),
      obj_get (formulas eng) serviceType = Some f ->
      (checkServiceSupport eng serviceType comps = true <->
       forall name, requires f name -> In name (obj_keys comps))) /\
  (forall (eng : engine) (serviceType : text) (comps comps' : context),
      obj_keys comps = obj_keys comps' ->
      checkServiceSupport eng serviceType comps
      = checkServiceSupport eng serviceType comps') /\
  (forall (eng eng' : engine) (serviceType : text) (comps : context),
      formulas eng = formulas eng' ->
      checkServiceSupport eng serviceType comps
      = checkServiceSupport eng' serviceType comps) /\
  (forall (eng : engine) (serviceType : text) (f : formula) (comps : context) (s : text),
      obj_get (formulas eng) serviceType = Some f ->
      holdsString f s -> refersTo s (txt "foo_cost") ->
      ~ In (txt "foo_cost") (obj_keys comps) ->
      checkServiceSupport eng serviceType comps = false).
Proof.
  split; [|split; [|split]].
  - intros eng s f comps Hf. exact (checkServiceSupport_requires eng s comps Hf).
  - intros eng s comps comps' Hk. unfold checkServiceSupport.
    apply forallb_pointwise. intro name.
    destruct (obj_has comps name) eqn:E.
    + symmetry. apply obj_has_keys. rewrite <- Hk. now apply obj_has_keys.
    + destruct (obj_has comps' name) eqn:E'; [|reflexivity].
      apply obj_has_keys in E'. rewrite <- Hk in E'. apply obj_has_keys in E'. congruence.
  - intros eng eng' s comps Hf. unfold checkServiceSupport, getRequiredVariables.
    now rewrite Hf.
  - intros eng s f comps str Hf Hs Hr Hout.
    destruct (checkServiceSupport eng s comps) eqn:E; [|reflexivity].
    exfalso. apply Hout.
    apply (proj1 (checkServiceSupport_requires eng s comps Hf) E).
    split; [|now exists str].
    right. left. exists (txt "foo"), []. reflexivity.
Qed.

(** A witness for C6: [$foo_cost] in the base of a multiplier formula, in
    a clause of a conditional formula and in a rate of a tiered formula;
    components that declare other keys only support none of the three
    services, components that declare [foo_cost] support the first,
    whatever its value and whatever the variables of the engine. *)
Lemma checkServiceSupport_iff_components_present_witness :
  let f := FMultiplier (FStr (txt "$data_volume_gb * $foo_cost + 2")) [] in
  let g := FConditional [(when "priority" ">" 1, FStr (txt "2 * $foo_cost"))] (FNum (dec 1)) in
  let h := FTiered (txt "volume")
             [{| limit := Some (dec 10); rate := RateExpression (txt "$foo_cost") |}] in
  let fs := [(txt "transport", f); (txt "storage", g); (txt "search", h)] in
  let eng := {| formulas := fs; systems := [];
                variables := [(txt "foo_cost", Some (dec 3))];
                currentSystemCosts := [] |} in
  let eng' := {| formulas := fs; systems := [];
                 variables := []; currentSystemCosts := [] |} in
  let others := [(txt "egress_cost_per_gb", Some (dec 1))] in
  checkServiceSupport eng (txt "transport") others = false /\
  checkServiceSupport eng (txt "storage") others = false /\
  checkServiceSupport eng (txt "search") others = false /\
  checkServiceSupport eng (txt "transport") [(txt "foo_cost", Some (dec 0))] = true /\
  checkServiceSupport eng (txt "transport") [(txt "foo_cost", Some (dec 0))]
  = checkServiceSupport eng (txt "transport") [(txt "foo_cost", None)] /\
  checkServiceSupport eng (txt "transport") [(txt "foo_cost", None)]
  = checkServiceSupport eng' (txt "transport") [(txt "foo_cost", None)].
Proof.
  intros f g h fs eng eng' others.
  destruct checkServiceSupport_iff_components_present as (H1 & H2 & H3 & H4).
  assert (Hname : variableName (txt "foo_cost")) by (split; [reflexivity|repeat constructor]).
  assert (Hout : ~ In (txt "foo_cost") (obj_keys others))
    by (intros [E|[]]; discriminate E).
  split; [|split; [|split; [|split; [|split]]]].
  - apply (H4 eng (txt "transport") f others (txt "$data_volume_gb * $foo_cost + 2"));
      [reflexivity|apply holds_base, holds_itself| |exact Hout].
    split; [exact Hname|]. exists (txt "$data_volume_gb * "), (txt " + 2").
    split; reflexivity.
  - apply (H4 eng (txt "storage") g others (txt "2 * $foo_cost"));
      [reflexivity| | |exact Hout].
    + apply holds_then with (when "priority" ">" 1) (FStr (txt "2 * $foo_cost"));
        [now left|apply holds_itself].
    + split; [exact Hname|]. exists (txt "2 * "), []. split; [reflexivity|exact I].
  - apply (H4 eng (txt "search") h others (txt "$foo_cost"));
      [reflexivity| | |exact Hout].
    + apply holds_rate
        with {| limit := Some (dec 10); rate := RateExpression (txt "$foo_cost") |};
        [now left|reflexivity].
    + split; [exact Hname|]. exists [], []. split; [reflexivity|exact I].
  - apply (H1 eng (txt "transport") f); [reflexivity|].
    intros name Hr. apply traverse_requires in Hr. vm_compute in Hr.
    destruct Hr as [<-|[]]. now left.
  - apply H2. reflexivity.
  - apply H3. reflexivity.
Defined.

(** ** Aggregation over the services *)

Lemma obj_get_set_same (V : Type) (o : obj V) (k : text) (v : V) :
  obj_get (obj_set o k v) k = Some v.
Proof.
  induction o as [|[k' v'] o IH]; simpl.
  - now rewrite text_eqb_refl.
  - destruct (text_eqb k' k) eqn:E; simpl; now rewrite E.
Qed.

Lemma obj_get_set_other (V : Type) (o : obj V) (k k' : text) (v : V) :
  k <> k' -> obj_get (obj_set o k v) k' = obj_get o k'.
Proof.
  intro H. induction o as [|[k0 v0] o IH]; simpl.
  - apply text_eqb_neq in H. now rewrite H.
  - destruct (text_eqb k0 k) eqn:E; simpl.
    + apply text_eqb_eq in E. subst k0. apply text_eqb_neq in H. now rewrite H.
    + destruct (text_eqb k0 k'); [reflexivity|exact IH].
Qed.

Lemma text_eq_dec (a b : text) : {a = b} + {a <> b}.
Proof.
  destruct (text_eqb a b) eqn:E.
  - left. now apply text_eqb_eq.
  - right. now apply text_eqb_neq.
Qed.

Lemma for_of_total (X S : Type) (body : X -> S -> outcome S) (g : X -> S -> S)
      (xs : list X) (s : S) :
  (forall x s, body x s = Returns (g x s)) ->
  for_of xs body s = Returns (fold_left (fun s x => g x s) xs s).
Proof.
  intro H. revert s. induction xs as [|x xs IH]; intro s; simpl; [reflexivity|].
  rewrite H. simpl. apply IH.
Qed.

Section AggregationFacts.

Context {R : JSRuntime}.
Variable eng : engine.
Variable serviceParameters : obj context.

(** Whatever [calculateServiceCost] does, the round for a service
    completes. *)
Lemma serviceStep_completes (serviceType : text) (st : totals) :
  serviceStep eng serviceParameters serviceType st
  = Returns (afterService eng serviceParameters serviceType st).
Proof.
  unfold serviceStep, afterService, serviceEntry, evaluatedCost.
  destruct (checkServiceSupport eng serviceType (currentSystemCosts eng)); simpl.
  - destruct (calculateServiceCost eng serviceType _) as [c|e]; simpl;
      rewrite !app_nil_r; [|reflexivity].
    now destruct (isNaN c).
  - now rewrite app_nil_r.
Qed.

Lemma loop_costs_out (keys : list text) (st : totals) (s : text) :
  ~ In s keys ->
  obj_get (costs (loopFrom eng serviceParameters keys st)) s = obj_get (costs st) s.
Proof.
  revert st. induction keys as [|k keys IH]; intros st Hout; [reflexivity|].
  unfold loopFrom. cbn [fold_left].
  fold (loopFrom eng serviceParameters keys (afterService eng serviceParameters k st)).
  rewrite IH by (intro; apply Hout; now right).
  cbn [costs afterService]. apply obj_get_set_other.
  intro E. apply Hout. now left.
Qed.

Lemma loop_costs_in (keys : list text) (st : totals) (s : text) :
  In s keys ->
  obj_get (costs (loopFrom eng serviceParameters keys st)) s
  = Some (serviceEntry eng serviceParameters s).
Proof.
  revert st. induction keys as [|k keys IH]; intros st H; [destruct H|].
  unfold loopFrom. cbn [fold_left].
  fold (loopFrom eng serviceParameters keys (afterService eng serviceParameters k st)).
  destruct (in_dec text_eq_dec s keys) as [Hin|Hout].
  - now apply IH.
  - destruct H as [->|H]; [|contradiction].
    rewrite loop_costs_out by assumption.
    cbn [costs afterService]. apply obj_get_set_same.
Qed.

Lemma loop_unsupported (keys : list text) (st : totals) (s : text) :
  In s (unsupported (loopFrom eng serviceParameters keys st)) <->
  In s (unsupported st) \/
  (In s keys /\ checkServiceSupport eng s (currentSystemCosts eng) = false).
Proof.
  revert st. induction keys as [|k keys IH]; intro st.
  - simpl. tauto.
  - unfold loopFrom. cbn [fold_left].
    fold (loopFrom eng serviceParameters keys (afterService eng serviceParameters k st)).
    rewrite IH. cbn [unsupported afterService]. rewrite in_app_iff.
    destruct (checkServiceSupport eng k (currentSystemCosts eng)) eqn:E; simpl.
    + split; [intros [[H|[]]|[H1 H2]]; auto|intros [H|[[->|H1] H2]]; auto; congruence].
    + split; [intros [[H|[->|[]]]|[H1 H2]]; auto|intros [H|[[->|H1] H2]]; auto].
Qed.

Lemma loop_supported (keys : list text) (st : totals) (s : text) :
  In s (supported (loopFrom eng serviceParameters keys st)) <->
  In s (supported st) \/
  (In s keys /\ evaluatedCost eng serviceParameters s <> None).
Proof.
  revert st. induction keys as [|k keys IH]; intro st.
  - simpl. tauto.
  - unfold loopFrom. cbn [fold_left].
    fold (loopFrom eng serviceParameters keys (afterService eng serviceParameters k st)).
    rewrite IH. cbn [supported afterService]. rewrite in_app_iff.
    destruct (evaluatedCost eng serviceParameters k) as [c|] eqn:E; simpl.
    + split; [intros [[H|[->|[]]]|[H1 H2]]; auto|intros [H|[[->|H1] H2]]; auto].
      right. split; [now left|congruence].
    + split; [intros [[H|[]]|[H1 H2]]; auto|intros [H|[[->|H1] H2]]; auto; congruence].
Qed.

Lemma loop_running (keys : list text) (st : totals) :
  running (loopFrom eng serviceParameters keys st)
  = fold_left (fun t s => match evaluatedCost eng serviceParameters s with
                          | Some c => if isNaN c then t else add t c
                          | None => t
                          end) keys (running st).
Proof.
  revert st. induction keys as [|k keys IH]; intro st; [reflexivity|].
  unfold loopFrom. cbn [fold_left].
  fold (loopFrom eng serviceParameters keys (afterService eng serviceParameters k st)).
  now rewrite IH.
Qed.

Lemma calculateTotalCost_completes :
  calculateTotalCost eng serviceParameters
  = let st := loopFrom eng serviceParameters (obj_keys (formulas eng)) emptyTotals in
    Returns {| services := costs st;
               total := running st;
               breakdown := generateCostBreakdown (costs st);
               supportedServices := supported st;
               unsupportedServices := unsupported st |}.
Proof.
  unfold calculateTotalCost.
  rewrite (for_of_total _ (afterService eng serviceParameters)) by apply serviceStep_completes.
  reflexivity.
Qed.

End AggregationFacts.

Lemma falsy_formula_supported (eng : engine) (serviceType : text) (comps : context) :
  (forall f, obj_get (formulas eng) serviceType = Some f -> formula_truthy f = false) ->
  checkServiceSupport eng serviceType comps = true.
Proof.
  intro H. unfold checkServiceSupport, getRequiredVariables.
  destruct (obj_get (formulas eng) serviceType) as [f|]; [|reflexivity].
  specialize (H f eq_refl).
  assert (E : traverse f = []).
  { destruct f as [q|s| |b| | | |]; try discriminate H; try reflexivity.
    destruct s; [reflexivity|discriminate H]. }
  now rewrite E.
Qed.

Lemma obj_get_fold_set (V : Type) (entry : text -> V) (keys : list text)
      (o : obj V) (s : text) :
  In s keys ->
  obj_get (fold_left (fun o k => obj_set o k (entry k)) keys o) s = Some (entry s).
Proof.
  revert o. induction keys as [|k keys IH]; intros o H; [destruct H|].
  cbn [fold_left]. destruct (in_dec text_eq_dec s keys) as [Hin|Hout].
  - now apply IH.
  - destruct H as [->|H]; [|contradiction].
    clear IH. revert o. induction keys as [|k keys IH]; intro o.
    + apply obj_get_set_same.
    + cbn [fold_left].
      assert (Hk : k <> s) by (intro E; apply Hout; now left).
      assert (Hout' : ~ In s keys) by (intro E; apply Hout; now right).
      specialize (IH Hout').
      rewrite <- (IH o).
      clear IH. revert Hk Hout'. generalize (obj_set o s (entry s)). generalize o.
      intros o1 o2 Hk Hout'.
      assert (G : forall keys a b, ~ In s keys -> obj_get a s = obj_get b s ->
                  obj_get (fold_left (fun o k => obj_set o k (entry k)) keys a) s
                  = obj_get (fold_left (fun o k => obj_set o k (entry k)) keys b) s).
      { clear. induction keys as [|k keys IH]; intros a b Hout Hab; [exact Hab|].
        cbn [fold_left]. apply IH; [intro E; apply Hout; now right|].
        assert (Hk : k <> s) by (intro E; apply Hout; now left).
        now rewrite !obj_get_set_other. }
      apply G; [assumption|]. now rewrite obj_get_set_other.
Qed.

Lemma legacy_serviceStep_completes {R : JSRuntime} (eng : engine)
      (serviceParameters : obj context) (serviceType : text) (st : Legacy.totals) :
  Legacy.serviceStep eng serviceParameters serviceType st
  = Returns (legacyAfter eng serviceParameters serviceType st).
Proof.
  unfold Legacy.serviceStep, legacyAfter, legacyEntry.
  destruct (Legacy.calculateServiceCost eng serviceType _) as [c|e]; simpl; [|reflexivity].
  now destruct (isNaN c).
Qed.

Lemma legacy_loop_costs {R : JSRuntime} (eng : engine) (serviceParameters : obj context)
      (keys : list text) (st : Legacy.totals) :
  Legacy.costs (fold_left (fun st s => legacyAfter eng serviceParameters s st) keys st)
  = fold_left (fun o k => obj_set o k (legacyEntry eng serviceParameters k)) keys
              (Legacy.costs st).
Proof.
  revert st. induction keys as [|k keys IH]; intro st; [reflexivity|].
  cbn [fold_left]. now rewrite IH.
Qed.

(** C5.  [calculateTotalCost] returns for every engine and every
    parameters, in both versions of the engine.  A service that reaches evaluation and throws there is
    recorded with cost 0 and is in neither list; a service without a
    formula is such a service.  Every service has its entry in the
    services map: null when unsupported, its cost when it evaluates, 0
    when it throws; the total is the sum of the evaluated costs that are
    not NaN. *)
Theorem calculateTotalCost_never_throws :
  (forall (R : JSRuntime) (eng : engine) (serviceParameters : obj context),
   exists r,
    calculateTotalCost eng serviceParameters = Returns r /\
    (forall s e,
        In s (obj_keys (formulas eng)) ->
        checkServiceSupport eng s (currentSystemCosts eng) = true ->
        calculateServiceCost eng s (parametersFor serviceParameters s) = Throws e ->
        obj_get (services r) s = Some (Some zero) /\
        ~ In s (unsupportedServices r) /\ ~ In s (supportedServices r)) /\
    (forall s,
        In s (obj_keys (formulas eng)) ->
        (forall f, obj_get (formulas eng) s = Some f -> formula_truthy f = false) ->
        calculateServiceCost eng s (parametersFor serviceParameters s)
        = Throws (NoFormulaFound s) /\
        obj_get (services r) s = Some (Some zero) /\
        ~ In s (unsupportedServices r)) /\
    (forall s,
        In s (obj_keys (formulas eng)) ->
        obj_get (services r) s = Some (serviceEntry eng serviceParameters s)) /\
    total r = totalOfEvaluated eng serviceParameters (obj_keys (formulas eng))) /\
  (forall (R : JSRuntime) (eng : engine) (serviceParameters : obj context),
   exists r,
    Legacy.calculateTotalCost eng serviceParameters = Returns r /\
    (forall s e,
        In s (obj_keys (formulas eng)) ->
        Legacy.calculateServiceCost eng s (parametersFor serviceParameters s) = Throws e ->
        obj_get (Legacy.services r) s = Some zero) /\
    (forall s,
        In s (obj_keys (formulas eng)) ->
        obj_get (Legacy.services r) s = Some (legacyEntry eng serviceParameters s))).
Proof.
  split.
  2:{ intros R eng p. unfold Legacy.calculateTotalCost.
      rewrite (for_of_total _ (legacyAfter eng p)) by apply legacy_serviceStep_completes.
      eexists. split; [reflexivity|]. cbn [Legacy.services].
      rewrite legacy_loop_costs. cbn [Legacy.costs].
      assert (H : forall s, In s (obj_keys (formulas eng)) ->
                  obj_get (fold_left (fun o k => obj_set o k (legacyEntry eng p k))
                                     (obj_keys (formulas eng)) []) s
                  = Some (legacyEntry eng p s))
        by (intros; now apply obj_get_fold_set).
      split; [|exact H].
      intros s e Hin Hthrow. rewrite H by assumption.
      unfold legacyEntry. now rewrite Hthrow. }
  intros R eng p. rewrite calculateTotalCost_completes. cbv zeta.
  eexists. split; [reflexivity|]. cbn [services total supportedServices unsupportedServices].
  assert (Hthrow : forall s e,
             In s (obj_keys (formulas eng)) ->
             checkServiceSupport eng s (currentSystemCosts eng) = true ->
             calculateServiceCost eng s (parametersFor p s) = Throws e ->
             obj_get (costs (loopFrom eng p (obj_keys (formulas eng)) emptyTotals)) s
             = Some (Some zero) /\
             ~ In s (unsupported (loopFrom eng p (obj_keys (formulas eng)) emptyTotals)) /\
             ~ In s (supported (loopFrom eng p (obj_keys (formulas eng)) emptyTotals))).
  { intros s e Hin Hsup Hthrow. split; [|split].
    - rewrite loop_costs_in by assumption.
      unfold serviceEntry. now rewrite Hsup, Hthrow.
    - rewrite loop_unsupported. intros [[]|[_ H]]. congruence.
    - rewrite loop_supported. intros [[]|[_ H]]. apply H.
      unfold evaluatedCost. now rewrite Hsup, Hthrow. }
  split; [exact Hthrow|]. split; [|split].
  - intros s Hin Hf.
    assert (Hsup := falsy_formula_supported eng s (currentSystemCosts eng) Hf).
    assert (Hno : calculateServiceCost eng s (parametersFor p s) = Throws (NoFormulaFound s)).
    { unfold calculateServiceCost.
      destruct (obj_get (formulas eng) s) as [f|]; [|reflexivity].
      now rewrite (Hf f eq_refl). }
    split; [exact Hno|].
    destruct (Hthrow s _ Hin Hsup Hno) as (H1 & H2 & _). auto.
  - intros s Hin. now apply loop_costs_in.
  - unfold totalOfEvaluated. now rewrite loop_running.
Qed.

(** A witness for C5: a service without a formula and a multiplier formula
    whose base is a number both throw; each is recorded with cost 0 and
    the third service keeps its cost, in both versions of the engine. *)
Lemma calculateTotalCost_never_throws_witness :
  let eng := {| formulas := [(txt "transport", FStr (txt "2*3"));
                             (txt "storage", FNull);
                             (txt "search", FMultiplier (FNum (dec 100)) [])];
                systems := []; variables := []; currentSystemCosts := [] |} in
  (exists r,
      @calculateTotalCost Reference.runtime eng [] = Returns r /\
      obj_get (services r) (txt "storage") = Some (Some zero) /\
      obj_get (services r) (txt "search") = Some (Some zero) /\
      obj_get (services r) (txt "transport") = Some (Some (Fin (dec 6))) /\
      unsupportedServices r = []) /\
  (exists r,
      @Legacy.calculateTotalCost Reference.runtime eng [] = Returns r /\
      obj_get (Legacy.services r) (txt "search") = Some zero /\
      obj_get (Legacy.services r) (txt "transport") = Some (Fin (dec 6))).
Proof.
  intro eng. split.
  - destruct (proj1 calculateTotalCost_never_throws Reference.runtime eng [])
      as (r & Hr & Hthrow & Hmissing & Hall & Htotal).
    exists r. split; [exact Hr|]. split; [|split; [|split]].
    + apply Hmissing.
      * simpl. auto.
      * intros f Hf. vm_compute in Hf. injection Hf as <-. reflexivity.
    + apply (Hthrow (txt "search") TypeError).
      * simpl. auto.
      * reflexivity.
      * reflexivity.
    + rewrite Hall by (simpl; auto). vm_compute. reflexivity.
    + clear - Hr. vm_compute in Hr. injection Hr as <-. reflexivity.
  - destruct (proj2 calculateTotalCost_never_throws Reference.runtime eng [])
      as (r & Hr & Hthrow & Hall).
    exists r. split; [exact Hr|]. split.
    + apply (Hthrow (txt "search") TypeError).
      * simpl. auto.
      * reflexivity.
    + rewrite Hall by (simpl; auto). apply f_equal. by_computation.
Defined.

(** [calculateMultiSystemCosts] returns as well, with one result for each
    system id, in order. *)
Lemma calculateMultiSystemCosts_completes {R : JSRuntime} (eng : engine)
      (systemIds : list text) (serviceParameters : obj context) :
  exists eng' rs,
    calculateMultiSystemCosts eng systemIds serviceParameters = Returns (eng', rs) /\
    map systemId rs = systemIds.
Proof.
  unfold calculateMultiSystemCosts.
  assert (G : forall ids st,
             exists eng' rs,
               for_of ids
                 (fun id st =>
                    bind (calculateTotalCost
                            (setSystemCosts (fst st) id (componentsOf (fst st) id))
                            serviceParameters)
                         (fun r =>
                            Returns (setSystemCosts (fst st) id (componentsOf (fst st) id),
                                     snd st ++ [ {| systemId := id; result := r |} ])))
                 st = Returns (eng', rs) /\
               map systemId rs = map systemId (snd st) ++ ids).
  { induction ids as [|id ids IH]; intros [e rs0].
    - exists e, rs0. split; [reflexivity|]. now rewrite app_nil_r.
    - cbn [for_of fst snd].
      rewrite calculateTotalCost_completes. cbv zeta. cbn [bind].
      match goal with
      | |- context [ {| systemId := id; result := ?x |} ] => set (r := x)
      end.
      destruct (IH (setSystemCosts e id (componentsOf e id),
                    rs0 ++ [ {| systemId := id; result := r |} ])) as (e' & rs & H1 & H2).
      exists e', rs. split; [exact H1|].
      rewrite H2. cbn [snd]. rewrite map_app. cbn [map systemId].
      now rewrite <- app_assoc. }
  destruct (G systemIds (eng, [])) as (e' & rs & H1 & H2).
  exists e', rs. split; assumption.
Qed.

(** ** Combining the results of several systems *)















(** * Further properties of the code *)

(** ** What evaluating a formula throws *)

Lemma formula_induction (P : formula -> Prop) :
  (forall q, P (FNum q)) -> (forall s, P (FStr s)) -> P FNull -> (forall b, P (FBool b)) ->
  (forall v ts, P (FTiered v ts)) ->
  (forall base ms, P (FMultiplier base ms)) ->
  (forall conds els, Forall (fun ct => P (snd ct)) conds -> P els ->
                     P (FConditional conds els)) ->
  (forall ms, Forall (fun kv => P (snd kv)) ms -> P (FObject ms)) ->
  forall f, P f.
Proof.
  intros Hn Hs Hnull Hb Ht Hm Hc Ho. fix IH 1.
  intros [q|s| |b|v ts|base ms|conds els|ms].
  - apply Hn.
  - apply Hs.
  - apply Hnull.
  - apply Hb.
  - apply Ht.
  - apply Hm.
  - apply Hc; [|apply IH].
    induction conds as [|ct conds IHc]; constructor; [apply IH|exact IHc].
  - apply Ho.
    induction ms as [|kv ms IHm]; constructor; [apply IH|exact IHm].
Qed.

Lemma evaluateFormula_object {R : JSRuntime} (members : list (text * formula))
      (ctx : context) :
  evaluateFormula (FObject members) ctx = sumMembers ctx members zero.
Proof.
  cbn [evaluateFormula]. generalize zero.
  induction members as [|[k v] members IH]; intro acc; cbn [sumMembers].
  - reflexivity.
  - destruct v; cbn [evaluateFormula bind]; try apply IH;
      match goal with
      | |- bind ?c _ = bind ?c _ => destruct c; cbn [bind]; [apply IH|reflexivity]
      | _ => idtac
      end.
Qed.

Lemma evaluateClause_cases {R : JSRuntime} (c : formula) (ctx : context) :
  (exists v, evaluateClause c ctx = Returns v) \/
  evaluateClause c ctx = evaluateFormula c ctx.
Proof. destruct c; simpl; eauto. Qed.

(** The only exception [evaluateFormula] raises is the type error of a
    multiplier formula whose base is not a string. *)
Lemma evaluateFormula_throws {R : JSRuntime} (f : formula) (ctx : context) (e : exn) :
  evaluateFormula f ctx = Throws e -> e = TypeError.
Proof.
  revert e. induction f as [q|s| |b|v ts|base ms|conds els IHc IHe|ms IHm]
    using formula_induction; intros e H.
  - discriminate H.
  - cbn [evaluateFormula] in H. destruct (starts_with (txt "$") s); discriminate H.
  - discriminate H.
  - discriminate H.
  - discriminate H.
  - cbn [evaluateFormula] in H. unfold evaluateMultiplierFormula in H.
    destruct base; try discriminate H; now injection H as <-.
  - rewrite evaluateFormula_conditional in H. unfold evaluateConditionalFormula in H.
    induction IHc as [|[c thn] conds Hthn _ IH]; cbn [conditionLoop] in H.
    + destruct (formula_truthy els); [|discriminate H].
      destruct (evaluateClause_cases els ctx) as [[v E]|E]; rewrite E in H;
        [discriminate H|now apply IHe].
    + destruct (evaluateCondition c ctx); [|now apply IH].
      destruct (evaluateClause_cases thn ctx) as [[v E]|E]; rewrite E in H;
        [discriminate H|now apply Hthn].
  - rewrite evaluateFormula_object in H. revert H. generalize zero.
    induction IHm as [|[k v] ms Hv _ IH]; intros acc H; cbn [sumMembers] in H.
    + discriminate H.
    + cbn [snd] in Hv. destruct (evaluateFormula v ctx) as [x|e'] eqn:E; cbn [bind] in H.
      * now apply (IH (add acc x)).
      * injection H as <-. now apply Hv.
Qed.

(** With strings as the bases of its multiplier formulas, a formula
    evaluates. *)
Lemma evaluateFormula_returns {R : JSRuntime} (f : formula) (ctx : context) :
  wellFormed f = true -> exists v, evaluateFormula f ctx = Returns v.
Proof.
  induction f as [q|s| |b|v ts|base ms|conds els IHc IHe|ms IHm]
    using formula_induction; intro H.
  - eexists; reflexivity.
  - cbn [evaluateFormula]. destruct (starts_with (txt "$") s); eexists; reflexivity.
  - eexists; reflexivity.
  - eexists; reflexivity.
  - eexists; reflexivity.
  - cbn [evaluateFormula]. destruct base; try discriminate H. eexists; reflexivity.
  - rewrite evaluateFormula_conditional. unfold evaluateConditionalFormula.
    cbn [wellFormed] in H. apply andb_true_iff in H. destruct H as [Hc He].
    induction IHc as [|[c thn] conds Hthn _ IH]; cbn [conditionLoop].
    + destruct (formula_truthy els); [|eexists; reflexivity].
      destruct (evaluateClause_cases els ctx) as [[v E]|E]; rewrite E; eauto.
    + cbn [forallb snd] in Hc. apply andb_true_iff in Hc. destruct Hc as [Hc1 Hc2].
      destruct (evaluateCondition c ctx); [|now apply IH].
      destruct (evaluateClause_cases thn ctx) as [[v E]|E]; rewrite E; eauto.
  - rewrite evaluateFormula_object. cbn [wellFormed] in H.
    apply andb_true_iff in H. destruct H as [_ H]. generalize zero.
    induction IHm as [|[k v] ms Hv _ IH]; intro acc; cbn [sumMembers].
    + eexists; reflexivity.
    + cbn [forallb snd] in H, Hv. apply andb_true_iff in H. destruct H as [H1 H2].
      destruct (Hv H1) as [x E]. rewrite E. cbn [bind]. now apply IH.
Qed.

(** X1.  On formulas of the shapes the engine tells apart,
    [evaluateFormula] raises nothing but the type error of a multiplier
    formula whose base is not a string: what it throws is that error, and
    the formula is then not well formed.  A well-formed formula, one whose
    multiplier formulas have strings as their bases at every depth and
    whose summed objects are untyped, evaluates in every context. *)
Theorem evaluateFormula_only_type_errors :
  forall (R : JSRuntime) (f : formula) (ctx : context),
    (forall e, evaluateFormula f ctx = Throws e ->
               e = TypeError /\ wellFormed f = false) /\
    (wellFormed f = true -> exists v, evaluateFormula f ctx = Returns v).
Proof.
  intros R f ctx. split.
  - intros e H. split; [exact (evaluateFormula_throws f ctx H)|].
    destruct (wellFormed f) eqn:E; [|reflexivity].
    destruct (evaluateFormula_returns f ctx E) as [v Hv]. congruence.
  - apply evaluateFormula_returns.
Qed.

(** A witness for X1: a conditional formula with a multiplier formula inside
    an object evaluates; an object with a multiplier formula whose base is a
    number throws and is not well formed. *)
Lemma evaluateFormula_only_type_errors_witness :
  let nested :=
    FConditional [(when "x" ">" 1, FObject [(txt "a", FMultiplier (FStr (txt "2*3")) []);
                                             (txt "b", FNum (dec 1))])]
                 (FStr (txt "4")) in
  let broken := FObject [(txt "a", FNum (dec 1)); (txt "b", FMultiplier (FNum (dec 2)) [])] in
  (exists v, @evaluateFormula Reference.runtime nested [(txt "x", Some (dec 2))] = Returns v) /\
  wellFormed broken = false.
Proof.
  intros nested broken. split.
  - apply (proj2 (evaluateFormula_only_type_errors Reference.runtime nested
                    [(txt "x", Some (dec 2))])).
    reflexivity.
  - apply (proj1 (evaluateFormula_only_type_errors Reference.runtime broken []) TypeError).
    reflexivity.
Defined.

(** X2.  [calculateServiceCost] throws the error of a missing formula
    exactly when the service has no formula or a falsy one: the number 0,
    the empty string, null or false.  Whatever else it throws is the type
    error of [evaluateFormula]. *)
Theorem calculateServiceCost_no_formula :
  forall (R : JSRuntime) (eng : engine) (serviceType : text) (parameters : context),
    (calculateServiceCost eng serviceType parameters = Throws (NoFormulaFound serviceType) <->
     forall f, obj_get (formulas eng) serviceType = Some f ->
               In f [FNum 0%Qc; FStr []; FNull; FBool false]) /\
    (forall e, calculateServiceCost eng serviceType parameters = Throws e ->
               e = NoFormulaFound serviceType \/ e = TypeError).
Proof.
  intros R eng s p.
  assert (F : forall f, formula_truthy f = false <-> In f [FNum 0%Qc; FStr []; FNull; FBool false]).
  { intro f. split.
    - destruct f as [q|t| |b| | | |]; cbn [formula_truthy]; intro H; try discriminate H.
      + apply negb_false_iff, Qceqb_eq in H. subst. simpl. auto.
      + destruct t; [simpl; auto|discriminate H].
      + simpl. auto.
      + subst. simpl. auto.
    - intros [<-|[<-|[<-|[<-|[]]]]]; reflexivity. }
  unfold calculateServiceCost. split.
  - split.
    + intros H f Hf. rewrite Hf in H. apply F.
      destruct (formula_truthy f); [|reflexivity].
      apply evaluateFormula_throws in H. discriminate H.
    + intro H. destruct (obj_get (formulas eng) s) as [f|]; [|reflexivity].
      now rewrite (proj2 (F f) (H f eq_refl)).
  - intros e H. destruct (obj_get (formulas eng) s) as [f|].
    + destruct (formula_truthy f).
      * right. exact (evaluateFormula_throws _ _ H).
      * left. now injection H as <-.
    + left. now injection H as <-.
Qed.

(** A witness for X2: a service priced at the constant 0 is reported as
    having no formula, as an absent service is. *)
Lemma calculateServiceCost_no_formula_witness :
  let eng := {| formulas := [(txt "free", FNum 0%Qc); (txt "paid", FNum (dec 5))];
                systems := []; variables := []; currentSystemCosts := [] |} in
  @calculateServiceCost Reference.runtime eng (txt "free") []
  = Throws (NoFormulaFound (txt "free")) /\
  @calculateServiceCost Reference.runtime eng (txt "absent") []
  = Throws (NoFormulaFound (txt "absent")).
Proof.
  intro eng. split.
  - apply (proj1 (calculateServiceCost_no_formula Reference.runtime eng (txt "free") [])).
    intros f Hf. vm_compute in Hf. injection Hf as <-. simpl. auto.
  - apply (proj1 (calculateServiceCost_no_formula Reference.runtime eng (txt "absent") [])).
    intros f Hf. vm_compute in Hf. discriminate Hf.
Defined.

(** ** Formula strings that begin with the sigil *)

Lemma obj_get_not_key (V : Type) (o : obj V) (k : text) :
  ~ In k (obj_keys o) -> obj_get o k = None.
Proof.
  intro H. destruct (obj_get o k) eqn:E; [|reflexivity].
  exfalso. apply H. apply obj_has_keys. unfold obj_has. now rewrite E.
Qed.

Lemma ctx_or_bound (ctx : context) (k : text) (q : Qc) :
  obj_get ctx k = Some (Some q) -> ctx_or ctx k 0 = q.
Proof.
  intro H. unfold ctx_or. rewrite H.
  destruct (Qceqb q 0) eqn:E; [|reflexivity]. apply Qceqb_eq in E. now subst.
Qed.

(** X3.  A formula string that begins with the sigil is a lookup, not an
    expression.  The runtime is not consulted; a name bound to a number
    gives that number; and when the keys of the context are identifiers, a
    string with anything but one identifier behind the sigil, such as
    [$a * 2], gives 0. *)
Theorem reference_formula_is_a_lookup :
  (forall (R1 R2 : JSRuntime) (name : text) (ctx : context),
      @evaluateFormula R1 (FStr ("$"%char :: name)) ctx
      = @evaluateFormula R2 (FStr ("$"%char :: name)) ctx) /\
  (forall (R : JSRuntime) (name : text) (ctx : context) (q : Qc),
      obj_get ctx name = Some (Some q) ->
      evaluateFormula (FStr ("$"%char :: name)) ctx = Returns (Fin q)) /\
  (forall (R : JSRuntime) (rest : text) (ctx : context),
      Forall identifier (obj_keys ctx) -> ~ identifier rest ->
      evaluateFormula (FStr ("$"%char :: rest)) ctx = Returns zero).
Proof.
  split; [|split].
  - reflexivity.
  - intros R name ctx q H. cbn [evaluateFormula].
    change (starts_with (txt "$") ("$"%char :: name)) with true. cbn [skipn].
    now rewrite (ctx_or_bound _ _ H).
  - intros R rest ctx Hk Hr. cbn [evaluateFormula].
    change (starts_with (txt "$") ("$"%char :: rest)) with true. cbn [skipn].
    rewrite ctx_or_absent; [reflexivity|].
    apply obj_get_not_key. intro Hin.
    apply Hr. rewrite Forall_forall in Hk. now apply Hk.
Qed.

(** A witness for X3: with [a] bound to 5, the formula [$a * 2] gives 0 and the
    formula [$a] gives 5. *)
Lemma reference_formula_is_a_lookup_witness :
  let ctx := [(txt "a", Some (dec 5))] in
  @evaluateFormula Reference.runtime (FStr (txt "$a * 2")) ctx = Returns zero /\
  @evaluateFormula Reference.runtime (FStr (txt "$a")) ctx = Returns (Fin (dec 5)).
Proof.
  intro ctx. destruct reference_formula_is_a_lookup as (_ & Hbound & Hrest). split.
  - apply (Hrest Reference.runtime (txt "a * 2") ctx).
    + repeat constructor; try discriminate; reflexivity.
    + intros [_ H]. rewrite Forall_forall in H.
      assert (W : is_word " "%char = true) by (apply H; simpl; auto).
      discriminate W.
  - apply (Hbound Reference.runtime (txt "a") ctx (dec 5)). reflexivity.
Defined.

(** ** Objects without a known type *)

Lemma sumMembers_values {R : JSRuntime} (ctx : context) (members : list (text * formula))
      (values : list num) (acc : num) :
  Forall2 (fun kv v => evaluateFormula (snd kv) ctx = Returns v) members values ->
  sumMembers ctx members acc = Returns (fold_left add values acc).
Proof.
  intro H. revert acc. induction H as [|[k f] v members values Hv _ IH]; intro acc.
  - reflexivity.
  - cbn [sumMembers fold_left]. cbn [snd] in Hv. rewrite Hv. cbn [bind]. apply IH.
Qed.

(** X4.  An object without a known type evaluates to the sum of the
    values of its members, added from the left to 0; when a member throws
    and the members before it evaluate, the object throws the same. *)
Theorem object_formula_sums_its_members :
  forall (R : JSRuntime) (ctx : context),
    (forall (members : list (text * formula)) (values : list num),
        untyped members = true ->
        Forall2 (fun kv v => evaluateFormula (snd kv) ctx = Returns v) members values ->
        evaluateFormula (FObject members) ctx = Returns (sum values)) /\
    (forall (pre post : list (text * formula)) (k : text) (f : formula)
            (values : list num) (e : exn),
        untyped (pre ++ (k, f) :: post) = true ->
        Forall2 (fun kv v => evaluateFormula (snd kv) ctx = Returns v) pre values ->
        evaluateFormula f ctx = Throws e ->
        evaluateFormula (FObject (pre ++ (k, f) :: post)) ctx = Throws e).
Proof.
  intros R ctx. split.
  - intros members values _ H. rewrite evaluateFormula_object.
    now apply sumMembers_values.
  - intros pre post k f values e _ Hpre Hf. rewrite evaluateFormula_object.
    generalize zero. induction Hpre as [|[k' f'] v pre values Hv _ IH]; intro acc.
    + cbn [app sumMembers]. now rewrite Hf.
    + cbn [app sumMembers]. cbn [snd] in Hv. rewrite Hv. cbn [bind]. apply IH.
Qed.

(** A witness for X4: a number, an expression and a label sum to 10 + 8 + 0;
    an object with a multiplier formula whose base is a number throws its
    type error. *)
Lemma object_formula_sums_its_members_witness :
  let ctx := [(txt "n", Some (dec 4))] in
  @evaluateFormula Reference.runtime
    (FObject [(txt "setup", FNum (dec 10)); (txt "usage", FStr (txt "2 * $n"));
              (txt "label", FStr (txt "monthly"))]) ctx
  = Returns (sum [Fin (dec 10); Fin (dec 8); zero]) /\
  @evaluateFormula Reference.runtime
    (FObject [(txt "setup", FNum (dec 10)); (txt "scaled", FMultiplier (FNum (dec 2)) []);
              (txt "usage", FNum (dec 1))]) ctx
  = Throws TypeError.
Proof.
  intro ctx. split.
  - apply (proj1 (object_formula_sums_its_members Reference.runtime ctx)); [reflexivity|].
    repeat (apply Forall2_cons; [cbn [snd]|]); [| | |apply Forall2_nil].
    + reflexivity.
    + vm_compute. apply f_equal. by_computation.
    + vm_compute. apply f_equal. by_computation.
  - apply (proj2 (object_formula_sums_its_members Reference.runtime ctx)
             [(txt "setup", FNum (dec 10))] [(txt "usage", FNum (dec 1))]
             (txt "scaled") (FMultiplier (FNum (dec 2)) []) [Fin (dec 10)] TypeError).
    + reflexivity.
    + repeat constructor.
    + reflexivity.
Defined.

(** ** Conditions *)

Lemma Qcleb_negb_ltb (x y : Qc) : Qcleb x y = negb (Qcltb y x).
Proof.
  unfold Qcleb, Qcltb, Qccompare. rewrite <- (Qcompare_antisym y x).
  destruct (y ?= x)%Q; reflexivity.
Qed.

Lemma Qcleb_ltb_eqb (x y : Qc) : Qcleb x y = Qcltb x y || Qceqb y x.
Proof.
  unfold Qcleb, Qcltb, Qceqb, Qccompare. rewrite <- (Qcompare_antisym x y).
  destruct (x ?= y)%Q; reflexivity.
Qed.

(** X5.  The operators of [evaluateCondition], for a condition whose
    value is a finite number and a context that binds finite numbers, as
    conditions and contexts are typed here: [<=] holds exactly when [>]
    fails, [>=] exactly when [<] fails, [!=] exactly when [==] fails, and
    [>=] is [>] or [==].  A condition whose operator is none of the six
    never holds.  A variable that the context does not bind, or binds to
    null, is compared as 0. *)
Theorem evaluateCondition_operators :
  forall (c : condition) (ctx : context),
    evaluateCondition (withOperator c "<=") ctx
    = negb (evaluateCondition (withOperator c ">") ctx) /\
    evaluateCondition (withOperator c ">=") ctx
    = negb (evaluateCondition (withOperator c "<") ctx) /\
    evaluateCondition (withOperator c "!=") ctx
    = negb (evaluateCondition (withOperator c "==") ctx) /\
    evaluateCondition (withOperator c ">=") ctx
    = (evaluateCondition (withOperator c ">") ctx ||
       evaluateCondition (withOperator c "==") ctx) /\
    (~ In (operator c) operators -> evaluateCondition c ctx = false) /\
    (obj_get ctx (cond_variable c) = None \/ obj_get ctx (cond_variable c) = Some None ->
     evaluateCondition c ctx = evaluateCondition c [(cond_variable c, Some 0%Qc)]).
Proof.
  intros c ctx. split; [|split; [|split; [|split; [|split]]]];
    unfold evaluateCondition, withOperator; cbn [cond_variable operator value];
    repeat match goal with
           | |- context [text_eqb (txt ?a) (txt ?b)] =>
               let v := eval vm_compute in (text_eqb (txt a) (txt b)) in
               change (text_eqb (txt a) (txt b)) with v
           end;
    cbv iota.
  - apply Qcleb_negb_ltb.
  - apply Qcleb_negb_ltb.
  - reflexivity.
  - apply Qcleb_ltb_eqb.
  - intro H.
    repeat match goal with
           | |- context [text_eqb (operator c) ?t] =>
               destruct (text_eqb (operator c) t) eqn:?E;
               [apply text_eqb_eq in E; exfalso; apply H; rewrite E; simpl; tauto|clear E]
           end.
    reflexivity.
  - intro H.
    assert (E : ctx_or ctx (cond_variable c) 0
                = ctx_or [(cond_variable c, Some 0%Qc)] (cond_variable c) 0).
    { unfold ctx_or at 2. cbn [obj_get]. rewrite text_eqb_refl. cbn.
      unfold ctx_or. now destruct H as [-> | ->]. }
    now rewrite E.
Qed.

(** A witness for X5: at [x] = 5 the condition [x <= 3] fails, as [x > 3]
    holds; the operator [=] is not known, so [x = 5] fails; [y], which the
    context does not bind, is below 1. *)
Lemma evaluateCondition_operators_witness :
  let ctx := [(txt "x", Some (dec 5))] in
  evaluateCondition (when "x" "<=" 3) ctx = false /\
  evaluateCondition (when "x" "=" 5) ctx = false /\
  evaluateCondition (when "y" "<" 1) ctx = true.
Proof.
  intro ctx. split; [|split].
  - etransitivity;
      [exact (proj1 (evaluateCondition_operators (when "x" "<=" 3) ctx))|reflexivity].
  - apply (proj1 (proj2 (proj2 (proj2 (proj2
             (evaluateCondition_operators (when "x" "=" 5) ctx)))))).
    intro H. vm_compute in H.
    repeat (destruct H as [H|H]; [discriminate H|]). exact H.
  - etransitivity;
      [apply (proj2 (proj2 (proj2 (proj2 (proj2
                (evaluateCondition_operators (when "y" "<" 1) ctx))))));
       left; reflexivity
      |reflexivity].
Defined.

(** ** Variables and the context of a service *)

Lemma ctx_or_set_same (ctx : context) (k : text) (v : option Qc) :
  ctx_or (obj_set ctx k v) k 0 = match v with Some q => q | None => 0%Qc end.
Proof.
  unfold ctx_or. rewrite obj_get_set_same. destruct v as [q|]; [|reflexivity].
  destruct (Qceqb q 0) eqn:E; [|reflexivity]. apply Qceqb_eq in E. now subst.
Qed.

(** X6.  [getVariable] after [setVariable]: the variable just set reads
    as its value, as 0 when the value is null; every other variable reads
    as before; a variable that was never set reads 0; the formulas and the
    system costs are untouched. *)
Theorem getVariable_after_setVariable :
  forall (eng : engine) (name : text) (v : option Qc),
    getVariable (setVariable eng name v) name
    = match v with Some q => q | None => 0%Qc end /\
    (forall other, other <> name ->
                   getVariable (setVariable eng name v) other = getVariable eng other) /\
    (obj_get (variables eng) name = None -> getVariable eng name = 0%Qc) /\
    formulas (setVariable eng name v) = formulas eng /\
    currentSystemCosts (setVariable eng name v) = currentSystemCosts eng.
Proof.
  intros eng name v. unfold getVariable, setVariable. cbn [variables formulas currentSystemCosts].
  split; [apply ctx_or_set_same|]. split; [|split; [|split; reflexivity]].
  - intros other H. unfold ctx_or. rewrite obj_get_set_other; [reflexivity|].
    intro E. apply H. now symmetry.
  - apply ctx_or_absent.
Qed.

(** A witness for X6: setting [volume] leaves [hours] at 10, and [volume]
    reads 0 before it is set. *)
Lemma getVariable_after_setVariable_witness :
  let eng := {| formulas := []; systems := [];
                variables := [(txt "hours", Some (dec 10))]; currentSystemCosts := [] |} in
  getVariable (setVariable eng (txt "volume") (Some (dec 7))) (txt "hours") = dec 10 /\
  getVariable eng (txt "volume") = 0%Qc.
Proof.
  intro eng.
  destruct (getVariable_after_setVariable eng (txt "volume") (Some (dec 7)))
    as (_ & Hother & Hmissing & _).
  split.
  - rewrite Hother; [reflexivity|discriminate].
  - apply Hmissing. reflexivity.
Defined.

Lemma obj_get_spread (V : Type) (target source : obj V) (k : text) :
  NoDup (obj_keys source) ->
  obj_get (obj_spread target source) k
  = match obj_get source k with
    | Some v => Some v
    | None => obj_get target k
    end.
Proof.
  unfold obj_spread. intro H. revert target.
  induction source as [|[k0 v0] source IH]; intro target; cbn [fold_left fst snd].
  - reflexivity.
  - cbn [obj_keys map fst] in H. inversion H as [|? ? Hnot Hrest]; subst.
    rewrite (IH Hrest). cbn [obj_get].
    destruct (text_eqb k0 k) eqn:E.
    + apply text_eqb_eq in E. subst k0.
      rewrite obj_get_not_key by exact Hnot. apply obj_get_set_same.
    + apply text_eqb_neq in E. now rewrite obj_get_set_other.
Qed.

(** X7.  The context in which [calculateServiceCost] evaluates a
    formula, for objects with distinct keys: a key is read from the
    parameters when they have it, else from the variables, else from the
    current system costs.  A parameter bound to null hides a variable of
    the same name. *)
Theorem serviceContext_precedence :
  forall (eng : engine) (parameters : context) (k : text),
    NoDup (obj_keys (currentSystemCosts eng)) ->
    NoDup (obj_keys (variables eng)) ->
    NoDup (obj_keys parameters) ->
    obj_get (serviceContext eng parameters) k
    = match obj_get parameters k with
      | Some v => Some v
      | None =>
          match obj_get (variables eng) k with
          | Some v => Some v
          | None => obj_get (currentSystemCosts eng) k
          end
      end.
Proof.
  intros eng p k Hs Hv Hp. unfold serviceContext.
  rewrite !obj_get_spread by assumption. cbn [obj_get].
  now destruct (obj_get (currentSystemCosts eng) k).
Qed.

(** A witness for X7: the variable [rate] hides the system cost [rate], the
    parameter [hours], which is null, hides the variable [hours], and
    [base_cost] comes from the system. *)
Lemma serviceContext_precedence_witness :
  let eng := {| formulas := []; systems := [];
                variables := [(txt "rate", Some (dec 2)); (txt "hours", Some (dec 10))];
                currentSystemCosts := [(txt "rate", Some (dec 1));
                                       (txt "base_cost", Some (dec 50))] |} in
  let parameters := [(txt "hours", None)] in
  obj_get (serviceContext eng parameters) (txt "rate") = Some (Some (dec 2)) /\
  obj_get (serviceContext eng parameters) (txt "hours") = Some None /\
  obj_get (serviceContext eng parameters) (txt "base_cost") = Some (Some (dec 50)).
Proof.
  intros eng parameters.
  assert (H : forall k, obj_get (serviceContext eng parameters) k = _)
    by (intro k; apply (serviceContext_precedence eng parameters k);
        repeat constructor; simpl; intuition discriminate).
  rewrite !H. repeat split.
Defined.

(** ** The breakdown of a result *)

Lemma insertByCost_perm (x : breakdownEntry) (l : list breakdownEntry) :
  Permutation (insertByCost x l) (x :: l).
Proof.
  induction l as [|y l IH]; cbn [insertByCost]; [reflexivity|].
  destruct (gtb (sub (cost x) (cost y)) zero); [reflexivity|].
  rewrite IH. apply perm_swap.
Qed.

Lemma sortFrom_perm (l sorted : list breakdownEntry) :
  Permutation (fold_left (fun sorted x => insertByCost x sorted) l sorted) (sorted ++ l).
Proof.
  revert sorted. induction l as [|x l IH]; intro sorted; cbn [fold_left].
  - now rewrite app_nil_r.
  - rewrite IH, insertByCost_perm. apply Permutation_middle.
Qed.

Lemma sortByCost_perm (l : list breakdownEntry) : Permutation (sortByCost l) l.
Proof. unfold sortByCost. now rewrite sortFrom_perm. Qed.

Lemma gtb_difference (a b : Qc) :
  gtb (sub (Fin a) (Fin b)) zero = Qcltb b a.
Proof.
  unfold gtb, sub, zero. cbn [neg add ltb].
  destruct (Qcltb b a) eqn:E.
  - apply Qcltb_lt in E. apply Qcltb_lt. qc_to_q. lra.
  - apply Qcltb_ge in E. apply Qcltb_ge. qc_to_q. lra.
Qed.

Lemma at_least_finite (a b : Qc) : at_least (Fin a) (Fin b) <-> (b <= a)%Qc.
Proof.
  split.
  - intros (x & y & Hx & Hy & H). injection Hx as <-. injection Hy as <-. exact H.
  - intro H. exists a, b. auto.
Qed.

Lemma insertByCost_descending (x : breakdownEntry) (l : list breakdownEntry) :
  finite (cost x) -> Forall (fun e => finite (cost e)) l ->
  descending l -> descending (insertByCost x l).
Proof.
  intros [a Ha] Hl Hs. unfold descending in *.
  induction Hs as [|y l Hs IH Hy]; cbn [insertByCost].
  - repeat constructor.
  - inversion Hl as [|? ? [b Hb] Hl']; subst.
    rewrite Ha, Hb, gtb_difference.
    destruct (Qcltb b a) eqn:E.
    + apply Qcltb_lt in E. constructor; [now constructor|].
      constructor.
      * rewrite Ha, Hb. apply at_least_finite. now apply Qclt_le_weak.
      * rewrite Forall_forall in *. intros z Hz.
        destruct (Hy z Hz) as (b' & c & Hb' & Hc & Hle).
        rewrite Ha, Hc. apply at_least_finite.
        rewrite Hb in Hb'. injection Hb' as <-.
        apply Qcle_trans with b; [assumption|now apply Qclt_le_weak].
    + apply Qcltb_ge in E. constructor; [now apply IH|].
      rewrite Forall_forall. intros z Hz.
      apply (Permutation_in _ (insertByCost_perm x l)) in Hz.
      destruct Hz as [<-|Hz].
      * rewrite Ha, Hb. now apply at_least_finite.
      * rewrite Forall_forall in Hy. now apply Hy.
Qed.

Lemma sortFrom_descending (l sorted : list breakdownEntry) :
  Forall (fun e => finite (cost e)) l -> Forall (fun e => finite (cost e)) sorted ->
  descending sorted ->
  descending (fold_left (fun sorted x => insertByCost x sorted) l sorted).
Proof.
  intro Hl. revert sorted. induction Hl as [|x l Hx Hl IH]; intros sorted Hf Hs.
  - exact Hs.
  - cbn [fold_left]. apply IH.
    + apply (Permutation_Forall (Permutation_sym (insertByCost_perm x sorted))).
      now constructor.
    + now apply insertByCost_descending.
Qed.

Lemma sortByCost_descending (l : list breakdownEntry) :
  Forall (fun e => finite (cost e)) l -> descending (sortByCost l).
Proof.
  intro H. apply sortFrom_descending; [assumption|constructor|constructor].
Qed.

Lemma sum_from (l : list Qc) (a : Qc) :
  fold_left add (map Fin l) (Fin a) = Fin (a + Qcsum l)%Qc.
Proof.
  revert a. induction l as [|q l IH]; intro a; cbn [map fold_left Qcsum].
  - f_equal. ring.
  - cbn [add]. rewrite IH. f_equal. ring.
Qed.

Lemma sum_finite (l : list Qc) : sum (map Fin l) = Fin (Qcsum l).
Proof. unfold sum, zero. rewrite sum_from. f_equal. ring. Qed.

Lemma Qcsum_perm (l l' : list Qc) : Permutation l l' -> Qcsum l = Qcsum l'.
Proof.
  induction 1; cbn [Qcsum]; try congruence; ring.
Qed.

Lemma Qcsum_scaled (l : list Qc) (k : Qc) :
  Qcsum (map (fun q => q * k)%Qc l) = (Qcsum l * k)%Qc.
Proof.
  induction l as [|q l IH]; cbn [map Qcsum]; [ring|]. rewrite IH. ring.
Qed.

Lemma finite_list (l : list num) : Forall finite l -> exists qs, l = map Fin qs.
Proof.
  induction 1 as [|c l [q ->] _ (qs & ->)].
  - now exists [].
  - now exists (q :: qs).
Qed.

Lemma fold_add_costs (entries : list breakdownEntry) (acc : num) :
  fold_left (fun s item => add s (cost item)) entries acc
  = fold_left add (map cost entries) acc.
Proof.
  revert acc. induction entries as [|e entries IH]; intro acc; [reflexivity|].
  cbn [fold_left map]. apply IH.
Qed.

Lemma entries_of_priced (A : Type) (g : breakdownEntry -> A) (costs : obj (option num)) :
  map g (flat_map (fun kv => match snd kv with
                             | Some c => [ {| service := fst kv; cost := c;
                                               percentage := zero |} ]
                             | None => []
                             end) costs)
  = map (fun sc => g {| service := fst sc; cost := snd sc; percentage := zero |})
        (pricedEntries costs).
Proof.
  unfold pricedEntries. induction costs as [|[k [c|]] costs IH]; cbn; [reflexivity| |exact IH].
  now rewrite IH.
Qed.

(** The breakdown is the sorted list of the shares of the priced
    services. *)
Lemma generateCostBreakdown_shares (costs : obj (option num)) :
  generateCostBreakdown costs
  = sortByCost (map (shareOf (sum (map snd (pricedEntries costs)))) (pricedEntries costs)).
Proof.
  unfold generateCostBreakdown. cbv zeta. f_equal.
  rewrite fold_add_costs, !entries_of_priced. cbn [service cost].
  reflexivity.
Qed.

Lemma shares_entries (total : num) (l : list (text * num)) :
  map (fun e => (service e, cost e)) (map (shareOf total) l) = l.
Proof.
  induction l as [|[s c] l IH]; cbn; [reflexivity|]. now rewrite IH.
Qed.

Lemma in_pricedEntries (costs : obj (option num)) (s : text) (c : num) :
  In (s, c) (pricedEntries costs) <-> In (s, Some c) costs.
Proof.
  unfold pricedEntries. rewrite in_flat_map. split.
  - intros ([k [c'|]] & Hin & H); cbn in H; [|destruct H].
    destruct H as [H|[]]. now injection H as <- <-.
  - intro H. exists (s, Some c). split; [assumption|]. cbn. auto.
Qed.

(** X8.  The breakdown lists the services that have a cost, each once
    and with its cost: its entries are a permutation of the entries of the
    services map that are not null.  A service recorded as null has no
    entry; a service with cost 0 has one. *)
Theorem generateCostBreakdown_entries :
  forall (costs : obj (option num)),
    Permutation (map (fun e => (service e, cost e)) (generateCostBreakdown costs))
                (pricedEntries costs) /\
    (forall s c, (exists p, In {| service := s; cost := c; percentage := p |}
                               (generateCostBreakdown costs)) <->
                 In (s, Some c) costs) /\
    (forall s, In (s, None) costs -> NoDup (obj_keys costs) ->
               ~ In s (map service (generateCostBreakdown costs))).
Proof.
  intro costs.
  assert (P : Permutation (map (fun e => (service e, cost e)) (generateCostBreakdown costs))
                          (pricedEntries costs)).
  { rewrite generateCostBreakdown_shares.
    rewrite (Permutation_map _ (sortByCost_perm _)). now rewrite shares_entries. }
  assert (M : forall s c, (exists p, In {| service := s; cost := c; percentage := p |}
                               (generateCostBreakdown costs)) <->
                 In (s, Some c) costs).
  { intros s c. rewrite <- in_pricedEntries. split.
    - intros [p H]. apply (Permutation_in _ P).
      apply in_map_iff. eexists. split; [|exact H]. reflexivity.
    - intro H. apply (Permutation_in _ (Permutation_sym P)) in H.
      apply in_map_iff in H. destruct H as ([s' c' p] & E & H).
      cbn in E. injection E as -> ->. now exists p. }
  split; [exact P|]. split; [exact M|].
  intros s Hnull Hkeys Hin.
  apply in_map_iff in Hin. destruct Hin as ([s' c p] & E & Hin). cbn in E. subst s'.
  assert (Hc : In (s, Some c) costs) by (apply M; now exists p).
  clear - Hnull Hkeys Hc. unfold obj_keys in Hkeys.
  induction costs as [|[k v] costs IH]; [destruct Hc|].
  cbn [map fst] in Hkeys. inversion Hkeys as [|? ? Hnot Hrest]; subst.
  destruct Hnull as [E1|Hnull]; destruct Hc as [E2|Hc].
  - congruence.
  - injection E1 as -> _. apply Hnot. apply in_map_iff. now exists (s, Some c).
  - injection E2 as -> _. apply Hnot. apply in_map_iff. now exists (s, None).
  - now apply IH.
Qed.

(** A witness for X8: the unsupported storage has no entry, the search at
    cost 0 has one. *)
Lemma generateCostBreakdown_entries_witness :
  let costs := [(txt "transport", Some (Fin (dec 5))); (txt "storage", None);
                (txt "search", Some zero)] in
  ~ In (txt "storage") (map service (generateCostBreakdown costs)) /\
  exists p, In {| service := txt "search"; cost := zero; percentage := p |}
               (generateCostBreakdown costs).
Proof.
  intro costs. destruct (generateCostBreakdown_entries costs) as (_ & Hin & Hnull). split.
  - apply Hnull.
    + simpl. auto.
    + repeat constructor; simpl; intuition discriminate.
  - apply Hin. simpl. auto.
Defined.

(** X9.  When the costs are finite the breakdown is in the order of
    descending cost. *)
Theorem generateCostBreakdown_descending :
  forall (costs : obj (option num)),
    Forall (fun sc => finite (snd sc)) (pricedEntries costs) ->
    descending (generateCostBreakdown costs).
Proof.
  intros costs H. rewrite generateCostBreakdown_shares.
  apply sortByCost_descending. rewrite Forall_map. exact H.
Qed.

(** A witness for X9: costs 5 and 9, and one service without support. *)
Lemma generateCostBreakdown_descending_witness :
  descending (generateCostBreakdown
                [(txt "transport", Some (Fin (dec 5))); (txt "storage", None);
                 (txt "search", Some (Fin (dec 9)))]).
Proof.
  apply generateCostBreakdown_descending.
  repeat constructor; eexists; reflexivity.
Defined.

Lemma share_finite (total q : Qc) (s : text) :
  (0 < total)%Qc ->
  percentage (shareOf (Fin total) (s, Fin q)) = Fin (q * (/ total * dec 100))%Qc.
Proof.
  intro H. unfold shareOf. cbn [percentage snd].
  assert (G : gtb (Fin total) zero = true) by (apply Qcltb_lt; exact H).
  rewrite G. unfold div.
  assert (C : (total ?= 0)%Qc = Gt).
  { apply Qcgt_alt. exact H. }
  rewrite C. unfold hundred. cbn [mul]. f_equal. unfold Qcdiv. ring.
Qed.

Lemma finite_entries (entries : list (text * num)) :
  Forall (fun sc => finite (snd sc)) entries ->
  exists l : list (text * Qc), entries = map (fun sq => (fst sq, Fin (snd sq))) l.
Proof.
  induction 1 as [|[s c] l [q Hq] _ (l' & ->)].
  - now exists [].
  - cbn in Hq. subst c. now exists ((s, q) :: l').
Qed.

(** X10.  The percentage of an entry is its cost divided by the sum of
    the costs, times 100, and 0 when that sum is not positive.  When the
    costs are finite and their sum is positive the percentages add up to
    100 (numbers are exact here). *)
Theorem generateCostBreakdown_percentages :
  forall (costs : obj (option num)),
    let total := sum (map snd (pricedEntries costs)) in
    (forall e, In e (generateCostBreakdown costs) ->
               percentage e = if gtb total zero
                              then mul (div (cost e) total) hundred
                              else zero) /\
    (Forall (fun sc => finite (snd sc)) (pricedEntries costs) ->
     gtb total zero = true ->
     sum (map percentage (generateCostBreakdown costs)) = hundred).
Proof.
  intros costs total. split.
  - intros e He. rewrite generateCostBreakdown_shares in He.
    apply (Permutation_in _ (sortByCost_perm _)) in He.
    apply in_map_iff in He. destruct He as (sc & <- & _). reflexivity.
  - intros Hfin Hpos.
    assert (Hl : exists l : list (text * Qc),
               pricedEntries costs = map (fun sq => (fst sq, Fin (snd sq))) l).
    { apply finite_entries. exact Hfin. }
    destruct Hl as [l Hl].
    assert (Ht : total = Fin (Qcsum (map snd l))).
    { unfold total. rewrite Hl, map_map. cbn [snd].
      rewrite <- sum_finite. now rewrite map_map. }
    assert (Hp : (0 < Qcsum (map snd l))%Qc).
    { rewrite Ht in Hpos. now apply Qcltb_lt in Hpos. }
    rewrite generateCostBreakdown_shares. fold total.
    assert (P : Permutation
                  (map percentage (sortByCost (map (shareOf total) (pricedEntries costs))))
                  (map Fin (map (fun q => q * (/ Qcsum (map snd l) * dec 100))%Qc
                                (map snd l)))).
    { rewrite (Permutation_map _ (sortByCost_perm _)).
      rewrite Hl, Ht, !map_map.
      erewrite map_ext; [reflexivity|].
      intros [s q]. cbn [fst snd]. now apply share_finite. }
    destruct (Permutation_map_inv _ _ P) as (qs & E & Pq).
    rewrite E, sum_finite. rewrite <- (Qcsum_perm Pq), Qcsum_scaled.
    unfold hundred. f_equal. field.
    intro Z. rewrite Z in Hp. revert Hp. apply Qcle_not_lt, Qcle_refl.
Qed.

(** A witness for X10: costs 5 and 15 give percentages that add up to 100.
    *)
Lemma generateCostBreakdown_percentages_witness :
  sum (map percentage
           (generateCostBreakdown
              [(txt "transport", Some (Fin (dec 5))); (txt "storage", None);
               (txt "search", Some (Fin (dec 15)))])) = hundred.
Proof.
  apply generateCostBreakdown_percentages.
  - repeat constructor; eexists; reflexivity.
  - vm_compute. reflexivity.
Defined.

(** ** The lists of a result *)

Lemma obj_set_keys (V : Type) (o : obj V) (k : text) (v : V) :
  obj_keys (obj_set o k v) = if obj_has o k then obj_keys o else obj_keys o ++ [k].
Proof.
  unfold obj_has, obj_keys. induction o as [|[k' v'] o IH]; cbn [obj_set obj_get map fst].
  - reflexivity.
  - destruct (text_eqb k' k) eqn:E; cbn [map fst]; [reflexivity|].
    rewrite IH. now destruct (obj_get o k).
Qed.

Lemma obj_set_nodup (V : Type) (o : obj V) (k : text) (v : V) :
  NoDup (obj_keys o) -> NoDup (obj_keys (obj_set o k v)).
Proof.
  intro H. rewrite obj_set_keys. destruct (obj_has o k) eqn:E; [assumption|].
  apply NoDup_app; [assumption|repeat constructor; intros []|].
  intros x Hx [<-|[]]. apply obj_has_keys in Hx. congruence.
Qed.

Lemma obj_get_In (V : Type) (o : obj V) (k : text) (v : V) :
  NoDup (obj_keys o) -> (In (k, v) o <-> obj_get o k = Some v).
Proof.
  unfold obj_keys. induction o as [|[k' v'] o IH]; cbn [map fst obj_get In]; intro H.
  - split; [intros []|discriminate].
  - inversion H as [|? ? Hnot Hrest]; subst.
    destruct (text_eqb k' k) eqn:E.
    + apply text_eqb_eq in E. subst k'. split.
      * intros [E|Hin]; [now injection E as ->|].
        exfalso. apply Hnot. apply in_map_iff. now exists (k, v).
      * intro E. injection E as ->. now left.
    + apply text_eqb_neq in E. rewrite <- (IH Hrest). split.
      * intros [E'|Hin]; [injection E' as -> _; congruence|assumption].
      * auto.
Qed.

Section ResultLists.

Context {R : JSRuntime}.
Variable eng : engine.
Variable serviceParameters : obj context.

Lemma loop_supported_list (keys : list text) (st : totals) :
  supported (loopFrom eng serviceParameters keys st)
  = supported st ++ filter (evaluates eng serviceParameters) keys.
Proof.
  revert st. induction keys as [|k keys IH]; intro st.
  - cbn. now rewrite app_nil_r.
  - unfold loopFrom. cbn [fold_left].
    fold (loopFrom eng serviceParameters keys (afterService eng serviceParameters k st)).
    rewrite IH. cbn [supported afterService filter]. unfold evaluates at 2.
    destruct (evaluatedCost eng serviceParameters k); rewrite <- app_assoc; reflexivity.
Qed.

Lemma loop_unsupported_list (keys : list text) (st : totals) :
  unsupported (loopFrom eng serviceParameters keys st)
  = unsupported st ++ filter (lacksSupport eng) keys.
Proof.
  revert st. induction keys as [|k keys IH]; intro st.
  - cbn. now rewrite app_nil_r.
  - unfold loopFrom. cbn [fold_left].
    fold (loopFrom eng serviceParameters keys (afterService eng serviceParameters k st)).
    rewrite IH. cbn [unsupported afterService filter]. unfold lacksSupport at 2.
    destruct (checkServiceSupport eng k (currentSystemCosts eng)); rewrite <- app_assoc;
      reflexivity.
Qed.

Lemma loop_costs_nodup (keys : list text) (st : totals) :
  NoDup (obj_keys (costs st)) ->
  NoDup (obj_keys (costs (loopFrom eng serviceParameters keys st))).
Proof.
  revert st. induction keys as [|k keys IH]; intros st H; [exact H|].
  unfold loopFrom. cbn [fold_left].
  fold (loopFrom eng serviceParameters keys (afterService eng serviceParameters k st)).
  apply IH. cbn [costs afterService]. now apply obj_set_nodup.
Qed.

End ResultLists.

Lemma breakdown_services (costs : obj (option num)) (s : text) :
  In s (map service (generateCostBreakdown costs)) <-> exists c, In (s, Some c) costs.
Proof.
  rewrite generateCostBreakdown_shares.
  rewrite (Permutation_map service (sortByCost_perm _)).
  rewrite map_map. cbn [shareOf service]. rewrite in_map_iff. split.
  - intros ([s' c] & <- & H). exists c. now apply in_pricedEntries.
  - intros [c H]. exists (s, c). split; [reflexivity|]. now apply in_pricedEntries.
Qed.

(** X11.  The lists of a result.  [supportedServices] holds, in the order
    of the formulas, the services that pass the support check and evaluate
    without throwing; [unsupportedServices] those that fail the support
    check.  No service is in both; a service in [unsupportedServices] is
    null in the services map; the breakdown has an entry for exactly the
    services that pass the support check, those that throw included. *)
Theorem calculateTotalCost_lists :
  forall (R : JSRuntime) (eng : engine) (serviceParameters : obj context),
  exists r,
    calculateTotalCost eng serviceParameters = Returns r /\
    supportedServices r
    = filter (evaluates eng serviceParameters) (obj_keys (formulas eng)) /\
    unsupportedServices r = filter (lacksSupport eng) (obj_keys (formulas eng)) /\
    (forall s, In s (supportedServices r) -> ~ In s (unsupportedServices r)) /\
    (forall s, In s (map service (breakdown r)) <->
               In s (obj_keys (formulas eng)) /\ lacksSupport eng s = false) /\
    (forall s, In s (unsupportedServices r) -> obj_get (services r) s = Some None).
Proof.
  intros R eng p. rewrite calculateTotalCost_completes. cbv zeta.
  eexists. split; [reflexivity|].
  cbn [supportedServices unsupportedServices breakdown services].
  rewrite loop_supported_list, loop_unsupported_list. cbn [supported unsupported emptyTotals app].
  split; [reflexivity|]. split; [reflexivity|]. split; [|split].
  - intros s Hs Hu. apply filter_In in Hs. apply filter_In in Hu.
    destruct Hs as [_ Hs]. destruct Hu as [_ Hu].
    unfold evaluates, evaluatedCost in Hs. unfold lacksSupport in Hu.
    apply negb_true_iff in Hu. rewrite Hu in Hs. discriminate Hs.
  - intro s. rewrite breakdown_services.
    assert (N : NoDup (obj_keys (costs (loopFrom eng p (obj_keys (formulas eng)) emptyTotals))))
      by (apply loop_costs_nodup; constructor).
    split.
    + intros [c Hc]. apply (obj_get_In _ _ _ N) in Hc.
      destruct (in_dec text_eq_dec s (obj_keys (formulas eng))) as [Hin|Hout].
      * split; [assumption|]. rewrite loop_costs_in in Hc by assumption.
        unfold serviceEntry in Hc. unfold lacksSupport.
        destruct (checkServiceSupport eng s (currentSystemCosts eng)); [reflexivity|].
        discriminate Hc.
      * rewrite loop_costs_out in Hc by assumption. discriminate Hc.
    + intros [Hin Hs]. unfold lacksSupport in Hs. apply negb_false_iff in Hs.
      assert (E := loop_costs_in eng p (obj_keys (formulas eng)) emptyTotals s Hin).
      unfold serviceEntry in E. rewrite Hs in E.
      destruct (calculateServiceCost eng s (parametersFor p s)) as [c|e];
        eexists; apply (obj_get_In _ _ _ N); exact E.
  - intros s Hu. apply filter_In in Hu. destruct Hu as [Hin Hu].
    rewrite loop_costs_in by assumption. unfold serviceEntry.
    unfold lacksSupport in Hu. apply negb_true_iff in Hu. now rewrite Hu.
Qed.

(** A witness for X11: transport is supported, storage lacks a component,
    and search throws: it is in neither list and has an entry in the
    breakdown. *)
Lemma calculateTotalCost_lists_witness :
  let eng := {| formulas := [(txt "transport", FStr (txt "2 * $transfer_cost"));
                             (txt "storage", FStr (txt "3 * $storage_price"));
                             (txt "search", FMultiplier (FNum (dec 2)) [])];
                systems := []; variables := [];
                currentSystemCosts := [(txt "transfer_cost", Some (dec 4))] |} in
  exists r,
    @calculateTotalCost Reference.runtime eng [] = Returns r /\
    supportedServices r = [txt "transport"] /\
    unsupportedServices r = [txt "storage"] /\
    obj_get (services r) (txt "storage") = Some None /\
    In (txt "search") (map service (breakdown r)).
Proof.
  intro eng.
  destruct (calculateTotalCost_lists Reference.runtime eng [])
    as (r & Hr & Hs & Hu & _ & Hb & Hnull).
  exists r. split; [exact Hr|]. split; [|split; [|split]].
  - rewrite Hs. vm_compute. reflexivity.
  - rewrite Hu. vm_compute. reflexivity.
  - apply Hnull. rewrite Hu. vm_compute. auto.
  - apply Hb. split; [simpl; auto|vm_compute; reflexivity].
Defined.

(** ** Several systems *)

Lemma multiSystemLoop {R : JSRuntime} (eng : engine) (serviceParameters : obj context)
      (ids : list text) (e : engine) (rs0 : list systemResult) :
  formulas e = formulas eng -> systems e = systems eng -> variables e = variables eng ->
  exists rs,
    for_of ids
      (fun id st =>
         bind (calculateTotalCost (setSystemCosts (fst st) id (componentsOf (fst st) id))
                                  serviceParameters)
              (fun r => Returns (setSystemCosts (fst st) id (componentsOf (fst st) id),
                                 snd st ++ [ {| systemId := id; result := r |} ])))
      (e, rs0)
    = Returns (fold_left (fun _ id => engineFor eng id) ids e, rs0 ++ rs) /\
    Forall2 (fun id r => systemId r = id /\
                         calculateTotalCost (engineFor eng id) serviceParameters
                         = Returns (result r)) ids rs.
Proof.
  revert e rs0. induction ids as [|id ids IH]; intros e rs0 Hf Hs Hv.
  - exists []. split; [|constructor]. cbn. now rewrite app_nil_r.
  - cbn [for_of fst snd fold_left].
    assert (E : setSystemCosts e id (componentsOf e id) = engineFor eng id).
    { unfold engineFor, setSystemCosts, componentsOf. now rewrite Hf, Hs, Hv. }
    rewrite E.
    destruct (calculateTotalCost (engineFor eng id) serviceParameters) as [r|x] eqn:Er.
    2:{ rewrite calculateTotalCost_completes in Er. discriminate Er. }
    cbn [bind].
    destruct (IH (engineFor eng id) (rs0 ++ [ {| systemId := id; result := r |} ]))
      as (rs & H1 & H2); try reflexivity.
    exists ({| systemId := id; result := r |} :: rs). split.
    + rewrite H1. now rewrite <- app_assoc.
    + constructor; [|exact H2]. split; [reflexivity|exact Er].
Qed.

Lemma last_default (A : Type) (l : list A) (x d d' : A) :
  last (x :: l) d = last (x :: l) d'.
Proof.
  revert x. induction l as [|y l IH]; intro x; [reflexivity|].
  change (last (y :: l) d = last (y :: l) d'). apply IH.
Qed.

Lemma fold_left_last (A B : Type) (f : A -> B) (l : list A) (b : B) :
  fold_left (fun _ a => f a) l b = last (map f l) b.
Proof.
  revert b. induction l as [|a l IH]; intro b; [reflexivity|].
  cbn [fold_left map]. rewrite IH.
  destruct l as [|a' l]; [reflexivity|]. cbn [map].
  change (last (f a :: f a' :: map f l) b) with (last (f a' :: map f l) b).
  apply last_default.
Qed.

(** X12.  [calculateMultiSystemCosts] returns one result for each system
    id, in order, and each is what [calculateTotalCost] returns on the
    engine set up for that system alone.  The engine is left set up for
    the last system, and the results do not depend on the system costs the
    engine held before the call. *)
Theorem calculateMultiSystemCosts_per_system :
  forall (R : JSRuntime) (eng : engine) (systemIds : list text)
         (serviceParameters : obj context),
  exists eng' rs,
    calculateMultiSystemCosts eng systemIds serviceParameters = Returns (eng', rs) /\
    Forall2 (fun id r => systemId r = id /\
                         calculateTotalCost (engineFor eng id) serviceParameters
                         = Returns (result r)) systemIds rs /\
    eng' = last (map (engineFor eng) systemIds) eng /\
    (forall (id0 : text) (costs0 : context),
        exists eng0,
          calculateMultiSystemCosts (setSystemCosts eng id0 costs0) systemIds
                                    serviceParameters
          = Returns (eng0, rs)).
Proof.
  intros R eng ids p. unfold calculateMultiSystemCosts.
  destruct (multiSystemLoop eng p ids eng []) as (rs & H1 & H2); try reflexivity.
  eexists _, rs. split; [exact H1|]. split; [exact H2|].
  split; [apply fold_left_last|].
  intros id0 costs0.
  destruct (multiSystemLoop eng p ids (setSystemCosts eng id0 costs0) [])
    as (rs' & H1' & H2'); try reflexivity.
  assert (E : rs' = rs).
  { clear H1 H1'. revert rs' H2'. induction H2 as [|id r ids rs [Hid Hr] _ IH];
      intros rs' H2'; inversion H2' as [|? r' ? rs'' [Hid' Hr'] Hrest]; subst; [reflexivity|].
    f_equal; [|now apply IH].
    destruct r as [i x], r' as [i' x']. cbn [systemId result] in *.
    subst i'. rewrite Hr in Hr'. now injection Hr' as ->. }
  subst rs'. eexists. exact H1'.
Qed.

(** X13.  For a system id the configuration does not know, or a system
    without components, the result lists as unsupported exactly the
    services whose formulas require some cost variable, and records each
    of them as null. *)
Theorem unknown_system_has_no_components :
  forall (R : JSRuntime) (eng : engine) (id : text) (serviceParameters : obj context),
    componentsOf eng id = [] ->
    exists r,
      calculateTotalCost (engineFor eng id) serviceParameters = Returns r /\
      unsupportedServices r
      = filter (fun s => match getRequiredVariables eng s with
                         | [] => false
                         | _ => true
                         end) (obj_keys (formulas eng)) /\
      (forall s, In s (unsupportedServices r) -> obj_get (services r) s = Some None).
Proof.
  intros R eng id p Hid.
  rewrite calculateTotalCost_completes. cbv zeta. eexists. split; [reflexivity|].
  cbn [unsupportedServices services].
  rewrite loop_unsupported_list. cbn [unsupported emptyTotals app].
  assert (E : forall s, lacksSupport (engineFor eng id) s
                        = match getRequiredVariables eng s with [] => false | _ => true end).
  { intro s. unfold lacksSupport, checkServiceSupport, engineFor.
    rewrite Hid. cbn [setSystemCosts currentSystemCosts].
    change (getRequiredVariables _ s) with (getRequiredVariables eng s).
    destruct (getRequiredVariables eng s); reflexivity. }
  split.
  - apply filter_ext. exact E.
  - intros s Hs. apply filter_In in Hs. destruct Hs as [Hin Hs].
    rewrite loop_costs_in by assumption. unfold serviceEntry.
    unfold lacksSupport in Hs. apply negb_true_iff in Hs. now rewrite Hs.
Qed.

(** A witness for X13: the system [warehouse] is not configured: transport,
    which needs [transfer_cost], is unsupported. *)
Lemma unknown_system_has_no_components_witness :
  let eng := {| formulas := [(txt "transport", FStr (txt "2 * $transfer_cost"));
                             (txt "audit", FStr (txt "3 * $hours"))];
                systems := [(txt "lake",
                             {| components := [(txt "transfer_cost", Some (dec 4))] |})];
                variables := [(txt "hours", Some (dec 2))]; currentSystemCosts := [] |} in
  exists r,
    @calculateTotalCost Reference.runtime (engineFor eng (txt "warehouse")) [] = Returns r /\
    unsupportedServices r = [txt "transport"] /\
    obj_get (services r) (txt "transport") = Some None.
Proof.
  intro eng.
  destruct (unknown_system_has_no_components Reference.runtime eng (txt "warehouse") [] eq_refl)
    as (r & Hr & Hu & Hnull).
  exists r. split; [exact Hr|].
  assert (E : unsupportedServices r = [txt "transport"])
    by (rewrite Hu; vm_compute; reflexivity).
  split; [exact E|]. apply Hnull. rewrite E. simpl. auto.
Defined.

(** ** The variables a service requires *)

Lemma set_add_nodup (s : list text) (x : text) : NoDup s -> NoDup (set_add s x).
Proof.
  intro H. unfold set_add. destruct (set_has s x) eqn:E; [assumption|].
  apply NoDup_app; [assumption|repeat constructor; intros []|].
  intros y Hy [<-|[]]. apply set_has_In in Hy. congruence.
Qed.

Lemma fold_set_add_nodup (l s : list text) : NoDup s -> NoDup (fold_left set_add l s).
Proof.
  revert s. induction l as [|x l IH]; intros s H; [exact H|].
  cbn [fold_left]. apply IH. now apply set_add_nodup.
Qed.

(** X14.  The variables a service requires are listed without
    repetition; each begins with a letter or an underscore, goes on with
    letters, digits and underscores, and contains [_per_], [_cost],
    [_price] or [_base]; and they are exactly the names of this kind that
    some string of the formula refers to, wherever in the formula the
    string is: in a rate of a tier, in the base or a variable of a
    multiplier formula, in a condition or a clause of a conditional
    formula, or in a member of an object. *)
Theorem getRequiredVariables_names :
  forall (eng : engine) (serviceType : text),
    NoDup (getRequiredVariables eng serviceType) /\
    (forall name, In name (getRequiredVariables eng serviceType) ->
                  variableName name /\ costRelated name) /\
    (forall name, In name (getRequiredVariables eng serviceType) <->
                  exists f, obj_get (formulas eng) serviceType = Some f /\
                            requires f name).
Proof.
  intros eng s.
  assert (M : forall name, In name (getRequiredVariables eng s) <->
                  exists f, obj_get (formulas eng) s = Some f /\ requires f name).
  { intro name. destruct (obj_get (formulas eng) s) as [f|] eqn:Hf.
    - rewrite (getRequiredVariables_requires eng s name Hf). split.
      + eauto.
      + intros (f' & E & H). now injection E as <-.
    - unfold getRequiredVariables. rewrite Hf.
      split; [intros []|intros (f & E & _); discriminate E]. }
  split; [|split; [|exact M]].
  - unfold getRequiredVariables. destruct (obj_get (formulas eng) s); [|constructor].
    apply fold_set_add_nodup. constructor.
  - intros name H. apply M in H. destruct H as (f & _ & Hc & str & _ & Hname & _).
    now split.
Qed.

(** A witness for X14: a conditional formula whose clauses are a tiered
    formula with a rate that refers to [$storage_cost_per_gb] and an object
    with a multiplier formula whose base refers to [$egress_price] and to
    [$volume]: the two cost variables are required, [volume] is not. *)
Lemma getRequiredVariables_names_witness :
  let tiered := FTiered (txt "volume")
                  [{| limit := None;
                      rate := RateExpression (txt "$storage_cost_per_gb * 2") |}] in
  let object := FObject [(txt "egress",
                          FMultiplier (FStr (txt "$volume * $egress_price")) [])] in
  let f := FConditional [(when "volume" ">" 100, tiered)] object in
  let eng := {| formulas := [(txt "storage", f)];
                systems := []; variables := []; currentSystemCosts := [] |} in
  In (txt "storage_cost_per_gb") (getRequiredVariables eng (txt "storage")) /\
  In (txt "egress_price") (getRequiredVariables eng (txt "storage")) /\
  ~ In (txt "volume") (getRequiredVariables eng (txt "storage")) /\
  getRequiredVariables eng (txt "storage")
  = [txt "storage_cost_per_gb"; txt "egress_price"].
Proof.
  intros tiered object f eng.
  destruct (getRequiredVariables_names eng (txt "storage")) as (_ & Hshape & Hin).
  split; [|split; [|split]].
  - apply Hin. exists f. split; [reflexivity|]. split.
    + left. exists (txt "storage_cost"), (txt "gb"). reflexivity.
    + exists (txt "$storage_cost_per_gb * 2"). split.
      * apply holds_then with (when "volume" ">" 100) tiered; [now left|].
        apply holds_rate
          with {| limit := None; rate := RateExpression (txt "$storage_cost_per_gb * 2") |};
          [now left|reflexivity].
      * split; [split; [reflexivity|repeat constructor]|].
        exists [], (txt " * 2"). split; reflexivity.
  - apply Hin. exists f. split; [reflexivity|]. split.
    + right. right. left. exists (txt "egress"), []. reflexivity.
    + exists (txt "$volume * $egress_price"). split.
      * apply holds_else.
        apply holds_member
          with (txt "egress") (FMultiplier (FStr (txt "$volume * $egress_price")) []);
          [now left|].
        apply holds_base, holds_itself.
      * split; [split; [reflexivity|repeat constructor]|].
        exists (txt "$volume * "), []. split; [reflexivity|exact I].
  - intro H. apply Hshape in H. destruct H as [_ H].
    apply is_cost_variable_costRelated in H. discriminate H.
  - reflexivity.
Defined.

(** ** Tiered formulas: the volume beyond the limits *)

(** X15.  A volume that is missing, zero or negative costs 0 under every
    tiered formula.  When every tier has a limit that is a positive whole
    number and the limits add up to at most 2^53, a volume at or beyond
    the sum of the limits costs the sum, in the order of the tiers, of
    each tier's limit times its rate: the volume beyond the last limit is
    not charged.  This holds however the runtime rounds its additions and
    multiplications, as long as its subtraction is exact on whole numbers
    up to 2^53 and does not decrease when its first argument grows, as
    the binary64 subtraction is. *)
Theorem evaluateTieredFormula_capped :
  forall (R : JSRuntime) (plus times : num -> num -> num) (minus : Qc -> Qc -> Qc)
         (volumeVar : text) (ts : list tier) (ctx : context),
    ((ctx_or ctx volumeVar 0 <= 0)%Qc ->
     evaluateTieredFormula volumeVar ts ctx = zero /\
     evaluateTieredFormulaWith plus times minus volumeVar ts ctx = zero) /\
    (exactOnWholes minus -> monotoneMinus minus ->
     Forall wholeLimit ts -> (limitsSum ts <= whole maxWhole)%Qc ->
     (limitsSum ts <= ctx_or ctx volumeVar 0)%Qc ->
     evaluateTieredFormulaWith plus times minus volumeVar ts ctx
     = fullTiersCostWith plus times ctx ts).
Proof.
  intros R plus times minus volumeVar ts ctx.
  unfold evaluateTieredFormula, evaluateTieredFormulaWith, fullTiersCostWith. cbv zeta.
  split.
  - intro H. split; [now apply tierLoop_exhausted|now apply tierLoopWith_exhausted].
  - intros Hexact Hmono Hts Hmax Hv. now apply tierLoopWith_beyond.
Qed.

(** A witness for X15: tiers of 100 at 2 and 50 at 1: the volume 1000 costs
    250, the volume -5 costs 0. *)
Lemma evaluateTieredFormula_capped_witness :
  let ts := [flat (Some (dec 100)) 2; flat (Some (dec 50)) 1] in
  @evaluateTieredFormulaWith Reference.runtime add mul Qcminus (txt "gb") ts
    [(txt "gb", Some (dec 1000))]
  = Fin (dec 250) /\
  @evaluateTieredFormula Reference.runtime (txt "gb") ts [(txt "gb", Some (- dec 5)%Qc)]
  = zero.
Proof.
  intro ts. split.
  - rewrite (proj2 (evaluateTieredFormula_capped Reference.runtime add mul Qcminus
                      (txt "gb") ts [(txt "gb", Some (dec 1000))])).
    + by_computation.
    + exact Qcminus_exactOnWholes.
    + exact Qcminus_monotone.
    + repeat constructor; [exists 100%Z|exists 50%Z]; split; reflexivity.
    + discriminate.
    + discriminate.
  - apply (proj1 (evaluateTieredFormula_capped Reference.runtime add mul Qcminus
                    (txt "gb") ts [(txt "gb", Some (- dec 5)%Qc)])).
    discriminate.
Defined.

(** ** Expressions without references, and with delimited references *)

Lemma scan_from_sigil (start : ascii -> bool) (s : text) :
  scan_from start 0 ("$"%char :: s)
  = if match s with c1 :: _ => start c1 | [] => false end
    then take_while is_word s
         :: scan_from start (List.length (take_while is_word s)) s
    else scan_from start 0 s.
Proof. reflexivity. Qed.

Lemma take_while_name (name post : text) :
  Forall (fun c => is_word c = true) name -> guarded post ->
  take_while is_word (name ++ post) = name.
Proof.
  intros Hw Hg. induction Hw as [|x n Hx _ IH]; cbn [app take_while].
  - destruct post as [|d post]; [reflexivity|]. destruct Hg as [Hd _].
    cbn [take_while]. now rewrite Hd.
  - now rewrite Hx, IH.
Qed.

Lemma scan_from_skipped (start : ascii -> bool) (n post : text) (k : nat) :
  scan_from start (List.length n + k) (n ++ post) = scan_from start k post.
Proof.
  induction n as [|x n IH]; [reflexivity|]. cbn [List.length app plus scan_from]. exact IH.
Qed.

Lemma scan_plain (start : ascii -> bool) (w s : text) :
  no_sigil w -> scan_from start 0 (w ++ s) = scan_from start 0 s.
Proof.
  induction 1 as [|c w Hc _ IH]; [reflexivity|].
  cbn [app scan_from]. rewrite Hc. cbn [andb]. exact IH.
Qed.

Lemma text_eqb_sym (a b : text) : text_eqb a b = text_eqb b a.
Proof.
  destruct (text_eqb b a) eqn:E.
  - apply text_eqb_eq in E. subst. apply text_eqb_refl.
  - apply text_eqb_neq in E. apply text_eqb_neq. congruence.
Qed.

Section Substitution.

Context {R : JSRuntime}.
Hypothesis plain_numbers : forall q, no_sigil (Number_toString q).
Variable ctx : context.
Hypothesis identifier_keys : Forall (fun kv => identifier (fst kv)) ctx.

Lemma delimited_guarded (done : list text) (name post : text) (rest : list (text * text)) :
  delimited ((name, post) :: rest) -> guarded (post ++ partly done ctx rest).
Proof.
  intros (_ & _ & Hg & Hlast & _). destruct post as [|c post].
  - now rewrite (Hlast eq_refl).
  - exact Hg.
Qed.

Lemma no_sigil_app (a b : text) : no_sigil a -> no_sigil b -> no_sigil (a ++ b).
Proof. unfold no_sigil. intros. apply Forall_app. auto. Qed.

Lemma substituteContext_references (refs : list (text * text)) :
  delimited refs ->
  substituteContext (flat_map (fun np => "$"%char :: fst np ++ snd np) refs) ctx
  = partly [] ctx refs.
Proof.
  induction refs as [|[name post] rest IH]; intro H.
  - cbn. apply substituteContext_no_sigil. constructor.
  - pose proof (@delimited_guarded [] name post rest H) as G.
    destruct H as (Hn & Hp & Hg & Hlast & Hrest).
    cbn [flat_map fst snd partly]. fold (partly [] ctx rest).
    cbn [app]. rewrite <- app_assoc.
    rewrite (@substituteContext_reference R plain_numbers ctx name _ identifier_keys Hn).
    + rewrite (@substituteContext_plain R post _ ctx Hp), (IH Hrest).
      unfold referenceValue. cbn [set_has existsb].
      destruct (boundValue ctx name); now rewrite <- app_assoc.
    + destruct post as [|c post]; [|exact Hg].
      rewrite (Hlast eq_refl). exact I.
Qed.

Lemma replaceVariable_references (key : text) (done : list text) (refs : list (text * text)) :
  identifier key -> delimited refs ->
  replaceVariable key (txt "0") (partly done ctx refs) = partly (key :: done) ctx refs.
Proof.
  intro Hk. induction refs as [|[name post] rest IH]; intro H; [reflexivity|].
  pose proof (@delimited_guarded done name post rest H) as G.
  destruct H as (Hn & Hp & Hg & Hlast & Hrest).
  cbn [partly flat_map fst snd]. fold (partly done ctx rest). fold (partly (key :: done) ctx rest).
  destruct (boundValue ctx name) as [v|].
  - rewrite <- !app_assoc. rewrite replaceVariable_plain by apply plain_numbers.
    rewrite replaceVariable_plain by exact Hp. now rewrite IH.
  - cbn [set_has existsb]. fold (set_has done name).
    destruct (set_has done name) eqn:D.
    + rewrite orb_true_r. rewrite <- !app_assoc.
      rewrite replaceVariable_plain by (repeat constructor).
      rewrite replaceVariable_plain by exact Hp. now rewrite IH.
    + rewrite orb_false_r. cbn [app]. rewrite <- app_assoc.
      rewrite (@replaceVariable_reference key (txt "0") name _ Hk Hn G).
      rewrite replaceVariable_plain by exact Hp. rewrite IH by exact Hrest.
      rewrite (text_eqb_sym name key).
      destruct (text_eqb key name); now rewrite <- app_assoc.
Qed.


Lemma zero_references (names done : list text) (w : text) (refs : list (text * text)) :
  Forall identifier names -> no_sigil w -> delimited refs ->
  fold_left (fun p name => replaceVariable name (txt "0") p) names
            (w ++ partly done ctx refs)
  = w ++ partly (rev names ++ done) ctx refs.
Proof.
  intros Hn Hw Hd. revert done.
  induction Hn as [|name names Hname _ IH]; intro done; [reflexivity|].
  cbn [fold_left rev]. rewrite replaceVariable_plain by exact Hw.
  rewrite replaceVariable_references by assumption.
  rewrite IH. now rewrite <- app_assoc.
Qed.

Lemma scan_references (refs : list (text * text)) :
  delimited refs ->
  unreplacedVariables (partly [] ctx refs) = unbound ctx refs.
Proof.
  induction refs as [|[name post] rest IH]; intro H; [reflexivity|].
  pose proof (@delimited_guarded [] name post rest H) as G.
  destruct H as (Hn & Hp & Hg & Hlast & Hrest).
  unfold unbound. cbn [partly flat_map fst snd filter]. fold (partly [] ctx rest).
  unfold unreplacedVariables in *.
  destruct (boundValue ctx name) as [v|].
  - rewrite <- app_assoc, scan_plain by apply plain_numbers.
    rewrite scan_plain by exact Hp. now apply IH.
  - cbn [set_has existsb app map fst]. rewrite <- app_assoc.
    destruct Hn as [Hne Hw].
    rewrite scan_from_sigil, (@take_while_name name _ Hw G).
    assert (B : match name ++ post ++ partly [] ctx rest with
                | c1 :: _ => is_word c1 | [] => false end = true).
    { destruct name as [|c name]; [congruence|]. now inversion Hw. }
    rewrite B. f_equal.
    rewrite <- (Nat.add_0_r (List.length name)), scan_from_skipped.
    rewrite scan_plain by exact Hp. now apply IH.
Qed.

Lemma unbound_identifiers (refs : list (text * text)) :
  delimited refs -> Forall identifier (unbound ctx refs).
Proof.
  induction refs as [|[name post] rest IH]; intro H; [constructor|].
  destruct H as (Hn & _ & _ & _ & Hrest). unfold unbound. cbn [filter fst].
  destruct (boundValue ctx name); [now apply IH|].
  cbn [map fst]. constructor; [exact Hn|now apply IH].
Qed.

Lemma partly_all (done : list text) (refs : list (text * text)) :
  (forall name, In name (unbound ctx refs) -> In name done) ->
  partly done ctx refs = flat_map (fun np => readValue ctx (fst np) ++ snd np) refs.
Proof.
  induction refs as [|[name post] rest IH]; intro H; [reflexivity|].
  cbn [partly flat_map fst snd]. fold (partly done ctx rest).
  unfold unbound in H. cbn [filter fst] in H. unfold readValue at 1.
  destruct (boundValue ctx name) as [v|].
  - f_equal. now apply IH.
  - cbn [map fst] in H.
    assert (D : set_has done name = true) by (apply set_has_In, H; now left).
    rewrite D. f_equal. apply IH. intros n Hn. apply H. now right.
Qed.

Lemma processedExpression_references (w : text) (refs : list (text * text)) :
  no_sigil w -> delimited refs ->
  processedExpression (expressionOf w refs) ctx = substituted ctx w refs.
Proof.
  intros Hw Hd. unfold processedExpression, expressionOf, substituted.
  rewrite (@substituteContext_plain R w _ ctx Hw).
  rewrite (@substituteContext_references refs Hd).
  unfold zeroUnreplaced.
  assert (U : unreplacedVariables (w ++ partly [] ctx refs) = unbound ctx refs).
  { unfold unreplacedVariables. rewrite scan_plain by exact Hw.
    apply (@scan_references refs Hd). }
  rewrite U, (@zero_references _ [] w refs (@unbound_identifiers refs Hd) Hw Hd).
  f_equal. apply partly_all. intros name Hname.
  rewrite app_nil_r. now apply in_rev in Hname.
Qed.

Lemma substituted_plain (w : text) (refs : list (text * text)) :
  no_sigil w -> delimited refs -> no_sigil (substituted ctx w refs).
Proof.
  intros Hw Hd. unfold substituted. apply no_sigil_app; [exact Hw|].
  induction refs as [|[name post] rest IH]; [constructor|].
  destruct Hd as (_ & Hp & _ & _ & Hrest). cbn [flat_map fst snd].
  rewrite <- app_assoc. apply no_sigil_app; [|apply no_sigil_app; auto].
  unfold readValue. destruct (boundValue ctx name); [apply plain_numbers|repeat constructor].
Qed.

End Substitution.

(** X16.  An expression made of text without a sigil and of references,
    each delimited by an operator, a parenthesis, whitespace or the end:
    when the keys of the context are identifiers and numbers are rendered
    without a sigil, every reference is replaced by the value bound to its
    name, and by 0 when the name is unbound or bound to null; the
    expression is then evaluated as the text so obtained. *)
Theorem expression_with_references :
  forall (R : JSRuntime) (ctx : context) (w : text) (refs : list (text * text)),
    (forall q, no_sigil (Number_toString q)) ->
    Forall (fun kv => identifier (fst kv)) ctx ->
    no_sigil w -> delimited refs ->
    processedExpression (expressionOf w refs) ctx = substituted ctx w refs /\
    evaluateExpression (expressionOf w refs) ctx
    = evaluateExpression (substituted ctx w refs) [].
Proof.
  intros R ctx w refs Hnum Hctx Hw Hd.
  pose proof (@processedExpression_references R Hnum ctx Hctx w refs Hw Hd) as P.
  split; [exact P|].
  unfold evaluateExpression, safeExpression. rewrite P.
  rewrite processedExpression_no_sigil; [reflexivity|].
  now apply substituted_plain.
Qed.

(** A witness for X16: [$rate] reads 2 at both places, and [$hours], bound
    to null, reads 0. *)
Lemma expression_with_references_witness :
  let ctx := [(txt "rate", Some (dec 2)); (txt "hours", None)] in
  @processedExpression Reference.runtime (txt "$rate * $hours + $rate") ctx
  = txt "2 * 0 + 2" /\
  @evaluateExpression Reference.runtime (txt "$rate * $hours + $rate") ctx = Fin (dec 2).
Proof.
  intro ctx.
  assert (I : forall s, s <> [] -> forallb is_word s = true -> identifier s)
    by (intros s H1 H2; split; [exact H1|];
        rewrite Forall_forall, <- forallb_forall; exact H2).
  assert (N : forall s, forallb (fun c => negb (Ascii.eqb c "$")) s = true -> no_sigil s).
  { intros s H. apply Forall_forall. intros c Hc.
    rewrite forallb_forall in H. apply negb_true_iff. now apply H. }
  destruct (@expression_with_references Reference.runtime ctx []
              [(txt "rate", txt " * "); (txt "hours", txt " + "); (txt "rate", [])])
    as [P E].
  - exact toString_plain.
  - repeat constructor; cbn [fst]; apply I; try discriminate; reflexivity.
  - constructor.
  - cbn [delimited].
    repeat split;
      first [discriminate | reflexivity
            | apply I; [discriminate|reflexivity] | apply N; reflexivity].
  - split.
    + etransitivity; [exact P|]. vm_compute. reflexivity.
    + etransitivity; [exact E|]. by_computation.
Defined.

Lemma sanitize_text (e : text) :
  Forall (fun c => is_math_char c = true -> is_space c = true) e ->
  blank (sanitize e) = true.
Proof.
  unfold blank, sanitize. induction 1 as [|c e Hc _ IH]; [reflexivity|].
  cbn [filter]. destruct (is_math_char c) eqn:E; [|exact IH].
  cbn [forallb]. now rewrite (Hc eq_refl).
Qed.

(** X17.  An expression without a sigil evaluates the same in every
    context.  When it has no digit, operator, parenthesis or point either,
    as a label has, it evaluates to 0. *)
Theorem expression_without_references :
  forall (R : JSRuntime) (e : text) (ctx : context),
    no_sigil e ->
    evaluateExpression e ctx = evaluateExpression e [] /\
    (Forall (fun c => is_math_char c = true -> is_space c = true) e ->
     evaluateExpression e ctx = zero).
Proof.
  intros R e ctx H. unfold evaluateExpression, safeExpression.
  rewrite !processedExpression_no_sigil by assumption.
  split; [reflexivity|]. intro Ht. now rewrite (sanitize_text Ht).
Qed.

(** A witness for X17: the label [per month] evaluates to 0 and
    [2 * (3 + 4)] to 14, also in a context that binds [month]. *)
Lemma expression_without_references_witness :
  let ctx := [(txt "month", Some (dec 3))] in
  @evaluateExpression Reference.runtime (txt "per month") ctx = zero /\
  @evaluateExpression Reference.runtime (txt "2 * (3 + 4)") ctx = Fin (dec 14).
Proof.
  intro ctx.
  assert (N : forall s, forallb (fun c => negb (Ascii.eqb c "$")) s = true -> no_sigil s).
  { intros s H. apply Forall_forall. intros c Hc.
    rewrite forallb_forall in H. apply negb_true_iff. now apply H. }
  split.
  - apply (@expression_without_references Reference.runtime (txt "per month") ctx).
    + apply N. reflexivity.
    + repeat (apply Forall_cons; [first [discriminate|reflexivity]|]). apply Forall_nil.
  - rewrite (proj1 (@expression_without_references Reference.runtime (txt "2 * (3 + 4)") ctx
                      (N (txt "2 * (3 + 4)") eq_refl))).
    by_computation.
Defined.

(** ** The combined breakdown *)

Lemma sumEntry_nodup (acc : obj num) (kv : text * option num) :
  NoDup (obj_keys acc) -> NoDup (obj_keys (sumEntry acc kv)).
Proof.
  intro H. unfold sumEntry. destruct (snd kv) as [c|]; [|exact H].
  destruct (negb (isNaN c)); [|exact H]. now apply obj_set_nodup.
Qed.

Lemma combine_nodup (rs : list systemResult) (st : combineState) :
  NoDup (acc_supported st) -> NoDup (acc_unsupported st) -> NoDup (obj_keys (acc_services st)) ->
  let st' := fold_left combineStep rs st in
  NoDup (acc_supported st') /\ NoDup (acc_unsupported st') /\
  NoDup (obj_keys (acc_services st')).
Proof.
  revert st. induction rs as [|r rs IH]; intros st H1 H2 H3; cbn [fold_left].
  - auto.
  - apply IH; cbn [combineStep acc_supported acc_unsupported acc_services].
    + now apply fold_set_add_nodup.
    + now apply fold_set_add_nodup.
    + unfold sumServices. generalize (services (result r)). intro l.
      revert H3. generalize (acc_services st).
      induction l as [|kv l IHl]; intros acc H3; [exact H3|].
      cbn [fold_left]. apply IHl. now apply sumEntry_nodup.
Qed.

(** X18.  The combined breakdown lists the combined services whose cost
    is positive, each once, with the percentage of the combined total that
    the cost is; a service whose combined cost is 0 is left out.  It is in
    the order of descending cost when the combined costs are finite.  The
    combined services and both lists of services have no repetitions, and
    [systemCount] is the number of results. *)
Theorem combineSystemResults_breakdown :
  forall (rs : list systemResult),
    let r := combineSystemResults rs in
    Permutation (map (fun e => (service e, cost e)) (combinedBreakdown r))
                (filter (fun kv => gtb (snd kv) zero) (combinedServices r)) /\
    (forall e, In e (combinedBreakdown r) ->
               gtb (cost e) zero = true /\
               percentage e = mul (div (cost e) (combinedTotal r)) hundred) /\
    (Forall (fun kv => finite (snd kv)) (combinedServices r) ->
     descending (combinedBreakdown r)) /\
    NoDup (obj_keys (combinedServices r)) /\
    NoDup (allSupportedServices r) /\
    NoDup (globallyUnsupportedServices r) /\
    systemCount r = List.length rs.
Proof.
  intros rs r. unfold r, combineSystemResults. cbv zeta.
  cbn [combinedBreakdown combinedServices combinedTotal allSupportedServices
       globallyUnsupportedServices systemCount].
  set (st := fold_left combineStep rs _).
  assert (N : NoDup (acc_supported st) /\ NoDup (acc_unsupported st) /\
              NoDup (obj_keys (acc_services st)))
    by (apply combine_nodup; constructor).
  destruct N as (N1 & N2 & N3).
  set (entries := map _ (filter _ (acc_services st))).
  assert (E : map (fun e => (service e, cost e)) entries
              = filter (fun kv => gtb (snd kv) zero) (acc_services st)).
  { unfold entries. rewrite map_map. cbn [service cost].
    erewrite map_ext; [apply map_id|]. now intros [k v]. }
  split; [|split; [|split; [|split; [|split; [|split]]]]].
  - rewrite (Permutation_map _ (sortByCost_perm entries)). now rewrite E.
  - intros e He. apply (Permutation_in _ (sortByCost_perm entries)) in He.
    unfold entries in He. apply in_map_iff in He. destruct He as ([k v] & <- & Hin).
    apply filter_In in Hin. cbn [cost percentage snd] in *. split; [apply Hin|reflexivity].
  - intro Hf. apply sortByCost_descending. unfold entries. rewrite Forall_map.
    cbn [cost]. rewrite Forall_forall in *. intros kv Hkv. apply Hf.
    now apply filter_In in Hkv.
  - exact N3.
  - exact N1.
  - now apply NoDup_filter.
  - reflexivity.
Qed.

(** A witness for X18: storage, at the combined cost 0, is not in the
    combined breakdown. *)
Lemma combineSystemResults_breakdown_witness :
  let rs := [priced "a" "transport" (Fin (dec 10)) (Fin (dec 10));
             priced "b" "storage" zero zero;
             priced "c" "search" (Fin (dec 15)) (Fin (dec 15))] in
  descending (combinedBreakdown (combineSystemResults rs)) /\
  ~ In (txt "storage") (map service (combinedBreakdown (combineSystemResults rs))).
Proof.
  intro rs. destruct (combineSystemResults_breakdown rs) as (_ & Hpos & Hsorted & _). split.
  - apply Hsorted. vm_compute. repeat constructor; eexists; reflexivity.
  - intro H. apply in_map_iff in H. destruct H as (e & Hs & He).
    destruct (Hpos e He) as [Hc _].
    vm_compute in He. destruct He as [<-|[<-|[]]]; discriminate Hs.
Defined.

(** ** The total and the services map *)

Lemma obj_set_absent (V : Type) (o : obj V) (k : text) (v : V) :
  ~ In k (obj_keys o) -> obj_set o k v = o ++ [(k, v)].
Proof.
  unfold obj_keys. induction o as [|[k' v'] o IH]; cbn [obj_set map fst app]; intro H.
  - reflexivity.
  - destruct (text_eqb k' k) eqn:E.
    + apply text_eqb_eq in E. subst k'. exfalso. apply H. now left.
    + rewrite IH; [reflexivity|]. intro Hin. apply H. now right.
Qed.

Section TotalAndServices.

Context {R : JSRuntime}.
Variable eng : engine.
Variable serviceParameters : obj context.

Lemma loop_costs_list (keys : list text) (st : totals) :
  NoDup (obj_keys (costs st) ++ keys) ->
  costs (loopFrom eng serviceParameters keys st)
  = costs st ++ map (fun s => (s, serviceEntry eng serviceParameters s)) keys.
Proof.
  revert st. induction keys as [|k keys IH]; intros st H.
  - cbn. now rewrite app_nil_r.
  - unfold loopFrom. cbn [fold_left].
    fold (loopFrom eng serviceParameters keys (afterService eng serviceParameters k st)).
    assert (Hk : ~ In k (obj_keys (costs st))).
    { apply NoDup_remove_2 in H. intro Hin. apply H. apply in_app_iff. now left. }
    rewrite IH; cbn [costs afterService]; rewrite obj_set_absent by assumption.
    + now rewrite <- app_assoc.
    + unfold obj_keys in *. rewrite map_app, <- app_assoc. exact H.
Qed.

Lemma loop_total (keys : list text) (t : Qc) :
  Forall (fun s => forall c, serviceEntry eng serviceParameters s = Some c -> finite c) keys ->
  fold_left (fun t s => match evaluatedCost eng serviceParameters s with
                        | Some c => if isNaN c then t else add t c
                        | None => t
                        end) keys (Fin t)
  = fold_left add
      (map snd (pricedEntries (map (fun s => (s, serviceEntry eng serviceParameters s)) keys)))
      (Fin t).
Proof.
  intro H. revert t. induction H as [|k keys Hk _ IH]; intro t; [reflexivity|].
  cbn [fold_left map pricedEntries flat_map snd fst].
  fold (pricedEntries (map (fun s => (s, serviceEntry eng serviceParameters s)) keys)).
  rewrite map_app, fold_left_app.
  unfold serviceEntry in Hk |- *. unfold evaluatedCost.
  destruct (checkServiceSupport eng k (currentSystemCosts eng)); [|apply IH].
  destruct (calculateServiceCost eng k (parametersFor serviceParameters k)) as [c|e].
  - destruct (Hk c eq_refl) as [q ->]. cbn [isNaN map snd fold_left add]. apply IH.
  - cbn [map snd fold_left add zero].
    replace (t + 0)%Qc with t by ring. apply IH.
Qed.

End TotalAndServices.

Lemma total_of_services :
  forall (R : JSRuntime) (eng : engine) (serviceParameters : obj context) (r : totalResult),
    NoDup (obj_keys (formulas eng)) ->
    calculateTotalCost eng serviceParameters = Returns r ->
    services r
    = map (fun s => (s, serviceEntry eng serviceParameters s)) (obj_keys (formulas eng)) /\
    (Forall (fun sc => finite (snd sc)) (pricedEntries (services r)) ->
     total r = sum (map snd (pricedEntries (services r)))).
Proof.
  intros R eng p r Hkeys Hr. rewrite calculateTotalCost_completes in Hr. cbv zeta in Hr.
  injection Hr as <-. cbn [services total].
  assert (E : costs (loopFrom eng p (obj_keys (formulas eng)) emptyTotals)
              = map (fun s => (s, serviceEntry eng p s)) (obj_keys (formulas eng)))
    by (now rewrite loop_costs_list).
  split; [exact E|]. rewrite E, loop_running. intro Hfin.
  unfold sum, zero. apply loop_total.
  apply Forall_forall. intros s Hs c Hc.
  rewrite Forall_forall in Hfin. apply (Hfin (s, c)).
  apply in_pricedEntries. apply in_map_iff. exists s. now rewrite Hc.
Qed.

(** X19.  For formulas with distinct service names, the services map of
    a result has the services in the order of the formulas, each with its
    entry; and when the costs in it are finite, the total is their sum. *)
Theorem calculateTotalCost_total :
  forall (R : JSRuntime) (eng : engine) (serviceParameters : obj context) (r : totalResult),
    NoDup (obj_keys (formulas eng)) ->
    calculateTotalCost eng serviceParameters = Returns r ->
    services r
    = map (fun s => (s, serviceEntry eng serviceParameters s)) (obj_keys (formulas eng)) /\
    (Forall (fun sc => finite (snd sc)) (pricedEntries (services r)) ->
     total r = sum (map snd (pricedEntries (services r)))).
Proof. exact total_of_services. Qed.

(** A witness for X19: four services, one unsupported and one that throws.
    *)
Lemma calculateTotalCost_total_witness :
  let eng := {| formulas := [(txt "transport", FStr (txt "2 * 3"));
                             (txt "storage", FStr (txt "3 * $storage_price"));
                             (txt "search", FMultiplier (FNum (dec 2)) []);
                             (txt "audit", FNum (dec 4))];
                systems := []; variables := []; currentSystemCosts := [] |} in
  exists r,
    @calculateTotalCost Reference.runtime eng [] = Returns r /\
    obj_keys (services r) = obj_keys (formulas eng) /\
    total r = sum [Fin (dec 6); zero; Fin (dec 4)].
Proof.
  intro eng.
  destruct (@calculateTotalCost Reference.runtime eng []) as [r|e] eqn:Hr;
    [|vm_compute in Hr; discriminate Hr].
  assert (N : NoDup (obj_keys (formulas eng)))
    by (repeat constructor; simpl; intuition discriminate).
  destruct (@calculateTotalCost_total Reference.runtime eng [] r N Hr) as [Hs Ht].
  exists r. split; [reflexivity|]. split.
  - rewrite Hs. unfold obj_keys. rewrite map_map. apply map_id.
  - rewrite Ht.
    + rewrite Hs. by_computation.
    + rewrite Hs. vm_compute. repeat constructor; eexists; reflexivity.
Defined.

(** ** The percentages of a combined breakdown *)

Lemma sumEntry_sum (acc : obj num) (k : text) (q : Qc) :
  Forall (fun kv => nonnegative (snd kv)) acc -> (0 <= q)%Qc ->
  Forall (fun kv => nonnegative (snd kv)) (sumEntry acc (k, Some (Fin q))) /\
  objSum (sumEntry acc (k, Some (Fin q))) = (objSum acc + q)%Qc.
Proof.
  intros Hacc Hq. unfold sumEntry. cbn [snd fst isNaN negb].
  induction Hacc as [|[k' v'] acc (a & Ha & Ha0) Hacc IH].
  - cbn. split.
    + constructor; [|constructor]. exists (0 + q)%Qc. split; [reflexivity|].
      now rewrite Qcplus_0_l.
    + unfold objSum. cbn. ring.
  - cbn [snd] in Ha. subst v'. unfold combined_or_zero. cbn [obj_set obj_get].
    destruct (text_eqb k' k) eqn:E.
    + assert (S : add (if truthy (Fin a) then Fin a else zero) (Fin q) = Fin (a + q)%Qc).
      { cbn [truthy]. destruct (Qceqb a 0) eqn:Z; cbn [negb add zero]; [|reflexivity].
        apply Qceqb_eq in Z. now subst a. }
      rewrite S. split.
      * constructor; [|exact Hacc]. exists (a + q)%Qc. split; [reflexivity|].
        qc_to_q. lra.
      * unfold objSum. cbn. ring.
    + fold (combined_or_zero acc k). destruct IH as [IH1 IH2]. split.
      * constructor; [|exact IH1]. exists a. auto.
      * unfold objSum in *. cbn [map Qcsum snd Qcvalue]. rewrite IH2. ring.
Qed.

Lemma sumServices_sum (costs : obj (option num)) (acc : obj num) :
  Forall (fun kv => nonnegative (snd kv)) acc ->
  Forall (fun sc => nonnegative (snd sc)) (pricedEntries costs) ->
  Forall (fun kv => nonnegative (snd kv)) (sumServices acc costs) /\
  Fin (objSum (sumServices acc costs))
  = add (Fin (objSum acc)) (sum (map snd (pricedEntries costs))).
Proof.
  unfold sumServices, sum, zero. revert acc.
  induction costs as [|[k [c|]] costs IH]; intros acc Hacc Hc; cbn [fold_left].
  - split; [exact Hacc|]. cbn. f_equal. ring.
  - cbn [pricedEntries flat_map snd fst app] in Hc |- *.
    fold (pricedEntries costs) in Hc |- *.
    inversion Hc as [|? ? (q & Hq & Hq0) Hrest]; subst. cbn [snd] in Hq. subst c.
    destruct (sumEntry_sum k Hacc Hq0) as [H1 H2].
    destruct (IH _ H1 Hrest) as [H3 H4]. split; [exact H3|].
    rewrite H4, H2. cbn [map snd fold_left add].
    destruct (finite_list (l := map snd (pricedEntries costs))) as [qs Hqs].
    { rewrite Forall_map. revert Hrest. apply Forall_impl.
      intros sc (x & Hx & _). now exists x. }
    rewrite Hqs, !sum_from. cbn [add]. f_equal. ring.
  - apply IH; assumption.
Qed.

Lemma combine_sum (rs : list systemResult) (st : combineState) :
  Forall consistent rs ->
  Forall (fun kv => nonnegative (snd kv)) (acc_services st) ->
  acc_total st = Fin (objSum (acc_services st)) ->
  let st' := fold_left combineStep rs st in
  Forall (fun kv => nonnegative (snd kv)) (acc_services st') /\
  acc_total st' = Fin (objSum (acc_services st')).
Proof.
  intro H. revert st. induction H as [|r rs [Hr1 Hr2] _ IH]; intros st Hacc Ht; cbn [fold_left].
  - auto.
  - destruct (sumServices_sum (services (result r)) Hacc Hr1) as [H1 H2].
    apply IH; cbn [combineStep acc_services acc_total]; [exact H1|].
    now rewrite H2, Ht, Hr2.
Qed.

Lemma Qcsum_positive_part (l : list Qc) :
  Forall (fun q => 0 <= q)%Qc l ->
  Qcsum (filter (fun q => Qcltb 0 q) l) = Qcsum l.
Proof.
  induction 1 as [|q l Hq _ IH]; [reflexivity|]. cbn [filter Qcsum].
  destruct (Qcltb 0 q) eqn:E; cbn [Qcsum]; rewrite IH; [reflexivity|].
  apply Qcltb_ge in E. assert (q = 0%Qc) by now apply Qcle_antisym.
  subst q. ring.
Qed.

Lemma percentage_of_total (T q : Qc) :
  (0 < T)%Qc -> mul (div (Fin q) (Fin T)) hundred = Fin (q * (/ T * dec 100))%Qc.
Proof.
  intro H. unfold div. rewrite (proj1 (Qcgt_alt T 0) H).
  unfold hundred. cbn [mul]. f_equal. unfold Qcdiv. ring.
Qed.

Lemma combined_shares (T : Qc) (l : list (text * Qc)) :
  (0 < T)%Qc ->
  map percentage
      (map (fun kv => {| service := fst kv; cost := snd kv;
                         percentage := mul (div (snd kv) (Fin T)) hundred |})
           (filter (fun kv => gtb (snd kv) zero)
                   (map (fun sq => (fst sq, Fin (snd sq))) l)))
  = map Fin (map (fun q => q * (/ T * dec 100))%Qc
                 (filter (fun q => Qcltb 0 q) (map snd l))).
Proof.
  intro H. induction l as [|[k q] l IH]; [reflexivity|].
  cbn [map filter fst snd]. unfold gtb at 1. cbn [ltb zero].
  destruct (Qcltb 0 q) eqn:E; cbn [map percentage]; [|exact IH].
  rewrite IH. f_equal. now apply percentage_of_total.
Qed.

Lemma combined_percentages :
  forall (rs : list systemResult),
    Forall consistent rs ->
    gtb (combinedTotal (combineSystemResults rs)) zero = true ->
    sum (map percentage (combinedBreakdown (combineSystemResults rs))) = hundred /\
    combinedTotal (combineSystemResults rs)
    = sum (map snd (combinedServices (combineSystemResults rs))).
Proof.
  intros rs Hrs. unfold combineSystemResults. cbv zeta.
  cbn [combinedBreakdown combinedServices combinedTotal].
  set (st := fold_left combineStep rs _).
  assert (I : Forall (fun kv => nonnegative (snd kv)) (acc_services st) /\
              acc_total st = Fin (objSum (acc_services st)))
    by (apply combine_sum; [exact Hrs|constructor|reflexivity]).
  destruct I as [Hacc Ht]. rewrite Ht. intro Hpos.
  assert (Hl : exists l : list (text * Qc),
             acc_services st = map (fun sq => (fst sq, Fin (snd sq))) l /\
             Forall (fun sq => 0 <= snd sq)%Qc l).
  { clear - Hacc. induction Hacc as [|[k v] acc (q & Hq & Hq0) _ (l & -> & Hl)].
    - exists []. split; [reflexivity|constructor].
    - cbn [snd] in Hq. subst v. exists ((k, q) :: l). split; [reflexivity|].
      now constructor. }
  destruct Hl as (l & Hl & Hnn).
  assert (Hsum : objSum (acc_services st) = Qcsum (map snd l)).
  { unfold objSum. rewrite Hl, map_map. cbn [snd Qcvalue]. reflexivity. }
  rewrite Hsum in *.
  assert (HT : (0 < Qcsum (map snd l))%Qc) by (now apply Qcltb_lt in Hpos).
  split.
  2:{ rewrite Hl, map_map. cbn [snd]. rewrite <- (map_map snd Fin), sum_finite.
      reflexivity. }
  set (entries := map _ (filter _ (acc_services st))).
  assert (P : Permutation (map percentage (sortByCost entries))
                (map Fin (map (fun q => q * (/ Qcsum (map snd l) * dec 100))%Qc
                              (filter (fun q => Qcltb 0 q) (map snd l))))).
  { rewrite (Permutation_map _ (sortByCost_perm entries)).
    unfold entries. rewrite Hl. now rewrite combined_shares. }
  destruct (Permutation_map_inv _ _ P) as (qs & E & Pq).
  rewrite E, sum_finite. rewrite <- (Qcsum_perm Pq), Qcsum_scaled.
  rewrite Qcsum_positive_part by (now rewrite Forall_map).
  unfold hundred. f_equal. field.
  intro Z. rewrite Z in HT. revert HT. apply Qcle_not_lt, Qcle_refl.
Qed.

(** X20.  When each result's total is the sum of its finite,
    non-negative costs and the combined total is positive, the percentages
    of the combined breakdown add up to 100 and the combined total is the
    sum of the combined services (numbers are exact here). *)
Theorem combineSystemResults_percentages :
  forall (rs : list systemResult),
    Forall consistent rs ->
    gtb (combinedTotal (combineSystemResults rs)) zero = true ->
    sum (map percentage (combinedBreakdown (combineSystemResults rs))) = hundred /\
    combinedTotal (combineSystemResults rs)
    = sum (map snd (combinedServices (combineSystemResults rs))).
Proof. exact combined_percentages. Qed.

(** A witness for X20: three results, with the costs 10, 0 and 15. *)
Lemma combineSystemResults_percentages_witness :
  let rs := [priced "a" "transport" (Fin (dec 10)) (Fin (dec 10));
             priced "b" "storage" zero zero;
             priced "c" "transport" (Fin (dec 15)) (Fin (dec 15))] in
  sum (map percentage (combinedBreakdown (combineSystemResults rs))) = hundred.
Proof.
  intro rs. apply (@combineSystemResults_percentages rs).
  - repeat constructor; cbn [snd]; eexists; (split; [reflexivity|discriminate]).
  - vm_compute. reflexivity.
Defined.

(** ** From the engine to the combined view *)

(** X21.  From the engine to the combined view: for formulas with
    distinct service names, the results of [calculateMultiSystemCosts] with
    non-negative finite costs have totals that are the sums of their costs,
    and when the combined total is positive the percentages of the
    combined breakdown add up to 100. *)
Theorem multi_system_percentages :
  forall (R : JSRuntime) (eng eng' : engine) (systemIds : list text)
         (serviceParameters : obj context) (rs : list systemResult),
    NoDup (obj_keys (formulas eng)) ->
    calculateMultiSystemCosts eng systemIds serviceParameters = Returns (eng', rs) ->
    Forall (fun r => Forall (fun sc => nonnegative (snd sc))
                            (pricedEntries (services (result r)))) rs ->
    gtb (combinedTotal (combineSystemResults rs)) zero = true ->
    Forall consistent rs /\
    sum (map percentage (combinedBreakdown (combineSystemResults rs))) = hundred.
Proof.
  intros R eng eng' ids p rs Hkeys Hrs Hnn.
  assert (C : Forall consistent rs).
  { unfold calculateMultiSystemCosts in Hrs.
    destruct (multiSystemLoop eng p ids eng []) as (rs' & H1 & H2); try reflexivity.
    rewrite H1 in Hrs. injection Hrs as _ <-. cbn [app] in *.
    clear H1. induction H2 as [|id r ids rs [_ Hr] _ IH]; [constructor|].
    inversion Hnn as [|? ? Hn Hnn']; subst. constructor; [|now apply IH].
    split; [exact Hn|].
    apply (proj2 (@total_of_services R (engineFor eng id) p (result r) Hkeys Hr)).
    revert Hn. apply Forall_impl. intros sc (q & Hq & _). now exists q. }
  intro Hpos. split; [exact C|]. exact (proj1 (@combined_percentages rs C Hpos)).
Qed.

(** A witness for X21: two systems, each supporting one of three services.
    *)
Lemma multi_system_percentages_witness :
  let eng := {| formulas := [(txt "transport", FStr (txt "2 * $transfer_cost"));
                             (txt "storage", FStr (txt "3 * $storage_price"));
                             (txt "audit", FNum (dec 4))];
                systems := [(txt "lake",
                             {| components := [(txt "transfer_cost", Some (dec 4))] |});
                            (txt "vault",
                             {| components := [(txt "storage_price", Some (dec 1))] |})];
                variables := []; currentSystemCosts := [] |} in
  exists eng' rs,
    @calculateMultiSystemCosts Reference.runtime eng [txt "lake"; txt "vault"] []
    = Returns (eng', rs) /\
    sum (map percentage (combinedBreakdown (combineSystemResults rs))) = hundred.
Proof.
  intro eng.
  destruct (@calculateMultiSystemCosts Reference.runtime eng [txt "lake"; txt "vault"] [])
    as [[eng' rs]|e] eqn:H; [|vm_compute in H; discriminate H].
  exists eng', rs. split; [reflexivity|].
  apply (@multi_system_percentages Reference.runtime eng eng' [txt "lake"; txt "vault"] [] rs).
  - repeat constructor; simpl; intuition discriminate.
  - exact H.
  - vm_compute in H. injection H as _ <-.
    repeat constructor; cbn [snd]; eexists; (split; [reflexivity|discriminate]).
  - vm_compute in H. injection H as _ <-. vm_compute. reflexivity.
Defined.

(** ** The configuration manager *)

Lemma value_induction (P : ConfigManager.value -> Prop) :
  (forall v, kept v = true -> P v) ->
  (forall ms, Forall (fun kv => P (snd kv)) ms -> P (ConfigManager.VObject ms)) ->
  forall v, P v.
Proof.
  intros Hk Ho. fix IH 1. intros [q|s|b| |items|ms]; try (apply Hk; reflexivity).
  apply Ho. induction ms as [|kv ms IHm]; constructor; [apply IH|exact IHm].
Qed.

Lemma obj_spread_app (V : Type) (o : obj V) (l1 l2 : list (text * V)) :
  obj_spread o (l1 ++ l2) = obj_spread (obj_spread o l1) l2.
Proof. unfold obj_spread. apply fold_left_app. Qed.

Lemma flattenEntry_leaves (v : ConfigManager.value) (key : text)
      (flattened : obj ConfigManager.value) :
  ConfigManager.flattenEntry key v flattened = obj_spread flattened (leavesOf key v).
Proof.
  revert key flattened. induction v as [v Hv|ms IH] using value_induction; intros key fl.
  - destruct v; try discriminate Hv; reflexivity.
  - cbn [ConfigManager.flattenEntry leavesOf]. revert fl.
    induction IH as [|[k v] ms Hv _ IHm]; intro fl; [reflexivity|].
    cbn [snd] in Hv. rewrite Hv, IHm. now rewrite obj_spread_app.
Qed.

Lemma flattenObject_leaves (members : list (text * ConfigManager.value)) (prefix : text)
      (flattened : obj ConfigManager.value) :
  ConfigManager.flattenObject members prefix flattened
  = obj_spread flattened (leaves members prefix).
Proof.
  unfold ConfigManager.flattenObject, leaves. revert flattened.
  induction members as [|[k v] members IH]; intro fl; [reflexivity|].
  cbn [fold_left flat_map fst snd]. now rewrite IH, flattenEntry_leaves, obj_spread_app.
Qed.

Lemma leavesOf_kept (v : ConfigManager.value) (key : text) :
  Forall (fun kv => kept (snd kv) = true) (leavesOf key v).
Proof.
  revert key. induction v as [v Hv|ms IH] using value_induction; intro key.
  - destruct v; try discriminate Hv; repeat constructor.
  - cbn [leavesOf]. induction IH as [|[k v] ms Hv _ IHm]; [constructor|].
    apply Forall_app. split; [apply Hv|exact IHm].
Qed.

Lemma leaves_kept (members : list (text * ConfigManager.value)) (prefix : text) :
  Forall (fun kv => kept (snd kv) = true) (leaves members prefix).
Proof.
  unfold leaves. induction members as [|[k v] members IH]; [constructor|].
  cbn [flat_map]. apply Forall_app. split; [apply leavesOf_kept|exact IH].
Qed.

Lemma leaves_flat (members : list (text * ConfigManager.value)) :
  Forall (fun kv => kept (snd kv) = true) members -> leaves members [] = members.
Proof.
  unfold leaves. induction 1 as [|[k v] members Hv _ IH]; [reflexivity|].
  cbn [flat_map fst snd]. rewrite IH. cbn [snd] in Hv.
  destruct v; try discriminate Hv; reflexivity.
Qed.

Lemma obj_spread_nodup (V : Type) (o : obj V) (l : list (text * V)) :
  NoDup (obj_keys o) -> NoDup (obj_keys (obj_spread o l)).
Proof.
  unfold obj_spread. revert o. induction l as [|kv l IH]; intros o H; [exact H|].
  cbn [fold_left]. apply IH. now apply obj_set_nodup.
Qed.

Lemma obj_spread_kept (o : obj ConfigManager.value) (l : list (text * ConfigManager.value)) :
  Forall (fun kv => kept (snd kv) = true) o ->
  Forall (fun kv => kept (snd kv) = true) l ->
  Forall (fun kv => kept (snd kv) = true) (obj_spread o l).
Proof.
  unfold obj_spread. intros Ho Hl. revert o Ho.
  induction Hl as [|[k v] l Hv _ IH]; intros o Ho; [exact Ho|].
  cbn [fold_left fst snd]. apply IH. cbn [snd] in Hv. clear IH.
  induction Ho as [|[k' v'] o Hv' Ho IHo]; cbn [obj_set].
  - repeat constructor. exact Hv.
  - destruct (text_eqb k' k); constructor; auto.
Qed.

Lemma obj_spread_fresh (V : Type) (o l : obj V) :
  NoDup (obj_keys o ++ obj_keys l) -> obj_spread o l = o ++ l.
Proof.
  unfold obj_spread. revert o. induction l as [|[k v] l IH]; intros o H.
  - cbn. now rewrite app_nil_r.
  - cbn [fold_left fst snd].
    assert (Hk : ~ In k (obj_keys o)).
    { cbn [obj_keys map fst] in H. apply NoDup_remove_2 in H.
      intro Hin. apply H. apply in_app_iff. now left. }
    rewrite obj_set_absent by assumption. rewrite IH.
    + now rewrite <- app_assoc.
    + unfold obj_keys in *. rewrite map_app, <- app_assoc. exact H.
Qed.

Lemma obj_spread_get (V : Type) (o l : obj V) (k : text) (v : V) :
  obj_get (obj_spread o l) k = Some v -> obj_get o k = Some v \/ In (k, v) l.
Proof.
  unfold obj_spread. revert o. induction l as [|[k' v'] l IH]; intros o H; [now left|].
  cbn [fold_left fst snd] in H. destruct (IH _ H) as [H1|H1]; [|right; now right].
  destruct (text_eq_dec k' k) as [->|Hne].
  - rewrite obj_get_set_same in H1. injection H1 as ->. right. now left.
  - rewrite obj_get_set_other in H1 by assumption. now left.
Qed.

Lemma obj_spread_keys (V : Type) (o l : obj V) (k : text) :
  In k (obj_keys (obj_spread o l)) <-> In k (obj_keys o) \/ In k (obj_keys l).
Proof.
  unfold obj_spread. revert o. induction l as [|[k' v'] l IH]; intro o.
  - cbn. tauto.
  - cbn [fold_left fst snd]. rewrite IH, obj_set_keys. cbn [obj_keys map fst In].
    destruct (obj_has o k') eqn:E.
    + apply obj_has_keys in E. split; [tauto|]. intros [H|[<-|H]]; auto.
    + rewrite in_app_iff. cbn [In]. tauto.
Qed.

(** X22.  [flattenObject] stores the values that are not objects to
    flatten, each under the names on its path joined by underscores, a later
    one replacing an earlier one of the same name.  The result is flat and
    has distinct keys; base costs that are flat already are left as they
    are; flattening twice is flattening once. *)
Theorem flattenObject_flat_and_idempotent :
  forall (members : list (text * ConfigManager.value)),
    let flattened := ConfigManager.flattenObject members [] [] in
    flattened = obj_spread [] (leaves members []) /\
    (forall k, In k (obj_keys flattened) <-> In k (obj_keys (leaves members []))) /\
    (forall k v, obj_get flattened k = Some v -> In (k, v) (leaves members [])) /\
    flatCosts flattened /\
    (flatCosts members -> flattened = members) /\
    ConfigManager.flattenObject flattened [] [] = flattened.
Proof.
  intros members flattened.
  assert (L : flattened = obj_spread [] (leaves members [])) by apply flattenObject_leaves.
  assert (F : flatCosts flattened).
  { rewrite L. split.
    - apply obj_spread_nodup. constructor.
    - apply obj_spread_kept; [constructor|apply leaves_kept]. }
  assert (I : forall ms, flatCosts ms -> ConfigManager.flattenObject ms [] [] = ms).
  { intros ms [Hk Hv]. rewrite flattenObject_leaves, leaves_flat by assumption.
    now apply obj_spread_fresh. }
  split; [exact L|]. split; [|split].
  - intro k. rewrite L, obj_spread_keys. cbn. tauto.
  - intros k v H. rewrite L in H. apply obj_spread_get in H.
    destruct H as [H|H]; [discriminate H|exact H].
  - split; [exact F|]. split; [apply I|]. now apply I.
Qed.

(** A witness for X22: a nested transport section is flattened, an array is
    kept, and the flat result is left as it is. *)
Lemma flattenObject_flat_and_idempotent_witness :
  let nested := [(txt "transport",
                  ConfigManager.VObject [(txt "ingestion", ConfigManager.VNumber (dec 1));
                                         (txt "egress", ConfigManager.VNumber (dec 2))]);
                 (txt "tags", ConfigManager.VArray [ConfigManager.VString (txt "a")])] in
  let flat := [(txt "transport_ingestion", ConfigManager.VNumber (dec 1));
               (txt "transport_egress", ConfigManager.VNumber (dec 2));
               (txt "tags", ConfigManager.VArray [ConfigManager.VString (txt "a")])] in
  ConfigManager.flattenObject nested [] [] = flat /\
  ConfigManager.flattenObject flat [] [] = flat.
Proof.
  intros nested flat. split; [reflexivity|].
  apply (proj1 (proj2 (proj2 (proj2 (proj2 (flattenObject_flat_and_idempotent flat)))))).
  split.
  - repeat constructor; simpl; intuition discriminate.
  - repeat constructor.
Defined.

Lemma flat_map_nil (A B : Type) (f : A -> list B) (l : list A) :
  flat_map f l = [] <-> forall x, In x l -> f x = [].
Proof.
  induction l as [|a l IH]; cbn [flat_map].
  - split; [intros _ x []|reflexivity].
  - split.
    + intros H x [<-|Hx]; apply app_eq_nil in H; destruct H as [H1 H2];
        [exact H1|now apply IH].
    + intro H. rewrite (H a) by now left. apply IH. intros x Hx. apply H. now right.
Qed.

Lemma serviceErrors_nil (fs : obj formula) (s : text) :
  ConfigManager.serviceErrors fs s = [] <->
  exists f, obj_get fs s = Some f /\ formula_truthy f = true.
Proof.
  unfold ConfigManager.serviceErrors. destruct (obj_get fs s) as [f|].
  - destruct (formula_truthy f) eqn:E.
    + split; [eauto|reflexivity].
    + split; [discriminate|]. intros (f' & H & H'). injection H as <-. congruence.
  - split; [discriminate|]. intros (f & H & _). discriminate H.
Qed.

Lemma serviceErrors_hasFormula (fs : obj formula) (s : text) :
  ConfigManager.serviceErrors fs s
  = if hasFormula fs s then [] else [txt "Missing formula for service: " ++ s].
Proof.
  unfold ConfigManager.serviceErrors, hasFormula.
  destruct (obj_get fs s) as [f|]; reflexivity.
Qed.

(** The message of a validation error begins with the heading and does
    not hold the error of a missing formulas section. *)
Lemma validateConfig_checked (cfg : ConfigManager.config) :
  match ConfigManager.validateConfig cfg with
  | ConfigManager.Abrupt (ConfigManager.Error message) =>
      starts_with (txt "Configuration validation failed: ") message &&
      negb (includes message (txt "Missing formulas section")) = true
  | _ => True
  end.
Proof.
  unfold ConfigManager.validateConfig, ConfigManager.sectionErrors. cbv zeta.
  destruct (ConfigManager.formulas cfg) as [fs|]; [|exact I].
  unfold ConfigManager.requiredServices. cbn [flat_map].
  rewrite !serviceErrors_hasFormula.
  destruct (ConfigManager.baseCosts cfg), (ConfigManager.multipliers cfg);
    repeat match goal with
           | |- context [hasFormula fs ?s] => destruct (hasFormula fs s)
           end;
    first [exact I | vm_compute; reflexivity].
Qed.

Lemma validateConfig_message (cfg : ConfigManager.config) (message : text) :
  ConfigManager.validateConfig cfg = ConfigManager.Abrupt (ConfigManager.Error message) ->
  starts_with (txt "Configuration validation failed: ") message = true /\
  ~ occursIn (txt "Missing formulas section") message.
Proof.
  intro H. pose proof (validateConfig_checked cfg) as C. rewrite H in C.
  apply andb_true_iff in C. destruct C as [C1 C2]. split; [exact C1|].
  intro O. apply includes_occursIn in O. rewrite O in C2. discriminate C2.
Qed.

(** X23.  For a configuration whose sections are objects or missing:
    [validateConfig] returns true exactly when the three sections are
    present and each of the seven required services has a formula that is
    not falsy; it never returns false.  With the formulas missing it
    throws a type error and no validation error; so the message of a
    validation error, which begins with its heading and lists the errors
    found, nowhere holds the text [Missing formulas section]. *)
Theorem validateConfig_accepts :
  forall (cfg : ConfigManager.config),
    (ConfigManager.validateConfig cfg = ConfigManager.Normal true <->
     ConfigManager.baseCosts cfg <> None /\ ConfigManager.multipliers cfg <> None /\
     exists fs, ConfigManager.formulas cfg = Some fs /\
                forall s, In s ConfigManager.requiredServices ->
                          exists f, obj_get fs s = Some f /\ formula_truthy f = true) /\
    (ConfigManager.formulas cfg = None ->
     ConfigManager.validateConfig cfg = ConfigManager.Abrupt ConfigManager.TypeError) /\
    ConfigManager.validateConfig cfg <> ConfigManager.Normal false /\
    (forall message,
        ConfigManager.validateConfig cfg = ConfigManager.Abrupt (ConfigManager.Error message) ->
        ConfigManager.formulas cfg <> None /\
        starts_with (txt "Configuration validation failed: ") message = true /\
        ~ occursIn (txt "Missing formulas section") message).
Proof.
  intro cfg. split; [|split; [|split]].
  4:{ intros message H. split; [|now apply validateConfig_message with cfg].
      intro E. unfold ConfigManager.validateConfig in H. rewrite E in H. discriminate H. }
  all: unfold ConfigManager.validateConfig, ConfigManager.sectionErrors; cbv zeta;
    destruct (ConfigManager.formulas cfg) as [fs|].
  2:{ split; [discriminate|]. intros (_ & _ & fs & H & _). discriminate H. }
  3:{ reflexivity. }
  4:{ discriminate. }
  all: cbn [app]; set (errors := (_ ++ _) ++ flat_map (ConfigManager.serviceErrors fs) _).
  - assert (E : errors = [] <->
                ConfigManager.baseCosts cfg <> None /\ ConfigManager.multipliers cfg <> None /\
                forall s, In s ConfigManager.requiredServices ->
                          exists f, obj_get fs s = Some f /\ formula_truthy f = true).
    { unfold errors. split.
      - intro H. apply app_eq_nil in H. destruct H as [H1 H2].
        apply app_eq_nil in H1. destruct H1 as [H1 H3].
        rewrite flat_map_nil in H2.
        split; [|split].
        + destruct (ConfigManager.baseCosts cfg); [discriminate|discriminate H1].
        + destruct (ConfigManager.multipliers cfg); [discriminate|discriminate H3].
        + intros s Hs. apply serviceErrors_nil. now apply H2.
      - intros (H1 & H2 & H3).
        destruct (ConfigManager.baseCosts cfg); [|congruence].
        destruct (ConfigManager.multipliers cfg); [|congruence].
        cbn [app]. apply flat_map_nil. intros s Hs. apply serviceErrors_nil. now apply H3. }
    clearbody errors. destruct errors as [|e errors].
    + split; [|reflexivity]. intros _. destruct (proj1 E eq_refl) as (H1 & H2 & H3). eauto.
    + split; [discriminate|]. intros (H1 & H2 & fs' & Hf & H3). injection Hf as <-.
      exfalso. assert (H : e :: errors = []) by (apply E; auto). discriminate H.
  - discriminate.
  - destruct errors; discriminate.
Qed.

(** A witness for X23: a configuration with a formula for each required
    service is accepted; one without formulas throws a type error; one
    with formulas for no service and without base costs gets a validation
    error that does not speak of the formulas section. *)
Lemma validateConfig_accepts_witness :
  let fs := map (fun s => (s, FNum (dec 1))) ConfigManager.requiredServices in
  let bare := {| ConfigManager.baseCosts := None; ConfigManager.formulas := Some [];
                 ConfigManager.multipliers := Some []; ConfigManager.flatBaseCosts := None |} in
  ConfigManager.validateConfig
    {| ConfigManager.baseCosts := Some []; ConfigManager.formulas := Some fs;
       ConfigManager.multipliers := Some []; ConfigManager.flatBaseCosts := None |}
  = ConfigManager.Normal true /\
  ConfigManager.validateConfig
    {| ConfigManager.baseCosts := Some []; ConfigManager.formulas := None;
       ConfigManager.multipliers := Some []; ConfigManager.flatBaseCosts := None |}
  = ConfigManager.Abrupt ConfigManager.TypeError /\
  exists message,
    ConfigManager.validateConfig bare = ConfigManager.Abrupt (ConfigManager.Error message) /\
    occursIn (txt "Missing baseCosts section, Missing formula for service: transport")
             message /\
    ~ occursIn (txt "Missing formulas section") message.
Proof.
  intros fs bare. split; [|split].
  - apply (proj1 (validateConfig_accepts _)). cbn.
    split; [discriminate|]. split; [discriminate|].
    exists fs. split; [reflexivity|].
    intros s Hs. exists (FNum (dec 1)). split; [|reflexivity].
    cbn in Hs. repeat (destruct Hs as [<-|Hs]; [reflexivity|]). destruct Hs.
  - apply (proj1 (proj2 (validateConfig_accepts _))). reflexivity.
  - destruct (ConfigManager.validateConfig bare) as [b|[message|]] eqn:E;
      try discriminate E.
    exists message. split; [reflexivity|]. split.
    + apply includes_occursIn. injection E as <-. vm_compute. reflexivity.
    + now apply (proj2 (proj2 (proj2 (validateConfig_accepts bare))) message E).
Defined.

(** ** Updating the formulas *)

Lemma obj_spread_order (V : Type) (o l : obj V) :
  NoDup (obj_keys l) ->
  obj_keys (obj_spread o l)
  = obj_keys o ++ filter (fun k => negb (obj_has o k)) (obj_keys l).
Proof.
  unfold obj_spread, obj_keys. intro H. revert o. induction l as [|[k v] l IH]; intro o.
  - cbn. now rewrite app_nil_r.
  - cbn [map fst] in H. inversion H as [|? ? Hk Hl]; subst.
    cbn [fold_left fst snd map filter].
    rewrite (IH Hl). pose proof (obj_set_keys o k v) as K. unfold obj_keys in K. rewrite K.
    assert (F : forall k', In k' (map fst l) ->
                           negb (obj_has (obj_set o k v) k') = negb (obj_has o k')).
    { intros k' Hk'. f_equal. unfold obj_has.
      rewrite obj_get_set_other; [reflexivity|]. intro E. subst k'. contradiction. }
    rewrite (filter_ext_in _ _ _ F).
    destruct (obj_has o k); cbn [negb]; [reflexivity|]. now rewrite <- app_assoc.
Qed.

Lemma obj_spread_nil (V : Type) (o : obj V) :
  NoDup (obj_keys o) -> obj_spread [] o = o.
Proof. intro H. now apply (@obj_spread_fresh V [] o). Qed.

(** X24.  [updateConfig], for formulas with distinct service names: a
    service reads its formula from the new formulas when they define it
    and keeps its formula otherwise; the services keep their order and the
    new ones follow; without new formulas nothing changes; the systems,
    the variables and the current system costs are never touched. *)
Theorem updateConfig_formulas :
  forall (eng : engine) (newFormulas : obj formula),
    NoDup (obj_keys (formulas eng)) -> NoDup (obj_keys newFormulas) ->
    (forall s, obj_get (formulas (updateConfig eng (Some newFormulas))) s
               = match obj_get newFormulas s with
                 | Some f => Some f
                 | None => obj_get (formulas eng) s
                 end) /\
    obj_keys (formulas (updateConfig eng (Some newFormulas)))
    = obj_keys (formulas eng)
      ++ filter (fun k => negb (obj_has (formulas eng) k)) (obj_keys newFormulas) /\
    formulas (updateConfig eng None) = formulas eng /\
    (forall nf, systems (updateConfig eng nf) = systems eng /\
                variables (updateConfig eng nf) = variables eng /\
                currentSystemCosts (updateConfig eng nf) = currentSystemCosts eng).
Proof.
  intros eng nf He Hn. unfold updateConfig. cbn [formulas systems variables currentSystemCosts].
  rewrite (@obj_spread_nil _ (formulas eng) He). split; [|split; [|split]].
  - intro s. now apply obj_get_spread.
  - now apply obj_spread_order.
  - reflexivity.
  - auto.
Qed.

(** A witness for X24: the new formula of transport replaces the old one in
    its place, and search is added last. *)
Lemma updateConfig_formulas_witness :
  let eng := {| formulas := [(txt "transport", FNum (dec 1)); (txt "storage", FNum (dec 2))];
                systems := []; variables := []; currentSystemCosts := [] |} in
  let newFormulas := [(txt "search", FNum (dec 3)); (txt "transport", FNum (dec 4))] in
  obj_keys (formulas (updateConfig eng (Some newFormulas)))
  = [txt "transport"; txt "storage"; txt "search"] /\
  obj_get (formulas (updateConfig eng (Some newFormulas))) (txt "transport")
  = Some (FNum (dec 4)).
Proof.
  intros eng newFormulas.
  assert (N1 : NoDup (obj_keys (formulas eng)))
    by (repeat constructor; simpl; intuition discriminate).
  assert (N2 : NoDup (obj_keys newFormulas))
    by (repeat constructor; simpl; intuition discriminate).
  destruct (@updateConfig_formulas eng newFormulas N1 N2) as (Hget & Hkeys & _).
  split.
  - etransitivity; [apply Hkeys|]. vm_compute. reflexivity.
  - etransitivity; [apply Hget|]. reflexivity.
Defined.

(** ** The console logger *)

Section LoggerFacts.

Variables arg date : Type.
Variable render : arg -> text.
Variable clock : date -> text.



End LoggerFacts.



(** ** The two versions of the engine *)

Lemma legacy_breakdown (costs : obj num) :
  Legacy.generateCostBreakdown costs
  = generateCostBreakdown (map (fun kv => (fst kv, Some (snd kv))) costs).
Proof.
  unfold Legacy.generateCostBreakdown, generateCostBreakdown. cbv zeta.
  assert (E : flat_map (fun kv : text * option num =>
                          match snd kv with
                          | Some c => [ {| service := fst kv; cost := c; percentage := zero |} ]
                          | None => []
                          end) (map (fun kv => (fst kv, Some (snd kv))) costs)
              = map (fun kv => {| service := fst kv; cost := snd kv; percentage := zero |}) costs).
  { induction costs as [|[k c] costs IH]; [reflexivity|]. cbn. now rewrite <- IH. }
  now rewrite E.
Qed.

Lemma map_obj_set (A B : Type) (f : A -> B) (o : obj A) (k : text) (v : A) :
  map (fun kv => (fst kv, f (snd kv))) (obj_set o k v)
  = obj_set (map (fun kv => (fst kv, f (snd kv))) o) k (f v).
Proof.
  induction o as [|[k' v'] o IH]; cbn [obj_set map fst snd]; [reflexivity|].
  destruct (text_eqb k' k); cbn [map fst snd]; [reflexivity|]. now rewrite IH.
Qed.

(** X26.  The two versions of the engine, when no system costs are set:
    [calculateServiceCost] is the same function; the breakdown of the
    earlier version is that of the later one on the same costs; and when
    every service passes the support check, [calculateTotalCost] returns
    the same services, total and breakdown in both, with nothing
    unsupported. *)
Theorem engines_agree_without_systems :
  forall (R : JSRuntime) (eng : engine) (serviceParameters : obj context),
    currentSystemCosts eng = [] ->
    (forall s parameters,
        Legacy.calculateServiceCost eng s parameters = calculateServiceCost eng s parameters) /\
    (forall costs,
        Legacy.generateCostBreakdown costs
        = generateCostBreakdown (map (fun kv => (fst kv, Some (snd kv))) costs)) /\
    ((forall s, In s (obj_keys (formulas eng)) -> checkServiceSupport eng s [] = true) ->
     exists legacy r,
       Legacy.calculateTotalCost eng serviceParameters = Returns legacy /\
       calculateTotalCost eng serviceParameters = Returns r /\
       services r = map (fun kv => (fst kv, Some (snd kv))) (Legacy.services legacy) /\
       total r = Legacy.total legacy /\
       breakdown r = Legacy.breakdown legacy /\
       unsupportedServices r = []).
Proof.
  intros R eng p Hsys.
  assert (S : forall s parameters,
             Legacy.calculateServiceCost eng s parameters = calculateServiceCost eng s parameters).
  { intros s q. unfold Legacy.calculateServiceCost, calculateServiceCost, serviceContext.
    now rewrite Hsys. }
  split; [exact S|]. split; [exact legacy_breakdown|].
  intro Hsup. unfold Legacy.calculateTotalCost.
  rewrite (for_of_total _ (legacyAfter eng p)) by apply legacy_serviceStep_completes.
  rewrite calculateTotalCost_completes. cbv zeta. cbn [bind].
  eexists _, _. split; [reflexivity|]. split; [reflexivity|].
  cbn [services total breakdown unsupportedServices Legacy.services Legacy.total
       Legacy.breakdown].
  assert (G : forall keys st lst,
             (forall s, In s keys -> checkServiceSupport eng s (currentSystemCosts eng) = true) ->
             costs st = map (fun kv => (fst kv, Some (snd kv))) (Legacy.costs lst) ->
             running st = Legacy.running lst ->
             let st' := loopFrom eng p keys st in
             let lst' := fold_left (fun st s => legacyAfter eng p s st) keys lst in
             costs st' = map (fun kv => (fst kv, Some (snd kv))) (Legacy.costs lst') /\
             running st' = Legacy.running lst' /\
             unsupported st' = unsupported st).
  { induction keys as [|k keys IH]; intros st lst Hk Hc Hr; cbv zeta.
    - cbn. auto.
    - unfold loopFrom. cbn [fold_left].
      fold (loopFrom eng p keys (afterService eng p k st)).
      assert (Hk' : checkServiceSupport eng k (currentSystemCosts eng) = true)
        by (apply Hk; now left).
      destruct (IH (afterService eng p k st) (legacyAfter eng p k lst)) as (I1 & I2 & I3).
      + intros s Hs. apply Hk. now right.
      + cbn [costs afterService Legacy.costs legacyAfter].
        rewrite (map_obj_set (@Some num)), <- Hc. f_equal.
        unfold serviceEntry, legacyEntry. rewrite Hk', S.
        now destruct (calculateServiceCost eng k (parametersFor p k)).
      + cbn [running afterService Legacy.running legacyAfter].
        unfold evaluatedCost. rewrite Hk', S, Hr.
        now destruct (calculateServiceCost eng k (parametersFor p k)).
      + split; [exact I1|]. split; [exact I2|].
        rewrite I3. cbn [unsupported afterService]. rewrite Hk'. apply app_nil_r. }
  destruct (G (obj_keys (formulas eng)) emptyTotals
              {| Legacy.costs := []; Legacy.running := zero |}) as (G1 & G2 & G3);
    try reflexivity.
  { intros s Hs. rewrite Hsys. now apply Hsup. }
  cbv zeta in G1, G2, G3.
  split; [exact G1|]. split; [exact G2|]. split; [|exact G3].
  now rewrite legacy_breakdown, G1.
Qed.

(** A witness for X26: one service that evaluates and one that throws. *)
Lemma engines_agree_without_systems_witness :
  let eng := {| formulas := [(txt "audit", FStr (txt "2 * $hours"));
                             (txt "search", FMultiplier (FNum (dec 4)) [])];
                systems := []; variables := [(txt "hours", Some (dec 3))];
                currentSystemCosts := [] |} in
  exists legacy r,
    @Legacy.calculateTotalCost Reference.runtime eng [] = Returns legacy /\
    @calculateTotalCost Reference.runtime eng [] = Returns r /\
    total r = Legacy.total legacy /\
    breakdown r = Legacy.breakdown legacy.
Proof.
  intro eng.
  destruct (@engines_agree_without_systems Reference.runtime eng [] eq_refl) as (_ & _ & H).
  destruct H as (legacy & r & H1 & H2 & _ & H3 & H4 & _).
  - intros s [<-|[<-|[]]]; reflexivity.
  - exists legacy, r. auto.
Defined.
